(** * Logic-signal simulation canvas: a shallow embedding

    The development follows [SimulationCanvas.tsx]: the wire router
    ([getPortPosition], [calculateOrthogonalPath]), the layout planner
    ([arrangeElements]), the flip-flop state machine inside
    [handleSignalArrival], and the timer-driven simulation driver of the
    [SimulationCanvas] component.

    JavaScript numbers are modelled as the rationals [Q] they denote.
    Coordinates and timestamps are computed exactly; the signal step and
    the progress of a signal, whose comparison with 1.0 decides the tick
    of an arrival, are computed with the rounding of IEEE 754 doubles
    ([roundDouble]).  Element identifiers are [Z], strings [string], and
    React state an explicit record threaded through the callbacks. *)

From Stdlib Require Import QArith Qabs Qminmax Qround Qpower Lqa ZArith Lia.
From stdpp Require Import base option list gmap strings pretty.

Close Scope Q_scope.
Local Open Scope Z_scope.

#[local] Set Warnings "-clear-no-such-hyp".

(** ** JavaScript string helpers *)

Module JsString.

(** [s.includes(sub)] *)
Fixpoint includes (sub s : string) : bool :=
  String.prefix sub s ||
  match s with
  | EmptyString => false
  | String _ s' => includes sub s'
  end.

(** [s.endsWith(suf)] *)
Fixpoint endsWith (suf s : string) : bool :=
  String.eqb suf s ||
  match s with
  | EmptyString => false
  | String _ s' => endsWith suf s'
  end.

End JsString.

(** ** Data model *)

(** Modelled from the spec: the declarations of [IElement], its ports and
    [IConnection] live in [lib/types/types], outside the canvas source.
    The fields are the ones the canvas code reads and writes; every
    field the code guards with [?.], [||] or [&&] is optional.  Field
    names carry a prefix because [id], [x] and [y] are too short to be
    global projections. *)
Record Port := mkPort { wireName : string }.

Record IElement := mkElement {
  el_id : Z;
  el_name : option string;
  el_type : string;
  el_x : option Q;
  el_y : option Q;
  el_inputs : option (list Port);
  el_outputs : option (list Port);
}.

Record IConnection := mkConnection { conn_name : string }.

Record Point := mkPoint { px : Q; py : Q }.

Inductive PortType := PInput | POutput.

(** [el.type === "DFF" || el.type === "DFF_NE"] *)
Definition isFlipFlop (el : IElement) : bool :=
  String.eqb (el_type el) "DFF" || String.eqb (el_type el) "DFF_NE".

(** [ports && ports.some(p => p.wireName === w)] *)
Definition hasWire (ports : option (list Port)) (w : string) : bool :=
  match ports with
  | None => false
  | Some ps => existsb (fun p => String.eqb (wireName p) w) ps
  end.

(** [ports?.find(p => p.wireName === w)] *)
Definition findPort (ports : option (list Port)) (w : string) : option Port :=
  match ports with
  | None => None
  | Some ps => List.find (fun p => String.eqb (wireName p) w) ps
  end.

(** [x || 0] on an optional coordinate *)
Definition orZero (c : option Q) : Q := default 0%Q c.

(** ** Wire path resolver *)

Definition getPortPosition (element : IElement) (portType : PortType)
    (portName : string) : Point :=
  let size := 50%Q in
  let x := orZero (el_x element) in
  let y := orZero (el_y element) in
  let portX := match portType with PInput => x | POutput => (x + size)%Q end in
  let portY := (y + size / 2)%Q in
  if isFlipFlop element then
    match portType with
    | PInput =>
        if JsString.includes "D" portName || JsString.endsWith "_0" portName then
          mkPoint x (y + size * (25 # 100))%Q
        else if JsString.includes "clk" portName
                || JsString.endsWith "_1" portName then
          mkPoint (x + size / 2)%Q (y + size)%Q
        else if JsString.includes "en" portName
                || JsString.endsWith "_2" portName then
          mkPoint x (y + size * (75 # 100))%Q
        else mkPoint portX portY
    | POutput => mkPoint (x + size)%Q (y + size / 2)%Q
    end
  else mkPoint portX portY.

(** [port?.wireName || connection.name] *)
Definition portNameOr (port : option Port) (fallback : string) : string :=
  match port with
  | Some p => if String.eqb (wireName p) "" then fallback else wireName p
  | None => fallback
  end.

Definition calculateOrthogonalPath (sourceElement destElement : IElement)
    (connection : IConnection) : list Point :=
  let sourcePort := findPort (el_outputs sourceElement) (conn_name connection) in
  let destPort := findPort (el_inputs destElement) (conn_name connection) in
  let sourcePos :=
    getPortPosition sourceElement POutput
      (portNameOr sourcePort (conn_name connection)) in
  let destPos :=
    getPortPosition destElement PInput
      (portNameOr destPort (conn_name connection)) in
  let startX := px sourcePos in
  let startY := py sourcePos in
  let endX := px destPos in
  let endY := py destPos in
  let midX := (startX + (endX - startX) / 2)%Q in
  [ mkPoint startX startY; mkPoint midX startY;
    mkPoint midX endY; mkPoint endX endY ].

(** Length of one segment.  [Math.sqrt(dx * dx + dy * dy)] is only ever
    applied to consecutive waypoints of [calculateOrthogonalPath], where
    [dx] or [dy] is zero, so the square root is [|dx| + |dy|] exactly. *)
Definition segmentLength (p q : Point) : Q :=
  (Qabs (px q - px p) + Qabs (py q - py p))%Q.

Fixpoint pathLength (path : list Point) : Q :=
  match path with
  | p :: ((q :: _) as rest) => (segmentLength p q + pathLength rest)%Q
  | _ => 0%Q
  end.

(** ** Layout planner *)

(** JavaScript arrays hold references.  The object store maps a
    reference (an index) to the element object it denotes; an array of
    elements is a list of references. *)
Abbreviation loc := nat (only parsing).
Abbreviation heap := (list IElement) (only parsing).

(** [arr.map(r => *r)]: the objects an array currently denotes. *)
Definition deref (h : heap) (arr : list loc) : list IElement :=
  omap (fun l => h !! l) arr.

(** [arr.find(pred)], returning the reference of the object found. *)
Fixpoint findRef (h : heap) (pred : IElement -> bool) (arr : list loc)
    : option loc :=
  match arr with
  | [] => None
  | l :: arr' =>
      match h !! l with
      | Some el => if pred el then Some l else findRef h pred arr'
      | None => findRef h pred arr'
      end
  end.

(** [elements.find(el => el.outputs && el.outputs.some(o => o.wireName === w))] *)
Definition findSource (els : list IElement) (w : string) : option IElement :=
  List.find (fun el => hasWire (el_outputs el) w) els.

(** [elements.find(el => el.inputs && el.inputs.some(i => i.wireName === w))] *)
Definition findDest (els : list IElement) (w : string) : option IElement :=
  List.find (fun el => hasWire (el_inputs el) w) els.

(** [elements.find(el => el.id === i)] *)
Definition findById (els : list IElement) (i : Z) : option IElement :=
  List.find (fun el => Z.eqb (el_id el) i) els.

(** Step 1: [dependencyGraph], a [Record<number, number[]>]. *)
Definition graphGet (g : gmap Z (list Z)) (i : Z) : list Z :=
  default [] (g !! i).

Definition initGraph (els : list IElement) : gmap Z (list Z) :=
  fold_left (fun g el => <[el_id el := []]> g) els ∅.

Definition addConnection (els : list IElement) (g : gmap Z (list Z))
    (conn : IConnection) : gmap Z (list Z) :=
  match findSource els (conn_name conn), findDest els (conn_name conn) with
  | Some sourceElement, Some destElement =>
      <[el_id sourceElement :=
          graphGet g (el_id sourceElement) ++ [el_id destElement]]> g
  | _, _ => g
  end.

Definition buildGraph (els : list IElement) (connections : list IConnection)
    : gmap Z (list Z) :=
  fold_left (addConnection els) connections (initGraph els).

(** Step 2: layers. *)
Definition isSourceElement (el : IElement) : bool :=
  String.eqb (el_type el) "module_input"
  || String.eqb (el_type el) "clk"
  || match el_inputs el with
     | None => true
     | Some ins => Nat.eqb (length ins) 0
     end.

Definition sourceLayers (els : list IElement) : list Z :=
  map el_id (filter (fun el => isSourceElement el = true) els).

(** The ids driving the input ports of [el] (unresolved wires dropped). *)
Definition inputElements (els : list IElement) (ins : list Port) : list Z :=
  omap (fun input => el_id <$> findSource els (wireName input)) ins.

(** Body of the inner [forEach((destId) => ...)]; the accumulator is
    [(nextLayer, visited)], both mutated in place by the source. *)
Definition visitDest (els : list IElement) (acc : list Z * gset Z) (destId : Z)
    : list Z * gset Z :=
  let '(nextLayer, visited) := acc in
  if decide (destId ∈ visited) then acc
  else
    match findById els destId with
    | Some el =>
        match el_inputs el with
        | Some ins =>
            if forallb (fun i => bool_decide (i ∈ visited))
                 (inputElements els ins)
            then (nextLayer ++ [destId], {[destId]} ∪ visited)
            else acc
        | None => acc
        end
    | None => acc
    end.

(** One pass of the [while] body over [currentLayer]. *)
Definition expandLayer (els : list IElement) (g : gmap Z (list Z))
    (visited : gset Z) (currentLayer : list Z) : list Z * gset Z :=
  fold_left
    (fun acc srcId => fold_left (visitDest els) (graphGet g srcId) acc)
    currentLayer ([], visited).

(** The [while (currentLayer.length > 0)] loop.  [fuel] bounds the number
    of iterations; [None] means the bound was hit before the loop exited. *)
Fixpoint bfsLoop (fuel : nat) (els : list IElement) (g : gmap Z (list Z))
    (visited : gset Z) (layers : list (list Z)) (currentLayer : list Z)
    : option (gset Z * list (list Z)) :=
  match currentLayer with
  | [] => Some (visited, layers)
  | _ :: _ =>
      match fuel with
      | O => None
      | S fuel' =>
          let '(nextLayer, visited') := expandLayer els g visited currentLayer in
          let layers' :=
            match nextLayer with
            | [] => layers
            | _ :: _ => layers ++ [nextLayer]
            end in
          bfsLoop fuel' els g visited' layers' nextLayer
      end
  end.

Definition computeLayers (fuel : nat) (els : list IElement)
    (connections : list IConnection) : option (list (list Z)) :=
  let g := buildGraph els connections in
  let src := sourceLayers els in
  match bfsLoop fuel els g (list_to_set src) [src] src with
  | None => None
  | Some (visited, layers) =>
      let remainingElements :=
        filter (fun i => i ∉ visited) (map el_id els) in
      Some match remainingElements with
           | [] => layers
           | _ :: _ => layers ++ [remainingElements]
           end
  end.

(** Step 3: positions.  [elementToUpdate.x = layerX; elementToUpdate.y =
    layerY] writes through the reference found in [arrangedElements]. *)
Definition HORIZONTAL_SPACING : Z := 200.
Definition VERTICAL_SPACING : Z := 100.

Definition setPosition (el : IElement) (x y : Q) : IElement :=
  mkElement (el_id el) (el_name el) (el_type el) (Some x) (Some y)
    (el_inputs el) (el_outputs el).

Definition placeElement (arr : list loc) (layerX : Z) (h : heap)
    (elementIndex : nat) (i : Z) : heap :=
  let layerY := 100 + Z.of_nat elementIndex * VERTICAL_SPACING in
  match findRef h (fun el => Z.eqb (el_id el) i) arr with
  | Some l =>
      match h !! l with
      | Some el => <[l := setPosition el (inject_Z layerX) (inject_Z layerY)]> h
      | None => h
      end
  | None => h
  end.

(** [xs.forEach((v, index) => ...)] threading the store. *)
Fixpoint forEachIndexed {A} (f : heap -> nat -> A -> heap) (h : heap)
    (index : nat) (xs : list A) : heap :=
  match xs with
  | [] => h
  | v :: xs' => forEachIndexed f (f h index v) (S index) xs'
  end.

Definition placeLayer (arr : list loc) (h : heap) (layerIndex : nat)
    (layerIds : list Z) : heap :=
  let layerX := 100 + Z.of_nat layerIndex * HORIZONTAL_SPACING in
  forEachIndexed (placeElement arr layerX) h 0 layerIds.

Definition assignPositions (arr : list loc) (h : heap)
    (layers : list (list Z)) : heap :=
  forEachIndexed (placeLayer arr) h 0 layers.

(** [arrangeElements(elements, connections)].  [elements] is the caller's
    array; [arrangedElements = [...elements]] is a fresh array holding the
    same references.  The result is the store after the call and the
    returned array; [fuel] bounds the iterations of the [while] loop and
    [None] means it ran out. *)
Definition arrangeElements (fuel : nat) (h : heap) (elements : list loc)
    (connections : list IConnection) : option (heap * list loc) :=
  let arrangedElements := elements in
  match arrangedElements with
  | [] => Some (h, arrangedElements)
  | _ :: _ =>
      match computeLayers fuel (deref h arrangedElements) connections with
      | None => None
      | Some layers =>
          Some (assignPositions arrangedElements h layers, arrangedElements)
      end
  end.

(** ** Signals and flip-flop state *)

Record Signal := mkSignal {
  connectionName : string;
  position : Q;
  points : list Point;
  totalLength : Q;
  createdAt : Q;
  sourceName : string;
  destName : string;
}.

Record FlipFlopState := mkFlipFlop {
  ff_id : Z;
  ff_name : string;
  hasD : bool;
  hasEn : bool;
  outputValue : bool;
  lastClockTime : Q;
  ff_type : string;
}.

(** Entry of [activeFlipFlopInputs]. *)
Record FlipFlopInputs := mkInputs {
  fi_D : bool;
  fi_En : bool;
  lastEnUpdateTime : Q;
}.

(** A pending [setTimeout(..., 100)] of [handleSignalArrival]: the
    closure captures the flip-flop's element id; [to_due] is the time the
    timer may fire. *)
Record Timeout := mkTimeout { to_ffId : Z; to_due : Q }.

Definition Qltb (a b : Q) : bool := negb (Qle_bool b a).

(** Object spread with one field replaced. *)
Definition withHasD (ff : FlipFlopState) (v : bool) : FlipFlopState :=
  mkFlipFlop (ff_id ff) (ff_name ff) v (hasEn ff) (outputValue ff)
    (lastClockTime ff) (ff_type ff).
Definition withHasEn (ff : FlipFlopState) (v : bool) : FlipFlopState :=
  mkFlipFlop (ff_id ff) (ff_name ff) (hasD ff) v (outputValue ff)
    (lastClockTime ff) (ff_type ff).
Definition withOutputValue (ff : FlipFlopState) (v : bool) : FlipFlopState :=
  mkFlipFlop (ff_id ff) (ff_name ff) (hasD ff) (hasEn ff) v
    (lastClockTime ff) (ff_type ff).
Definition withLastClockTime (ff : FlipFlopState) (t : Q) : FlipFlopState :=
  mkFlipFlop (ff_id ff) (ff_name ff) (hasD ff) (hasEn ff) (outputValue ff)
    t (ff_type ff).
Definition withPosition (s : Signal) (p : Q) : Signal :=
  mkSignal (connectionName s) p (points s) (totalLength s) (createdAt s)
    (sourceName s) (destName s).

(** [el.name || `${prefix}${el.id}`] *)
Definition nameOr (prefix : string) (el : IElement) : string :=
  match el_name el with
  | Some n => if String.eqb n "" then prefix +:+ pretty (el_id el) else n
  | None => prefix +:+ pretty (el_id el)
  end.

(** The signal both emission paths build: position 0 on the routed path. *)
Definition newSignal (source dest : IElement) (conn : IConnection) (now : Q)
    : Signal :=
  let path := calculateOrthogonalPath source dest conn in
  mkSignal (conn_name conn) 0%Q path (pathLength path) now
    (nameOr "element-" source) (nameOr "element-" dest).

(** [arr.findIndex(p)], with [-1] as [None]. *)
Fixpoint findIndex {A} (p : A -> bool) (l : list A) : option nat :=
  match l with
  | [] => None
  | a :: l' => if p a then Some O else S <$> findIndex p l'
  end.

(** ** Component state *)

Record SimState := mkState {
  elements : list IElement;
  connections : list IConnection;
  runningSimulation : bool;
  clockFrequency : Q;
  activeSignals : list Signal;
  flipFlopStates : list FlipFlopState;
  activeInputs : list Z;
  activeOutputs : gmap Z Q;
  activeFlipFlopInputs : gmap Z FlipFlopInputs;
  pendingTimeouts : list Timeout;
  draggingElement : option Z;
  elementWasDragged : bool;
  elementsModified : bool;
  clickedElement : option IElement;
}.

Definition setRunningSimulation (v : bool) (s : SimState) : SimState :=
  mkState (elements s) (connections s) v (clockFrequency s) (activeSignals s)
    (flipFlopStates s) (activeInputs s) (activeOutputs s)
    (activeFlipFlopInputs s) (pendingTimeouts s) (draggingElement s)
    (elementWasDragged s) (elementsModified s) (clickedElement s).
Definition setClockFrequency (v : Q) (s : SimState) : SimState :=
  mkState (elements s) (connections s) (runningSimulation s) v
    (activeSignals s) (flipFlopStates s) (activeInputs s) (activeOutputs s)
    (activeFlipFlopInputs s) (pendingTimeouts s) (draggingElement s)
    (elementWasDragged s) (elementsModified s) (clickedElement s).
Definition setActiveSignals (f : list Signal -> list Signal) (s : SimState)
    : SimState :=
  mkState (elements s) (connections s) (runningSimulation s)
    (clockFrequency s) (f (activeSignals s)) (flipFlopStates s)
    (activeInputs s) (activeOutputs s) (activeFlipFlopInputs s)
    (pendingTimeouts s) (draggingElement s) (elementWasDragged s)
    (elementsModified s) (clickedElement s).
Definition setFlipFlopStates (v : list FlipFlopState) (s : SimState)
    : SimState :=
  mkState (elements s) (connections s) (runningSimulation s)
    (clockFrequency s) (activeSignals s) v (activeInputs s) (activeOutputs s)
    (activeFlipFlopInputs s) (pendingTimeouts s) (draggingElement s)
    (elementWasDragged s) (elementsModified s) (clickedElement s).
Definition setActiveInputs (f : list Z -> list Z) (s : SimState) : SimState :=
  mkState (elements s) (connections s) (runningSimulation s)
    (clockFrequency s) (activeSignals s) (flipFlopStates s)
    (f (activeInputs s)) (activeOutputs s) (activeFlipFlopInputs s)
    (pendingTimeouts s) (draggingElement s) (elementWasDragged s)
    (elementsModified s) (clickedElement s).
Definition setActiveOutputs (f : gmap Z Q -> gmap Z Q) (s : SimState)
    : SimState :=
  mkState (elements s) (connections s) (runningSimulation s)
    (clockFrequency s) (activeSignals s) (flipFlopStates s) (activeInputs s)
    (f (activeOutputs s)) (activeFlipFlopInputs s) (pendingTimeouts s)
    (draggingElement s) (elementWasDragged s) (elementsModified s)
    (clickedElement s).
Definition setActiveFlipFlopInputs
    (f : gmap Z FlipFlopInputs -> gmap Z FlipFlopInputs) (s : SimState)
    : SimState :=
  mkState (elements s) (connections s) (runningSimulation s)
    (clockFrequency s) (activeSignals s) (flipFlopStates s) (activeInputs s)
    (activeOutputs s) (f (activeFlipFlopInputs s)) (pendingTimeouts s)
    (draggingElement s) (elementWasDragged s) (elementsModified s)
    (clickedElement s).
Definition setPendingTimeouts (v : list Timeout) (s : SimState) : SimState :=
  mkState (elements s) (connections s) (runningSimulation s)
    (clockFrequency s) (activeSignals s) (flipFlopStates s) (activeInputs s)
    (activeOutputs s) (activeFlipFlopInputs s) v (draggingElement s)
    (elementWasDragged s) (elementsModified s) (clickedElement s).
(** The four click/drag fields, always written together. *)
Definition setPointer (dragging : option Z) (dragged modified : bool)
    (clicked : option IElement) (s : SimState) : SimState :=
  mkState (elements s) (connections s) (runningSimulation s)
    (clockFrequency s) (activeSignals s) (flipFlopStates s) (activeInputs s)
    (activeOutputs s) (activeFlipFlopInputs s) (pendingTimeouts s) dragging
    dragged modified clicked.

(** ** Flip-flop state machine: [handleSignalArrival] *)

(** The updater passed to [setFlipFlopStates], together with the
    [setActiveFlipFlopInputs] and [setTimeout] calls it makes.  [now] is
    [performance.now()]. *)
Definition flipFlopArrival (now : Q) (destElement : IElement)
    (isDInput isEnInput isClockInput : bool) (s : SimState) : SimState :=
  let prev := flipFlopStates s in
  match findIndex (fun ff => Z.eqb (ff_id ff) (el_id destElement)) prev with
  | None => s
  | Some ffIndex =>
      match prev !! ffIndex with
      | None => s
      | Some ff =>
          if isDInput then
            setFlipFlopStates (<[ffIndex := withHasD ff true]> prev) s
          else if isEnInput then
            if String.eqb (el_type destElement) "DFF" then
              setActiveFlipFlopInputs
                (fun m =>
                   let old :=
                     default (mkInputs false false 0%Q)
                       (m !! el_id destElement) in
                   <[el_id destElement := mkInputs (fi_D old) true now]> m)
                (setFlipFlopStates (<[ffIndex := withHasEn ff true]> prev) s)
            else s
          else if isClockInput then
            (* Debounce clock to prevent multiple triggers *)
            if Qltb (now - lastClockTime ff)%Q 50%Q then s
            else
              let ff1 := withLastClockTime ff now in
              let shouldUpdateOutput :=
                String.eqb (el_type destElement) "DFF_NE"
                || (String.eqb (el_type destElement) "DFF" && hasEn ff) in
              let ff2 :=
                if shouldUpdateOutput then withOutputValue ff1 (hasD ff)
                else ff1 in
              let timeouts :=
                if shouldUpdateOutput && outputValue ff2 then
                  pendingTimeouts s
                  ++ [mkTimeout (el_id destElement) (now + 100)%Q]
                else pendingTimeouts s in
              setPendingTimeouts timeouts
                (setFlipFlopStates (<[ffIndex := withHasD ff2 false]> prev) s)
          else s
      end
  end.

(** [inputs?.indexOf(inputPort)] for the port [find] returned: the first
    index whose wire name matches. *)
Definition portIndexOf (ports : option (list Port)) (w : string) : option nat :=
  match ports with
  | None => None
  | Some ps => findIndex (fun p => String.eqb (wireName p) w) ps
  end.

(** [portIndex === k || (wireName && wireName.includes(tag))] *)
Definition isPort (k : nat) (tag : string) (portIndex : option nat)
    (inputPort : Port) : bool :=
  bool_decide (portIndex = Some k)
  || (negb (String.eqb (wireName inputPort) "")
      && JsString.includes tag (wireName inputPort)).

Definition handleSignalArrival (now : Q) (s : SimState) (signal : Signal)
    : SimState :=
  match findDest (elements s) (connectionName signal) with
  | None => s
  | Some destElement =>
      match findPort (el_inputs destElement) (connectionName signal) with
      | None => s
      | Some inputPort =>
          let s1 :=
            if String.eqb (el_type destElement) "module_output" then
              setActiveOutputs (fun m => <[el_id destElement := now]> m) s
            else s in
          if isFlipFlop destElement then
            let portIndex :=
              portIndexOf (el_inputs destElement) (connectionName signal) in
            let isClockInput := isPort 1 "clk" portIndex inputPort in
            let isDInput := isPort 0 "D" portIndex inputPort in
            let isEnInput := isPort 2 "en" portIndex inputPort in
            flipFlopArrival now destElement isDInput isEnInput isClockInput s1
          else s1
      end
  end.

(** The callback of the 100 ms [setTimeout]: the updater it passes to
    [setActiveSignals]. *)
Definition deferredEmission (els : list IElement)
    (conns : list IConnection) (ffId : Z) (now : Q) (signals : list Signal)
    : list Signal :=
  let outputConn :=
    List.find
      (fun conn =>
         match List.find
                 (fun el => Z.eqb (el_id el) ffId
                            && hasWire (el_outputs el) (conn_name conn)) els
         with Some _ => true | None => false end)
      conns in
  match outputConn with
  | None => signals
  | Some outputConn =>
      match findById els ffId, findDest els (conn_name outputConn) with
      | Some outputElement, Some targetElement =>
          signals ++ [newSignal outputElement targetElement outputConn now]
      | _, _ => signals
      end
  end.

(** ** Simulation driver *)

(** Body of [allSignalSources.forEach((conn) => ...)]. *)
Definition emitOn (els : list IElement) (now : Q)
    (updatedSignals : list Signal) (conn : IConnection) : list Signal :=
  if existsb (fun signal => String.eqb (connectionName signal) (conn_name conn))
       updatedSignals
  then updatedSignals
  else
    match findSource els (conn_name conn), findDest els (conn_name conn) with
    | Some source, Some dest => updatedSignals ++ [newSignal source dest conn now]
    | _, _ => updatedSignals
    end.

Definition findClock (els : list IElement) : option IElement :=
  List.find (fun el => String.eqb (el_type el) "clk") els.

Definition clockConnections (els : list IElement) (conns : list IConnection)
    (clockElement : IElement) : list IConnection :=
  List.filter
    (fun conn =>
       match findSource els (conn_name conn) with
       | Some sourceElement => Z.eqb (el_id sourceElement) (el_id clockElement)
       | None => false
       end)
    conns.

Definition inputConnections (els : list IElement) (conns : list IConnection)
    (active : list Z) : list IConnection :=
  List.filter
    (fun conn =>
       match findSource els (conn_name conn) with
       | Some sourceElement =>
           String.eqb (el_type sourceElement) "module_input"
           && existsb (Z.eqb (el_id sourceElement)) active
       | None => false
       end)
    conns.

(** Callback of [clockInterval]: the updater passed to [setActiveSignals]. *)
Definition clockIntervalTick (els : list IElement) (conns : list IConnection)
    (active : list Z) (clockElement : IElement) (now : Q)
    (prevSignals : list Signal) : list Signal :=
  let allSignalSources :=
    clockConnections els conns clockElement ++ inputConnections els conns active in
  fold_left (emitOn els now) allSignalSources prevSignals.

(** *** Double precision

    JavaScript numbers are IEEE 754 doubles.  The progress of a signal is
    compared with 1.0 after every addition, so the rounding of the step
    and of each addition decides in which tick a signal arrives; these
    operations are modelled with their rounding.  A double is the
    rational it denotes.

    [roundHalfEven x] is the integer nearest to [x], the even one on a
    tie. *)
Definition roundHalfEven (x : Q) : Z :=
  let n := Qfloor x in
  match Qcompare (x - inject_Z n)%Q (1 # 2)%Q with
  | Lt => n
  | Gt => (n + 1)%Z
  | Eq => if Z.even n then n else (n + 1)%Z
  end.

(** The exponent [e] with [2 ^ e <= q < 2 ^ (e + 1)], for [q > 0]. *)
Definition binade (q : Q) : Z :=
  let e := (Z.log2 (Qnum q) - Z.log2 (Z.pos (Qden q)))%Z in
  if Qle_bool (2 ^ e)%Q q then e else (e - 1)%Z.

(** The double nearest to [q] (round to nearest, ties to even): a
    53-bit integer times the unit in the last place of the binade of
    [q].  The exponent range is not bounded: the result is the IEEE one
    for every [q] whose magnitude lies in the normal range of doubles,
    from [2 ^ -1022] to [2 ^ 1024], which covers clock frequencies in
    [1, 100] and progress values. *)
Definition roundDouble (q : Q) : Q :=
  if Qeq_bool q 0 then 0%Q
  else
    let ulp := (2 ^ (binade (Qabs q) - 52))%Q in
    Qred (inject_Z (roundHalfEven (q / ulp)) * ulp).

(** [a + b] and [a / b] on doubles. *)
Definition fadd (a b : Q) : Q := roundDouble (a + b).
Definition fdiv (a b : Q) : Q := roundDouble (a / b).

(** [1 / clockFrequency] *)
Definition signalSpeed (clockFrequency : Q) : Q := fdiv 1 clockFrequency.

(** [0.01 / signalSpeed]; the literal [0.01] is the double nearest to
    1/100. *)
Definition signalStep (clockFrequency : Q) : Q :=
  fdiv (roundDouble (1 # 100)) (signalSpeed clockFrequency).

(** Callback of [prev.map((signal) => ...)] in [signalInterval].  The
    arrival handler is a parameter, so that its calls can be observed. *)
Definition advanceSignal {S : Type} (arrive : S -> Signal -> S) (step : Q)
    (acc : S * list Signal) (signal : Signal) : S * list Signal :=
  let newPosition := fadd (position signal) step in
  let st :=
    if Qltb (position signal) 1%Q && Qle_bool 1%Q newPosition
    then arrive (fst acc) signal
    else fst acc in
  (st, snd acc ++ [withPosition signal newPosition]).

(** Callback of [signalInterval]: map, then drop what reached the end. *)
Definition advanceSignals {S : Type} (arrive : S -> Signal -> S) (step : Q)
    (st : S) (prev : list Signal) : S * list Signal :=
  let '(st', updatedSignals) :=
    fold_left (advanceSignal arrive step) prev (st, []) in
  (st', List.filter (fun signal => Qltb (position signal) 1%Q) updatedSignals).

Definition signalIntervalTick (now : Q) (s : SimState) : SimState :=
  let '(s', signals) :=
    advanceSignals (handleSignalArrival now) (signalStep (clockFrequency s))
      s (activeSignals s) in
  setActiveSignals (fun _ => signals) s'.

(** Callback of [resetInterval] (every 200 ms): stale enables of
    flip-flops other than DFF_NE are dropped. *)
Definition enableStale (inputs : gmap Z FlipFlopInputs) (now : Q)
    (ff : FlipFlopState) : bool :=
  negb (String.eqb (ff_type ff) "DFF_NE")
  && match inputs !! ff_id ff with
     | Some ffInputs =>
         fi_En ffInputs && Qltb 500%Q (now - lastEnUpdateTime ffInputs)%Q
     | None => false
     end.

Definition resetIntervalTick (now : Q) (s : SimState) : SimState :=
  let stale := enableStale (activeFlipFlopInputs s) now in
  setActiveFlipFlopInputs
    (fun m =>
       fold_left
         (fun m ff =>
            if stale ff then
              let old := default (mkInputs false false 0%Q) (m !! ff_id ff) in
              <[ff_id ff := mkInputs (fi_D old) false (lastEnUpdateTime old)]> m
            else m)
         (flipFlopStates s) m)
    (setFlipFlopStates
       (map (fun ff => if stale ff then withHasEn ff false else ff)
          (flipFlopStates s))
       s).

(** Callback of [resetOutputsInterval]: outputs lit for more than 500 ms
    are removed. *)
Definition resetOutputsTick (now : Q) (s : SimState) : SimState :=
  setActiveOutputs
    (fun prev =>
       filter (fun kv => Qltb 500%Q (now - kv.2)%Q = false) prev)
    s.

(** The effect that owns the two intervals; it re-runs whenever one of
    its dependencies ([runningSimulation], [clockFrequency],
    [activeInputs], ...) changes.  While stopped it clears the signals;
    while running it only re-creates the intervals. *)
Definition simulationEffect (s : SimState) : SimState :=
  if runningSimulation s then s else setActiveSignals (fun _ => []) s.

(** The effect with dependency [runningSimulation] that owns
    [resetOutputsInterval]. *)
Definition outputsEffect (s : SimState) : SimState :=
  if runningSimulation s then s else setActiveOutputs (fun _ => ∅) s.

(** [useEffect(() => setRunningSimulation(playing), [playing])] followed
    by the effects that depend on [runningSimulation]. *)
Definition setPlaying (playing : bool) (s : SimState) : SimState :=
  if Bool.eqb playing (runningSimulation s) then s
  else outputsEffect (simulationEffect (setRunningSimulation playing s)).

(** The two effects on [resetTriggered]. *)
Definition resetFlipFlop (ff : FlipFlopState) : FlipFlopState :=
  mkFlipFlop (ff_id ff) (ff_name ff) false
    (String.eqb (ff_type ff) "DFF_NE") false 0%Q (ff_type ff).

Definition resetTriggered (s : SimState) : SimState :=
  setActiveOutputs (fun _ => ∅)
    (simulationEffect
       (setActiveInputs (fun _ => [])
          (setFlipFlopStates (map resetFlipFlop (flipFlopStates s)) s))).

Definition handleClockFrequencyChange (newFrequency : Q) (s : SimState)
    : SimState :=
  let f := Qmax 1%Q (Qmin 100%Q newFrequency) in
  if Qeq_bool f (clockFrequency s) then s
  else simulationEffect (setClockFrequency f s).

(** ** Pointer handlers *)

(** The updater [handleMouseUp] passes to [setActiveInputs]. *)
Definition toggleInput (i : Z) (prev : list Z) : list Z :=
  let isActive := existsb (Z.eqb i) prev in
  if isActive then List.filter (fun j => negb (Z.eqb j i)) prev
  else prev ++ [i].

Definition handleMouseDown (canvasX canvasY : Q) (s : SimState) : SimState :=
  let hit (el : IElement) :=
    let size := 50%Q in
    let x := orZero (el_x el) in
    let y := orZero (el_y el) in
    Qle_bool x canvasX && Qle_bool canvasX (x + size)%Q
    && Qle_bool y canvasY && Qle_bool canvasY (y + size)%Q in
  match List.find hit (elements s) with
  | Some foundElement =>
      setPointer (Some (el_id foundElement)) false (elementsModified s)
        (Some foundElement) s
  | None => setPointer (draggingElement s) false (elementsModified s) None s
  end.

Definition handleMouseUp (s : SimState) : SimState :=
  let s1 :=
    match clickedElement s with
    | Some clicked =>
        if negb (elementWasDragged s) then
          (* a click: toggle an input module *)
          if String.eqb (el_type clicked) "module_input" then
            simulationEffect
              (setPointer (draggingElement s) (elementWasDragged s) true
                 (clickedElement s)
                 (setActiveInputs (toggleInput (el_id clicked)) s))
          else s
        else if bool_decide (draggingElement s <> None) && elementWasDragged s
        then
          setPointer (draggingElement s) (elementWasDragged s) true
            (clickedElement s) s
        else s
    | None =>
        if bool_decide (draggingElement s <> None) && elementWasDragged s then
          setPointer (draggingElement s) (elementWasDragged s) true
            (clickedElement s) s
        else s
    end in
  setPointer None false (elementsModified s1) None s1.

(** ** The component as a transition system *)

(** What can happen to the mounted component: prop changes, user
    commands and timer callbacks.  Timer events carry the value of
    [performance.now()] at the time they run. *)
Inductive Event :=
| Playing (playing : bool)
| Reset
| ClockFrequency (newFrequency : Q)
| MouseDown (canvasX canvasY : Q)
| MouseUp
| ClockInterval (now : Q)
| SignalInterval (now : Q)
| ResetInterval (now : Q)
| ResetOutputsInterval (now : Q)
| TimeoutFires (k : nat) (now : Q).

(** The interval timers exist only while the simulation runs; the two
    signal timers also need a clock element ([if (!clockElement) return]).
    A timeout fires once, at or after its due time, whatever the run
    state: nothing clears it. *)
Definition step (s : SimState) (e : Event) : SimState :=
  match e with
  | Playing playing => setPlaying playing s
  | Reset => resetTriggered s
  | ClockFrequency f => handleClockFrequencyChange f s
  | MouseDown cx cy => handleMouseDown cx cy s
  | MouseUp => handleMouseUp s
  | ClockInterval now =>
      match runningSimulation s, findClock (elements s) with
      | true, Some clockElement =>
          setActiveSignals
            (clockIntervalTick (elements s) (connections s) (activeInputs s)
               clockElement now)
            s
      | _, _ => s
      end
  | SignalInterval now =>
      match runningSimulation s, findClock (elements s) with
      | true, Some _ => signalIntervalTick now s
      | _, _ => s
      end
  | ResetInterval now =>
      if runningSimulation s then resetIntervalTick now s else s
  | ResetOutputsInterval now =>
      if runningSimulation s then resetOutputsTick now s else s
  | TimeoutFires k now =>
      match pendingTimeouts s !! k with
      | Some t =>
          if Qle_bool (to_due t) now then
            setPendingTimeouts (delete k (pendingTimeouts s))
              (setActiveSignals
                 (deferredEmission (elements s) (connections s) (to_ffId t) now)
                 s)
          else s
      | None => s
      end
  end.

Definition run (s : SimState) (trace : list Event) : SimState :=
  fold_left step trace s.

(** State after mount with a netlist loaded: the effect on [elements]
    initialises one [FlipFlopState] per flip-flop. *)
Definition initFlipFlop (el : IElement) : FlipFlopState :=
  mkFlipFlop (el_id el) (nameOr "flip-flop-" el) false
    (String.eqb (el_type el) "DFF_NE") false 0%Q (el_type el).

Definition initialState (els : list IElement) (conns : list IConnection)
    : SimState :=
  let flipFlops := List.filter isFlipFlop els in
  mkState els conns false 20%Q [] (map initFlipFlop flipFlops) [] ∅
    (fold_left
       (fun m el =>
          <[el_id el := mkInputs false (String.eqb (el_type el) "DFF_NE") 0%Q]> m)
       flipFlops ∅)
    [] None false false None.

(** ** Observations used by the statements *)

(** Number of signals in flight on a wire. *)
Definition signalsOn (w : string) (signals : list Signal) : nat :=
  length (List.filter (fun s => String.eqb (connectionName s) w) signals).

(** At most one signal per connection name. *)
Definition onePerWire (signals : list Signal) : Prop :=
  forall w, (signalsOn w signals <= 1)%nat.

(** The calls [signalInterval] makes to the arrival handler in one tick,
    in order, and the signals it leaves in flight. *)
Definition dispatched (step : Q) (signals : list Signal) : list Signal :=
  fst (advanceSignals (fun log signal => log ++ [signal]) step [] signals).

Definition remaining (step : Q) (signals : list Signal) : list Signal :=
  snd (advanceSignals (fun log signal => log ++ [signal]) step [] signals).

(** Handler calls over [n] consecutive ticks, and what is left after them. *)
Fixpoint arrivalsOver (n : nat) (step : Q) (signals : list Signal)
    : list Signal :=
  match n with
  | O => []
  | S n' => dispatched step signals ++ arrivalsOver n' step (remaining step signals)
  end.

Fixpoint remainingAfter (n : nat) (step : Q) (signals : list Signal)
    : list Signal :=
  match n with
  | O => signals
  | S n' => remainingAfter n' step (remaining step signals)
  end.

(** Progress of a signal after [n] ticks: [n] additions of [step]. *)
Fixpoint progressAfter (n : nat) (step p : Q) : Q :=
  match n with
  | O => p
  | S n' => progressAfter n' step (fadd p step)
  end.

(** The test [signal.position < 1.0 && newPosition >= 1.0] of the
    advancement tick, and the signal it writes back. *)
Definition crosses (step : Q) (s : Signal) : bool :=
  Qltb (position s) 1%Q && Qle_bool 1%Q (fadd (position s) step).

Definition bump (step : Q) (s : Signal) : Signal :=
  withPosition s (fadd (position s) step).

(** The relative error of one rounding, [2 ^ -53]. *)
Definition unitRoundoff : Q := 1 # 9007199254740992.

(** The set of element ids of a netlist. *)
Definition idSet (els : list IElement) : gset Z :=
  list_to_set (map el_id els).

(** Facts every reachable state of the component satisfies: the clock
    frequency is within its clamp and every signal in flight has a
    progress in [0, 1). *)
Definition wellFormed (s : SimState) : Prop :=
  (1 <= clockFrequency s)%Q /\ (clockFrequency s <= 100)%Q
  /\ Forall (fun signal => (0 <= position signal)%Q /\ (position signal < 1)%Q)
       (activeSignals s).

(** The events that run the deferred emission. *)
Definition isTimeout (e : Event) : bool :=
  match e with
  | TimeoutFires _ _ => true
  | _ => false
  end.

(** Validity of an array of references, and uniqueness of element ids. *)
Definition validRefs (h : heap) (arr : list loc) : Prop :=
  Forall (fun l => is_Some (h !! l)) arr.

Definition uniqueIds (h : heap) (arr : list loc) : Prop :=
  NoDup (map el_id (deref h arr)).

(** What the inner loops of the layer expansion maintain while they build
    [nextLayer]: the new layer has no duplicates, holds only ids of
    elements that were not visited before, and [visited] grew by exactly
    its ids. *)
Definition layerInv (idset visited0 : gset Z) (acc : list Z * gset Z) : Prop :=
  NoDup acc.1
  /\ acc.2 = visited0 ∪ list_to_set acc.1
  /\ forall i, i ∈ acc.1 -> (i ∉ visited0) /\ (i ∈ idset).

(** What the [while] loop maintains: the layers built so far list exactly
    the visited ids, each once, and all of them are element ids. *)
Definition bfsInv (idset visited : gset Z) (layers : list (list Z)) : Prop :=
  visited ⊆ idset
  /\ NoDup (concat layers)
  /\ list_to_set (concat layers) = visited.

(** The ids no layer of the expansion reached. *)
Definition unreached (els : list IElement) (visited : gset Z) : list Z :=
  filter (fun i => i ∉ visited) (map el_id els).

(** ** A small netlist used in the examples

    A module input drives D of a DFF_NE, the clock drives its clock port,
    and Q drives a module output.  Positions are the ones the layout
    planner assigns. *)
Module Demo.

Definition rawInput : IElement :=
  mkElement 1 (Some "in") "module_input" None None
    (Some []) (Some [mkPort "d"]).
Definition rawClock : IElement :=
  mkElement 2 (Some "clock") "clk" None None
    (Some []) (Some [mkPort "clk"]).
Definition rawFlipFlop : IElement :=
  mkElement 3 (Some "ff") "DFF_NE" None None
    (Some [mkPort "d"; mkPort "clk"]) (Some [mkPort "q"]).
Definition rawOutput : IElement :=
  mkElement 4 (Some "out") "module_output" None None
    (Some [mkPort "q"]) (Some []).

(** The store holding the four objects, and the caller's array. *)
Definition rawHeap : heap := [rawInput; rawClock; rawFlipFlop; rawOutput].
Definition rawElements : list loc := [0; 1; 2; 3]%nat.

Definition netConnections : list IConnection :=
  [mkConnection "d"; mkConnection "clk"; mkConnection "q"].

Definition arranged : heap :=
  match arrangeElements 5 rawHeap rawElements netConnections with
  | Some (h, _) => h
  | None => rawHeap
  end.

Definition netElements : list IElement := deref arranged rawElements.

Definition mounted : SimState := initialState netElements netConnections.

(** Timeline in milliseconds, every timer firing when it is due, a
    timer created earlier first.  The user clicks the input, sets the
    clock to 25 Hz and starts the simulation at 0: [signalInterval] fires
    every 10 ms, [clockInterval] every 40 ms.  At 25 Hz the step is
    exactly 0.25 in double precision, so a wire is crossed in four
    ticks.  The clock edge at 70 latches D = 0 and D arrives right after
    it; the edge at 110 comes 40 ms after the accepted one and is
    dropped; the edge at 150 latches D = 1 and schedules the deferred
    emission on "q", due at 250. *)
Definition untilLatch : list Event :=
  [ MouseDown 110 110; MouseUp; ClockFrequency 25; Playing true ]%Q
  ++ map SignalInterval [10; 20; 30]%Q
  ++ [ ClockInterval 40 ]%Q
  ++ map SignalInterval [40; 50; 60; 70]%Q
  ++ [ ClockInterval 80 ]%Q
  ++ map SignalInterval [80; 90; 100; 110]%Q
  ++ [ ClockInterval 120 ]%Q
  ++ map SignalInterval [120; 130; 140; 150]%Q.

(** The edge at 190 is dropped, the edge at 230 latches again (second
    deferred emission, due at 330).  The enable sweep and the output
    sweep fire at 200.  At 250 the first deferred emission puts a signal
    on "q".  At 255 the user lowers the clock to 1 Hz: the two timers of
    the simulation effect restart and the signals crawl (about 0.01 per
    tick). *)
Definition untilSecondTimeout : list Event :=
  untilLatch
  ++ [ ClockInterval 160 ]%Q
  ++ map SignalInterval [160; 170; 180; 190]%Q
  ++ [ ResetInterval 200; ResetOutputsInterval 200; ClockInterval 200 ]%Q
  ++ map SignalInterval [200; 210; 220; 230]%Q
  ++ [ ClockInterval 240; SignalInterval 240 ]%Q
  ++ [ TimeoutFires 0 250; SignalInterval 250; ClockFrequency 1 ]%Q
  ++ map SignalInterval [265; 275; 285; 295; 305; 315; 325]%Q.

(** Stop at 155, after the latch and before the deferred emission is
    due. *)
Definition stopBeforeTimeout : list Event :=
  untilLatch ++ [ Playing false ].

(** Two signals in flight while running. *)
Definition inFlight : list Event :=
  [ MouseDown 110 110; MouseUp; Playing true ]%Q
  ++ map SignalInterval [10; 20; 30; 40]%Q
  ++ [ ClockInterval 50; SignalInterval 50 ]%Q.

(** The arranged module input of the netlist. *)
Definition netInput : IElement :=
  mkElement 1 (Some "in") "module_input" (Some 100%Q) (Some 100%Q)
    (Some []) (Some [mkPort "d"]).

Definition netFlipFlop : IElement :=
  mkElement 3 (Some "ff") "DFF_NE" (Some 300%Q) (Some 100%Q)
    (Some [mkPort "d"; mkPort "clk"]) (Some [mkPort "q"]).

(** A signal about to arrive on the clock wire. *)
Definition clockArrival : Signal :=
  mkSignal "clk" (4 # 5) [] 0 0 "clock" "ff".

(** The same netlist with an enable-gated DFF whose enable port is not
    driven, after a D pulse has arrived at 40 ms. *)
Definition gatedFlipFlop : IElement :=
  mkElement 3 (Some "ff") "DFF" (Some 300%Q) (Some 100%Q)
    (Some [mkPort "d"; mkPort "clk"; mkPort "e"]) (Some [mkPort "q"]).

Definition gatedElements : list IElement :=
  [ mkElement 1 (Some "in") "module_input" (Some 100%Q) (Some 100%Q)
      (Some []) (Some [mkPort "d"]);
    mkElement 2 (Some "clock") "clk" (Some 100%Q) (Some 200%Q)
      (Some []) (Some [mkPort "clk"]);
    gatedFlipFlop;
    mkElement 4 (Some "out") "module_output" (Some 500%Q) (Some 100%Q)
      (Some [mkPort "q"]) (Some []) ].

Definition gatedPending : SimState :=
  handleSignalArrival 40 (initialState gatedElements netConnections)
    (mkSignal "d" (4 # 5) [] 0 0 "in" "ff").

(** A flip-flop feeding its own D input through an inverter-like LUT:
    a cycle, nothing of which is reachable from a source element. *)
Definition loopHeap : heap :=
  [ mkElement 7 (Some "clock") "clk" None None
      (Some []) (Some [mkPort "clk"]);
    mkElement 8 (Some "ff") "DFF_NE" None None
      (Some [mkPort "n"; mkPort "clk"]) (Some [mkPort "q"]);
    mkElement 9 (Some "lut") "LUT1" None None
      (Some [mkPort "q"]) (Some [mkPort "n"]) ].
Definition loopElements : list loc := [0; 1; 2]%nat.
Definition loopConnections : list IConnection :=
  [mkConnection "clk"; mkConnection "q"; mkConnection "n"].

End Demo.

(** ** Further handlers of the canvas *)

(** The hit test of [handleMouseDown]: the cursor is inside the 50 x 50
    box of the element. *)
Definition hitTest (canvasX canvasY : Q) (el : IElement) : bool :=
  let size := 50%Q in
  let x := orZero (el_x el) in
  let y := orZero (el_y el) in
  Qle_bool x canvasX && Qle_bool canvasX (x + size)%Q
  && Qle_bool y canvasY && Qle_bool canvasY (y + size)%Q.

(** The updater [handleMouseMove] passes to [setElements]: the dragged
    element is re-created centred on the cursor, the others are kept. *)
Definition dragUpdate (draggingElement : Z) (canvasX canvasY : Q)
    (prev : list IElement) : list IElement :=
  map (fun el =>
         if Z.eqb (el_id el) draggingElement then
           mkElement (el_id el) (el_name el) (el_type el)
             (Some (canvasX - 25)%Q) (Some (canvasY - 25)%Q)
             (el_inputs el) (el_outputs el)
         else el)
    prev.

(** [dragStartPos && (Math.abs(canvasX - dragStartPos.x) > 5 ||
    Math.abs(canvasY - dragStartPos.y) > 5)] *)
Definition movedEnough (dragStartPos : option Point) (canvasX canvasY : Q)
    : bool :=
  match dragStartPos with
  | Some start =>
      Qltb 5%Q (Qabs (canvasX - px start))
      || Qltb 5%Q (Qabs (canvasY - py start))
  | None => false
  end.

(** [handleMouseMove] on the state it reads and writes: the dragged id,
    the drag start, the drag flag and the element list.  The result is
    the new drag flag and the new element list. *)
Definition handleMouseMove (draggingElement : option Z)
    (dragStartPos : option Point) (elementWasDragged : bool)
    (canvasX canvasY : Q) (els : list IElement) : bool * list IElement :=
  match draggingElement with
  | None => (elementWasDragged, els)
  | Some dragged =>
      (elementWasDragged || movedEnough dragStartPos canvasX canvasY,
       dragUpdate dragged canvasX canvasY els)
  end.

(** ** Further observations *)

(** An element without its coordinates. *)
Definition forgetPosition (el : IElement) : IElement :=
  mkElement (el_id el) (el_name el) (el_type el) None None
    (el_inputs el) (el_outputs el).

(** [allSignalSources] of the emission tick. *)
Definition allSignalSources (els : list IElement) (conns : list IConnection)
    (active : list Z) (clockElement : IElement) : list IConnection :=
  clockConnections els conns clockElement ++ inputConnections els conns active.

(** Both ends of the connection resolve ([if (source && dest)]). *)
Definition resolvable (els : list IElement) (conn : IConnection) : bool :=
  match findSource els (conn_name conn), findDest els (conn_name conn) with
  | Some _, Some _ => true
  | _, _ => false
  end.

(** Some connection of the list is named [w] and resolves. *)
Definition emitsOn (els : list IElement) (sources : list IConnection)
    (w : string) : bool :=
  existsb (fun conn => String.eqb (conn_name conn) w && resolvable els conn)
    sources.

(** The part of the flip-flop states no handler writes. *)
Definition roster (ffs : list FlipFlopState) : list (Z * string * string) :=
  map (fun ff => (ff_id ff, ff_name ff, ff_type ff)) ffs.

(** What every handler keeps of a flip-flop state: its id, name and
    type, and the enable of a flip-flop without enable port. *)
Definition sameFlipFlop (ff ff' : FlipFlopState) : Prop :=
  ff_id ff' = ff_id ff
  /\ ff_name ff' = ff_name ff
  /\ ff_type ff' = ff_type ff
  /\ (ff_type ff = "DFF_NE" -> hasEn ff = true -> hasEn ff' = true).

(** Flip-flops without enable are always enabled. *)
Definition alwaysEnabled (ffs : list FlipFlopState) : Prop :=
  Forall (fun ff => ff_type ff = "DFF_NE" -> hasEn ff = true) ffs.

(** The ids that drive the inputs of the element with id [i]. *)
Definition driversOf (els : list IElement) (i : Z) : list Z :=
  match findById els i with
  | Some el =>
      match el_inputs el with
      | Some ins => inputElements els ins
      | None => []
      end
  | None => []
  end.

(** A placement order in which every id comes after the ids that drive
    it, unless it is a source element. *)
Definition driversFirst (els : list IElement) (order : list Z) : Prop :=
  forall (k : nat) (i : Z),
    order !! k = Some i ->
    i ∈ sourceLayers els
    \/ forall d, d ∈ driversOf els i -> d ∈ take k order.

(** ** Signal markers ([drawCanvas])

    The loop of [drawCanvas] that finds the segment a signal is on:
    [segmentIndex] stays 0 and [currentDistance] keeps the whole length
    when no segment reaches the target distance. *)
Fixpoint locateSegment (pts : list Point) (i : nat)
    (currentDistance targetDistance : Q) : nat * Q :=
  match pts with
  | p :: ((q :: _) as rest) =>
      if Qle_bool targetDistance (currentDistance + segmentLength p q)%Q
      then (i, currentDistance)
      else locateSegment rest (S i)
             (currentDistance + segmentLength p q)%Q targetDistance
  | _ => (0%nat, currentDistance)
  end.

(** Where [drawCanvas] draws the circle of a signal while the simulation
    runs; [None] when it draws none: the signal is at the end, has no
    segment, or sits on a segment of length zero, where the division
    gives [NaN] and [ctx.arc] ignores the call. *)
Definition markerPosition (signal : Signal) : option Point :=
  if Qltb (position signal) 1%Q && (2 <=? length (points signal))%nat then
    let targetDistance := (totalLength signal * position signal)%Q in
    let found := locateSegment (points signal) 0 0%Q targetDistance in
    let segmentIndex := found.1 in
    let currentDistance := found.2 in
    match points signal !! segmentIndex, points signal !! S segmentIndex with
    | Some p1, Some p2 =>
        let dx := (px p2 - px p1)%Q in
        let dy := (py p2 - py p1)%Q in
        if Qeq_bool (segmentLength p1 p2) 0%Q then None
        else
          let segmentProgress :=
            ((targetDistance - currentDistance) / segmentLength p1 p2)%Q in
          Some (mkPoint (px p1 + dx * segmentProgress)%Q
                        (py p1 + dy * segmentProgress)%Q)
    | _, _ => None
    end
  else None.

(** The point [p1 + t (p2 - p1)] of a segment. *)
Definition onSegment (p1 p2 m : Point) : Prop :=
  exists t : Q,
    (0 <= t)%Q /\ (t <= 1)%Q
    /\ (px m == px p1 + (px p2 - px p1) * t)%Q
    /\ (py m == py p1 + (py p2 - py p1) * t)%Q.

(** The element moved by [(dx, dy)]. *)
Definition moveBy (dx dy : Q) (el : IElement) : IElement :=
  mkElement (el_id el) (el_name el) (el_type el)
    (Some (orZero (el_x el) + dx)%Q) (Some (orZero (el_y el) + dy)%Q)
    (el_inputs el) (el_outputs el).

(** ** The tab bar ([TabsBar.tsx]) *)

Module TabsBar.

Section Tabs.

(** The tab type comes from [@/data/sample-tabs], outside the source;
    the code only reads the [id] of a tab. *)
Variable Tab : Type.
Variable tab_id : Tab -> string.

(** [activeTabs] and [selectedTab] are the state of the bar;
    [activeTabId] is the parent's state behind [setActiveTabId]. *)
Record State := mkTabs {
  activeTabs : list Tab;
  selectedTab : string;
  activeTabId : string;
}.

(** [useState(tabs)] and [useState(tabs[0]?.id || "")]. *)
Definition initial (tabs : list Tab) (parentTabId : string) : State :=
  mkTabs tabs
    match tabs with
    | t :: _ => tab_id t
    | [] => ""
    end
    parentTabId.

Definition handleTabClick (id : string) (st : State) : State :=
  mkTabs (activeTabs st) id id.

Definition removeTab (id : string) (st : State) : State :=
  let newTabs :=
    List.filter (fun tab => negb (String.eqb (tab_id tab) id))
      (activeTabs st) in
  if String.eqb id (selectedTab st) && (0 <? length newTabs)%nat then
    match newTabs with
    | first :: _ => mkTabs newTabs (tab_id first) (tab_id first)
    | [] => mkTabs newTabs (selectedTab st) (activeTabId st)
    end
  else mkTabs newTabs (selectedTab st) (activeTabId st).

(** The selected tab is one of the open tabs. *)
Definition selectionOpen (st : State) : Prop :=
  selectedTab st ∈ map tab_id (activeTabs st).

End Tabs.

End TabsBar.

(** ** Further example data *)

Module Cases.

(** The gated DFF of [Demo] with its enable port driven by wire "e". *)
Definition enableArrival : Signal :=
  mkSignal "e" (4 # 5) [] 0 0 "in" "ff".

Definition dataArrival : Signal :=
  mkSignal "d" (4 # 5) [] 0 0 "in" "ff".

Definition outputArrival : Signal :=
  mkSignal "q" (4 # 5) [] 0 0 "ff" "out".

Definition gatedMounted : SimState :=
  initialState Demo.gatedElements Demo.netConnections.

(** An AND gate between an input and an output. *)
Definition gateElements : list IElement :=
  [ mkElement 1 (Some "a") "module_input" (Some 100%Q) (Some 100%Q)
      (Some []) (Some [mkPort "a"]);
    mkElement 2 (Some "g") "and" (Some 300%Q) (Some 100%Q)
      (Some [mkPort "a"]) (Some [mkPort "y"]);
    mkElement 3 (Some "o") "module_output" (Some 500%Q) (Some 100%Q)
      (Some [mkPort "y"]) (Some []) ].

Definition gateMounted : SimState :=
  initialState gateElements [mkConnection "a"; mkConnection "y"].

(** Element 1 drives gate 2 and gate 3, and gate 2 drives gate 3. *)
Definition chainElements : list IElement :=
  [ mkElement 1 (Some "src") "module_input" None None
      (Some []) (Some [mkPort "a"; mkPort "b"]);
    mkElement 2 (Some "inv") "LUT1" None None
      (Some [mkPort "a"]) (Some [mkPort "n"]);
    mkElement 3 (Some "g") "and" None None
      (Some [mkPort "b"; mkPort "n"]) (Some [mkPort "y"]) ].

Definition chainConnections : list IConnection :=
  [mkConnection "a"; mkConnection "b"; mkConnection "n"; mkConnection "y"].

(** Three tabs, as [(id, name)] pairs. *)
Definition tabs : list (string * string) :=
  [("t1", "adder"); ("t2", "counter"); ("t3", "shift")].

End Cases.

(** * Properties *)

(** ** Helper facts *)

Lemma Qltb_lt (a b : Q) : Qltb a b = true <-> (a < b)%Q.
Proof.
  unfold Qltb. rewrite Bool.negb_true_iff, <- Bool.not_true_iff_false.
  rewrite Qle_bool_iff. split; [apply Qnot_le_lt | apply Qlt_not_le].
Qed.

Lemma Qltb_ge (a b : Q) : Qltb a b = false <-> (b <= a)%Q.
Proof.
  unfold Qltb. rewrite Bool.negb_false_iff. apply Qle_bool_iff.
Qed.

Lemma portNameOr_connection (ports : option (list Port)) (w : string) :
  portNameOr (findPort ports w) w = w.
Proof.
  unfold portNameOr, findPort. destruct ports as [ps|]; [|reflexivity].
  destruct (List.find _ ps) as [p|] eqn:Hfind; [|reflexivity].
  apply find_some in Hfind as [_ Hname]. apply String.eqb_eq in Hname.
  rewrite Hname. destruct (String.eqb w ""); reflexivity.
Qed.

Lemma fold_left_preserves {A B : Type} (P : A -> Prop) (f : A -> B -> A)
    (l : list B) (a : A) :
  (forall a b, P a -> P (f a b)) -> P a -> P (fold_left f l a).
Proof.
  intros Hf. revert a. induction l as [|b l IH]; intros a Ha; simpl; auto.
Qed.

(** ** Wire path resolver *)

(** C9 (amended): the routed path has exactly four waypoints: the source
    port, two bends on the column halfway between the two ports, the
    destination port.  An output port (Q of a flip-flop included) is the centre of
    the right edge.  An input port of a flip-flop is at 25 % height on the
    left edge when its wire is recognised as D, at the bottom centre when
    recognised as clock, at 75 % height on the left edge when recognised
    as enable; every other input port is the centre of the left edge.
    Coordinates are compared as rationals. *)
Theorem calculateOrthogonalPath_waypoints
    (sourceElement destElement : IElement) (connection : IConnection) :
  let w := conn_name connection in
  let a := getPortPosition sourceElement POutput w in
  let b := getPortPosition destElement PInput w in
  let x0 := orZero (el_x sourceElement) in
  let y0 := orZero (el_y sourceElement) in
  let x1 := orZero (el_x destElement) in
  let y1 := orZero (el_y destElement) in
  (exists c1 c2 : Point,
      calculateOrthogonalPath sourceElement destElement connection
      = [a; c1; c2; b]
      /\ (px c1 == (px a + px b) / 2)%Q /\ py c1 = py a
      /\ (px c2 == (px a + px b) / 2)%Q /\ py c2 = py b)
  /\ ((px a == x0 + 50)%Q /\ (py a == y0 + 25)%Q)
  /\ (if isFlipFlop destElement then
        if JsString.includes "D" w || JsString.endsWith "_0" w then
          (px b == x1)%Q /\ (py b == y1 + (25 # 100) * 50)%Q
        else if JsString.includes "clk" w || JsString.endsWith "_1" w then
          (px b == x1 + 25)%Q /\ (py b == y1 + 50)%Q
        else if JsString.includes "en" w || JsString.endsWith "_2" w then
          (px b == x1)%Q /\ (py b == y1 + (75 # 100) * 50)%Q
        else (px b == x1)%Q /\ (py b == y1 + 25)%Q
      else (px b == x1)%Q /\ (py b == y1 + 25)%Q).
Proof.
  intros w a b x0 y0 x1 y1. split; [|split].
  - unfold calculateOrthogonalPath. rewrite !portNameOr_connection.
    fold w. fold a. fold b.
    destruct a as [ax ay], b as [bx by']. simpl.
    eexists _, _. split; [reflexivity|]. simpl.
    repeat split; field.
  - subst a x0 y0. unfold getPortPosition.
    destruct (isFlipFlop sourceElement); simpl; split; field.
  - subst b x1 y1. unfold getPortPosition.
    destruct (isFlipFlop destElement); [|simpl; split; field].
    destruct (JsString.includes "D" w || JsString.endsWith "_0" w);
      [simpl; split; field|].
    destruct (JsString.includes "clk" w || JsString.endsWith "_1" w);
      [simpl; split; field|].
    destruct (JsString.includes "en" w || JsString.endsWith "_2" w);
      simpl; split; field.
Qed.

(** C9 as stated fails: in the demo netlist the wire "d" enters the
    flip-flop at its data input (input port 0, which the arrival dispatch
    treats as D), yet the path ends at the centre of the left edge,
    (300, 125), not at 25 % height, (300, 112.5): the position follows
    the wire name, and "d" has no capital D and does not end in "_0". *)
Lemma data_port_at_left_centre :
  let path :=
    calculateOrthogonalPath Demo.netInput Demo.netFlipFlop
      (mkConnection "d") in
  let port := List.last path (mkPoint 0 0) in
  Demo.netInput ∈ Demo.netElements
  /\ Demo.netFlipFlop ∈ Demo.netElements
  /\ isFlipFlop Demo.netFlipFlop = true
  /\ isPort 0 "D" (portIndexOf (el_inputs Demo.netFlipFlop) "d")
       (mkPort "d") = true
  /\ length path = 4%nat
  /\ (px port == 300)%Q /\ (py port == 125)%Q
  /\ ~ (py port == 100 + (25 # 100) * 50)%Q.
Proof.
  vm_compute. split; [left|]. split; [do 2 right; left|].
  repeat split; try reflexivity. discriminate.
Qed.

(** ** Input toggle *)

Lemma existsb_Zeqb_elem (i : Z) (l : list Z) :
  existsb (Z.eqb i) l = true <-> i ∈ l.
Proof.
  rewrite existsb_exists, list_elem_of_In. split.
  - intros (j & Hj & Heq). apply Z.eqb_eq in Heq. by subst.
  - intros Hi. exists i. split; [done | apply Z.eqb_refl].
Qed.

Lemma elem_of_toggleInput (i j : Z) (prev : list Z) :
  j ∈ toggleInput i prev <->
  if decide (j = i) then i ∉ prev else j ∈ prev.
Proof.
  unfold toggleInput.
  destruct (existsb (Z.eqb i) prev) eqn:Hact.
  - apply existsb_Zeqb_elem in Hact.
    rewrite list_elem_of_In, filter_In, <- list_elem_of_In.
    rewrite Bool.negb_true_iff, Z.eqb_neq.
    destruct (decide (j = i)) as [->|Hne]; intuition congruence.
  - assert (i ∉ prev) as Hout.
    { intros Hin. apply existsb_Zeqb_elem in Hin. congruence. }
    rewrite elem_of_app, list_elem_of_singleton.
    destruct (decide (j = i)) as [->|Hne]; intuition congruence.
Qed.

(** C10: one toggle adds the id to the active-input set when it is
    absent and removes it when it is present, leaving every other id as
    it was; two toggles of the same id give back the original set. *)
Theorem toggleInput_involution (i : Z) (prev : list Z) :
  (list_to_set (toggleInput i prev) : gset Z)
  = (if decide (i ∈ prev) then list_to_set prev ∖ {[i]}
     else list_to_set prev ∪ {[i]})
  /\ (list_to_set (toggleInput i (toggleInput i prev)) : gset Z)
     = list_to_set prev.
Proof.
  split.
  - apply set_eq. intros j. rewrite elem_of_list_to_set, elem_of_toggleInput.
    destruct (decide (i ∈ prev)) as [Hin|Hout];
      destruct (decide (j = i)) as [->|Hne]; set_solver.
  - apply set_eq. intros j.
    rewrite !elem_of_list_to_set, elem_of_toggleInput.
    destruct (decide (j = i)) as [->|Hne].
    + rewrite elem_of_toggleInput. rewrite decide_True by done.
      destruct (decide (i ∈ prev)); intuition congruence.
    + rewrite elem_of_toggleInput. by rewrite decide_False.
Qed.

(** A click (no drag) on a module input applies [toggleInput] to the
    active inputs. *)
Lemma handleMouseUp_toggles (s : SimState) (clicked : IElement) :
  clickedElement s = Some clicked ->
  elementWasDragged s = false ->
  el_type clicked = "module_input" ->
  activeInputs (handleMouseUp s) = toggleInput (el_id clicked) (activeInputs s).
Proof.
  intros Hc Hd Ht. unfold handleMouseUp. rewrite Hc, Hd, Ht. simpl.
  unfold simulationEffect. simpl. by destruct (runningSimulation s).
Qed.

(** ** Flip-flop state machine *)

Ltac qcmp := unfold Qle, Qlt; simpl; lia.

Lemma flipFlop_not_output (el : IElement) :
  isFlipFlop el = true -> String.eqb (el_type el) "module_output" = false.
Proof.
  unfold isFlipFlop. intros H. apply Bool.orb_true_iff in H.
  destruct H as [H|H]; apply String.eqb_eq in H; rewrite H; reflexivity.
Qed.

(** C6: a clock arrival that passes the debounce stamps the clock time,
    sets the output to D-pending exactly when
    [shouldLatch = (type == DFF_NE) || (type == DFF && hasEn)] and leaves
    it alone otherwise, and clears D-pending in both cases (so a pending
    D is lost on an edge that does not latch). *)
Theorem clock_edge_latches (now : Q) (s : SimState) (signal : Signal)
    (destElement : IElement) (inputPort : Port) (k : nat)
    (ff : FlipFlopState) :
  let w := connectionName signal in
  let portIndex := portIndexOf (el_inputs destElement) w in
  let shouldLatch :=
    String.eqb (el_type destElement) "DFF_NE"
    || (String.eqb (el_type destElement) "DFF" && hasEn ff) in
  findDest (elements s) w = Some destElement ->
  findPort (el_inputs destElement) w = Some inputPort ->
  isFlipFlop destElement = true ->
  isPort 0 "D" portIndex inputPort = false ->
  isPort 2 "en" portIndex inputPort = false ->
  isPort 1 "clk" portIndex inputPort = true ->
  findIndex (fun ff => Z.eqb (ff_id ff) (el_id destElement))
    (flipFlopStates s) = Some k ->
  flipFlopStates s !! k = Some ff ->
  (50 <= now - lastClockTime ff)%Q ->
  flipFlopStates (handleSignalArrival now s signal)
  = <[k := mkFlipFlop (ff_id ff) (ff_name ff) false (hasEn ff)
             (if shouldLatch then hasD ff else outputValue ff)
             now (ff_type ff)]> (flipFlopStates s).
Proof.
  intros w portIndex shouldLatch Hdest Hport Hff HD Hen Hclk Hidx Hk Hdeb.
  unfold handleSignalArrival. fold w. rewrite Hdest, Hport, Hff.
  fold portIndex. rewrite HD, Hen, Hclk.
  rewrite (flipFlop_not_output _ Hff).
  unfold flipFlopArrival. rewrite Hidx, Hk.
  apply Qltb_ge in Hdeb. rewrite Hdeb.
  fold shouldLatch. destruct shouldLatch; reflexivity.
Qed.

(** C6 at the gated DFF with D pending and enable low: the edge at 90 ms
    is accepted, the output stays false and the pending D is dropped. *)
Lemma clock_edge_latches_witness :
  flipFlopStates (handleSignalArrival 90 Demo.gatedPending Demo.clockArrival)
  = <[0%nat := mkFlipFlop 3 "ff" false false false 90 "DFF"]>
      (flipFlopStates Demo.gatedPending)
  /\ flipFlopStates Demo.gatedPending
     = [mkFlipFlop 3 "ff" true false false 0 "DFF"].
Proof.
  split; [|reflexivity].
  apply (clock_edge_latches 90 Demo.gatedPending Demo.clockArrival
           Demo.gatedFlipFlop (mkPort "clk") 0
           (mkFlipFlop 3 "ff" true false false 0 "DFF"));
    try reflexivity; qcmp.
Defined.

(** C7: a clock arrival less than 50 ms after the last accepted edge
    changes nothing: the whole component state, flip-flop states and
    pending timeouts included, is the one before the arrival. *)
Theorem clock_edge_debounced (now : Q) (s : SimState) (signal : Signal)
    (destElement : IElement) (inputPort : Port) (k : nat)
    (ff : FlipFlopState) :
  let w := connectionName signal in
  let portIndex := portIndexOf (el_inputs destElement) w in
  findDest (elements s) w = Some destElement ->
  findPort (el_inputs destElement) w = Some inputPort ->
  isFlipFlop destElement = true ->
  isPort 0 "D" portIndex inputPort = false ->
  isPort 2 "en" portIndex inputPort = false ->
  isPort 1 "clk" portIndex inputPort = true ->
  findIndex (fun ff => Z.eqb (ff_id ff) (el_id destElement))
    (flipFlopStates s) = Some k ->
  flipFlopStates s !! k = Some ff ->
  (now - lastClockTime ff < 50)%Q ->
  handleSignalArrival now s signal = s.
Proof.
  intros w portIndex Hdest Hport Hff HD Hen Hclk Hidx Hk Hdeb.
  unfold handleSignalArrival. fold w. rewrite Hdest, Hport, Hff.
  fold portIndex. rewrite HD, Hen, Hclk.
  rewrite (flipFlop_not_output _ Hff).
  unfold flipFlopArrival. rewrite Hidx, Hk.
  apply Qltb_lt in Hdeb. rewrite Hdeb. reflexivity.
Qed.

(** C7 after the latch at 150 ms: the edge at 190 ms is dropped. *)
Lemma clock_edge_debounced_witness :
  handleSignalArrival 190 (run Demo.mounted Demo.untilLatch) Demo.clockArrival
  = run Demo.mounted Demo.untilLatch.
Proof.
  apply (clock_edge_debounced 190 (run Demo.mounted Demo.untilLatch)
           Demo.clockArrival Demo.netFlipFlop (mkPort "clk") 0
           (mkFlipFlop 3 "ff" true true true 150 "DFF_NE"));
    [vm_compute; reflexivity .. | reflexivity].
Defined.

(** ** Double precision *)

Section DoublePrecision.

Local Open Scope Q_scope.

Lemma roundHalfEven_near (x : Q) :
  x - (1 # 2) <= inject_Z (roundHalfEven x)
  /\ inject_Z (roundHalfEven x) <= x + (1 # 2).
Proof.
  unfold roundHalfEven.
  pose proof (Qfloor_le x) as Hlo. pose proof (Qlt_floor x) as Hhi.
  rewrite inject_Z_plus in Hhi. change (inject_Z 1) with 1 in Hhi.
  destruct (Qcompare (x - inject_Z (Qfloor x)) (1 # 2)) eqn:Hc.
  - apply Qeq_alt in Hc.
    destruct (Z.even (Qfloor x)); rewrite ?inject_Z_plus;
      change (inject_Z 1) with 1; split; lra.
  - apply Qlt_alt in Hc. split; lra.
  - apply Qgt_alt in Hc. rewrite inject_Z_plus. change (inject_Z 1) with 1.
    split; lra.
Qed.

Lemma pow2_pos (e : Z) : 0 < 2 ^ e.
Proof. apply Qpower_0_lt. reflexivity. Qed.

Lemma pow2_succ (e : Z) : 2 ^ (e + 1) == 2 * 2 ^ e.
Proof. rewrite Qpower_plus by discriminate. change (2 ^ 1) with 2. ring. Qed.

Lemma pow2_pred (e : Z) : 2 ^ e == 2 * 2 ^ (e - 1).
Proof.
  rewrite <- pow2_succ. replace (e - 1 + 1)%Z with e by lia. reflexivity.
Qed.

Lemma pow2_log2 (n : positive) :
  2 ^ Z.log2 (Z.pos n) <= inject_Z (Z.pos n)
  /\ inject_Z (Z.pos n) < 2 * 2 ^ Z.log2 (Z.pos n).
Proof.
  destruct (Z.log2_spec (Z.pos n)) as [Hlo Hhi]; [lia|].
  pose proof (Z.log2_nonneg (Z.pos n)) as Hnn.
  rewrite Zle_Qle in Hlo. rewrite Zlt_Qlt in Hhi.
  rewrite Zpower_Qpower in Hlo, Hhi by lia.
  change (inject_Z 2) with 2 in Hlo, Hhi.
  unfold Z.succ in Hhi. rewrite pow2_succ in Hhi. split; assumption.
Qed.

(** [binade] finds the binade of a positive rational. *)
Lemma binade_spec (q : Q) :
  0 < q -> 2 ^ binade q <= q /\ q < 2 * 2 ^ binade q.
Proof.
  intros Hq. destruct q as [n d].
  assert (0 < n)%Z as Hn by (unfold Qlt in Hq; simpl in Hq; lia).
  destruct n as [|n|n]; try lia. clear Hn.
  unfold binade. cbn [Qnum Qden].
  set (a := Z.log2 (Z.pos n)). set (b := Z.log2 (Z.pos d)).
  destruct (pow2_log2 n) as [Hn1 Hn2]. destruct (pow2_log2 d) as [Hd1 Hd2].
  fold a in Hn1, Hn2. fold b in Hd1, Hd2.
  pose proof (pow2_pos a) as Ha. pose proof (pow2_pos b) as Hb.
  assert (2 ^ (a - b) * 2 ^ b == 2 ^ a) as Hab.
  { rewrite <- Qpower_plus by discriminate.
    replace (a - b + b)%Z with a by lia. reflexivity. }
  pose proof (pow2_pos (a - b)) as Hc.
  assert (Z.pos n # d == inject_Z (Z.pos n) / inject_Z (Z.pos d)) as Hq'.
  { rewrite (Qmake_Qdiv (Z.pos n) d). reflexivity. }
  assert (0 < inject_Z (Z.pos d)) as Hdpos.
  { change 0 with (inject_Z 0). rewrite <- Zlt_Qlt. lia. }
  assert (0 < inject_Z (Z.pos n)) as Hnpos.
  { change 0 with (inject_Z 0). rewrite <- Zlt_Qlt. lia. }
  set (x := inject_Z (Z.pos n)) in *. set (y := inject_Z (Z.pos d)) in *.
  assert (x / y < 2 * 2 ^ (a - b)) as Hup.
  { apply Qlt_shift_div_r; [exact Hdpos|].
    apply Qlt_le_trans with (2 * 2 ^ a); [exact Hn2|].
    rewrite <- Hab. nra. }
  assert (2 ^ (a - b) < 2 * (x / y)) as Hdown.
  { assert (2 ^ (a - b) * y < 2 * x) as H by nra.
    assert (2 * (x / y) == (2 * x) / y) as -> by (field; lra).
    apply Qlt_shift_div_l; [exact Hdpos | exact H]. }
  destruct (Qle_bool (2 ^ (a - b)) (Z.pos n # d)) eqn:Htest.
  - apply Qle_bool_iff in Htest. rewrite Hq' in *.
    split; [exact Htest | exact Hup].
  - assert (Z.pos n # d < 2 ^ (a - b)) as Hlt.
    { apply Qnot_le_lt. intros Hle. apply Qle_bool_iff in Hle. congruence. }
    rewrite Hq' in *. rewrite <- (pow2_pred (a - b)).
    pose proof (pow2_pred (a - b)) as Hp. split; [lra | exact Hlt].
Qed.

(** One rounding moves a positive number by at most the relative error
    [2 ^ -53]. *)
Lemma roundDouble_error (q : Q) :
  0 < q ->
  q * (1 - unitRoundoff) <= roundDouble q
  /\ roundDouble q <= q * (1 + unitRoundoff).
Proof.
  intros Hq. unfold roundDouble.
  destruct (Qeq_bool q 0) eqn:Hz.
  { apply Qeq_bool_iff in Hz. lra. }
  rewrite Qred_correct.
  assert (Qabs q = q) as ->.
  { destruct q as [[|n|n] d]; try reflexivity.
    unfold Qlt in Hq. simpl in Hq. lia. }
  destruct (binade_spec q Hq) as [Hlo _].
  set (e := binade q) in *.
  pose proof (pow2_pos (e - 52)) as Hu.
  assert (2 ^ e == 2 ^ (e - 52) * 2 ^ 52) as He.
  { rewrite <- Qpower_plus by discriminate.
    replace (e - 52 + 52)%Z with e by lia. reflexivity. }
  set (u := 2 ^ (e - 52)) in *.
  destruct (roundHalfEven_near (q / u)) as [Hm1 Hm2].
  set (m := inject_Z (roundHalfEven (q / u))) in *.
  assert (q / u * u == q) as Hqu by (field; lra).
  assert (u * (2 ^ 52) <= q) as Hlo' by (rewrite <- He; exact Hlo).
  change (2 ^ 52) with (4503599627370496 # 1) in Hlo'.
  unfold unitRoundoff. split; nra.
Qed.

Lemma roundDouble_pos (q : Q) : 0 < q -> 0 < roundDouble q.
Proof.
  intros Hq. destruct (roundDouble_error q Hq) as [Hlo _].
  unfold unitRoundoff in Hlo. nra.
Qed.

Lemma roundDouble_nonneg (q : Q) : 0 <= q -> 0 <= roundDouble q.
Proof.
  intros Hq. destruct (Qlt_le_dec 0 q) as [Hpos|Hle].
  - apply Qlt_le_weak, roundDouble_pos, Hpos.
  - unfold roundDouble. assert (Qeq_bool q 0 = true) as ->; [|lra].
    apply Qeq_bool_iff. lra.
Qed.

(** The step is [0.01 * clockFrequency] up to three roundings. *)
Lemma signalStep_close (f : Q) :
  1 <= f ->
  (1 # 100) * f * (1 - 3 * unitRoundoff) <= signalStep f
  /\ signalStep f <= (1 # 100) * f * (1 + 4 * unitRoundoff).
Proof.
  intros Hf. unfold signalStep, signalSpeed, fdiv.
  assert (0 < 1 / f) as Hg by (apply Qlt_shift_div_l; lra).
  assert (1 / f * f == 1) as Hgf by (field; lra).
  destruct (roundDouble_error (1 / f) Hg) as [Hs1 Hs2].
  set (g := 1 / f) in *. set (s1 := roundDouble g) in *.
  destruct (roundDouble_error (1 # 100)) as [Hc1 Hc2]; [reflexivity|].
  set (c := roundDouble (1 # 100)) in *.
  assert (0 < s1) as Hs1pos by (unfold unitRoundoff in *; nra).
  assert (0 < c) as Hcpos by (unfold unitRoundoff in *; nra).
  assert (0 < c / s1) as Hr by (apply Qlt_shift_div_l; lra).
  assert (c / s1 * s1 == c) as Hrs by (field; lra).
  destruct (roundDouble_error (c / s1) Hr) as [Ht1 Ht2].
  set (r := c / s1) in *. set (t := roundDouble r) in *.
  set (u := unitRoundoff) in *.
  assert (0 < u) as Hu by reflexivity.
  assert (u < 1 # 5) as Hu5 by reflexivity.
  assert ((1 # 100) * f * (1 - u) <= r * (1 + u)) as Hrlo.
  { assert ((1 # 100) * (1 - u) <= r * (g * (1 + u))) as H by nra.
    apply (Qmult_le_compat_r _ _ f) in H; [|lra].
    assert (r * (g * (1 + u)) * f == r * (1 + u) * (g * f)) as E by ring.
    rewrite E, Hgf in H. lra. }
  assert (r * (1 - u) <= (1 # 100) * f * (1 + u)) as Hrhi.
  { assert (r * (g * (1 - u)) <= (1 # 100) * (1 + u)) as H by nra.
    apply (Qmult_le_compat_r _ _ f) in H; [|lra].
    assert (r * (g * (1 - u)) * f == r * (1 - u) * (g * f)) as E by ring.
    rewrite E, Hgf in H. lra. }
  clearbody u. split; nra.
Qed.

Lemma signalStep_min (f : Q) : 1 <= f -> (1 # 128) <= signalStep f.
Proof.
  intros Hf. destruct (signalStep_close f Hf) as [Hlo _].
  unfold unitRoundoff in Hlo. lra.
Qed.

(** An addition to a progress below 1 gains at least half of a step of
    at least 1/128. *)
Lemma fadd_grows (step p : Q) :
  (1 # 128) <= step -> 0 <= p -> p < 1 -> p + (1 # 256) <= fadd p step.
Proof.
  intros Hstep Hp0 Hp1. unfold fadd.
  destruct (roundDouble_error (p + step)) as [Hlo _]; [lra|].
  unfold unitRoundoff in Hlo. lra.
Qed.

End DoublePrecision.

(** The literal 0.1, the step at the default 20 Hz (0.19999999999999998,
    one unit in the last place below 0.2), at 10 Hz and at 25 Hz. *)
Lemma roundDouble_examples :
  roundDouble (1 # 10) = (3602879701896397 # 36028797018963968)%Q
  /\ signalStep 20 = (7205759403792793 # 36028797018963968)%Q
  /\ signalStep 10 = (7205759403792793 # 72057594037927936)%Q
  /\ signalStep 25 = (1 # 4)%Q
  /\ signalStep 1 = roundDouble (1 # 100)
  /\ progressAfter 5 (signalStep 20) 0 = (9007199254740991 # 9007199254740992)%Q
  /\ progressAfter 4 (signalStep 25) 0 = 1%Q.
Proof. vm_compute. repeat split; reflexivity. Qed.

(** ** Signal advancement *)

Section Advance.

Variable step : Q.

Lemma fold_advanceSignal {S : Type} (arrive : S -> Signal -> S)
    (prev : list Signal) (st : S) (acc : list Signal) :
  fold_left (advanceSignal arrive step) prev (st, acc)
  = (fold_left arrive (List.filter (crosses step) prev) st, acc ++ map (bump step) prev).
Proof.
  revert st acc. induction prev as [|s prev IH]; intros st acc; simpl.
  - by rewrite app_nil_r.
  - unfold advanceSignal at 2. simpl. rewrite IH. fold ((crosses step) s).
    rewrite <- app_assoc. simpl. by destruct ((crosses step) s).
Qed.

Lemma fold_snoc (l acc : list Signal) :
  fold_left (fun log s => log ++ [s]) l acc = acc ++ l.
Proof.
  revert acc. induction l as [|s l IH]; intros acc; simpl.
  - by rewrite app_nil_r.
  - rewrite IH, <- app_assoc. done.
Qed.

Lemma filter_map_bump (l : list Signal) :
  List.filter (fun s => Qltb (position s) 1%Q) (map (bump step) l)
  = map (bump step) (List.filter (fun s => Qltb (fadd (position s) step) 1%Q) l).
Proof.
  induction l as [|s l IH]; simpl; [done|].
  destruct (Qltb (fadd (position s) step) 1%Q); simpl; by rewrite IH.
Qed.

(** The handler is called on the crossing signals, in order, whatever
    the handler is. *)
Lemma advanceSignals_calls {S : Type} (arrive : S -> Signal -> S) (st : S)
    (prev : list Signal) :
  advanceSignals arrive step st prev
  = (fold_left arrive (dispatched step prev) st, remaining step prev).
Proof.
  unfold dispatched, remaining, advanceSignals.
  rewrite !fold_advanceSignal. simpl. by rewrite fold_snoc.
Qed.

Lemma dispatched_filter (prev : list Signal) :
  dispatched step prev = List.filter (crosses step) prev.
Proof.
  unfold dispatched, advanceSignals. rewrite fold_advanceSignal. simpl.
  by rewrite fold_snoc.
Qed.

Lemma remaining_filter (prev : list Signal) :
  remaining step prev
  = map (bump step)
      (List.filter (fun s => Qltb (fadd (position s) step) 1%Q) prev).
Proof.
  unfold remaining, advanceSignals. rewrite fold_advanceSignal. simpl.
  apply filter_map_bump.
Qed.

Lemma arrivalsOver_nil (n : nat) : arrivalsOver n step [] = [].
Proof. induction n as [|n IH]; simpl; [done|]. exact IH. Qed.

Lemma remainingAfter_nil (n : nat) : remainingAfter n step [] = [].
Proof. induction n as [|n IH]; simpl; [done|]. exact IH. Qed.

(** Signals do not interact: a tick treats the signals of a set one by
    one, so the calls made for a set are those made for its parts. *)
Lemma dispatched_app (l1 l2 : list Signal) :
  dispatched step (l1 ++ l2) = dispatched step l1 ++ dispatched step l2.
Proof. rewrite !dispatched_filter. apply List.filter_app. Qed.

Lemma remaining_app (l1 l2 : list Signal) :
  remaining step (l1 ++ l2) = remaining step l1 ++ remaining step l2.
Proof. rewrite !remaining_filter, List.filter_app. apply map_app. Qed.

Lemma remainingAfter_app (n : nat) (l1 l2 : list Signal) :
  remainingAfter n step (l1 ++ l2)
  = remainingAfter n step l1 ++ remainingAfter n step l2.
Proof.
  revert l1 l2. induction n as [|n IH]; intros l1 l2; simpl; [done|].
  by rewrite remaining_app, IH.
Qed.

Lemma arrivalsOver_app (n : nat) (l1 l2 : list Signal) :
  arrivalsOver n step (l1 ++ l2)
  ≡ₚ arrivalsOver n step l1 ++ arrivalsOver n step l2.
Proof.
  revert l1 l2. induction n as [|n IH]; intros l1 l2; simpl; [done|].
  rewrite dispatched_app, remaining_app, IH.
  rewrite <- !app_assoc. apply Permutation_app_head.
  rewrite !app_assoc. apply Permutation_app_tail. apply Permutation_app_comm.
Qed.

Hypothesis step_min : (1 # 128 <= step)%Q.

(** Some tick is the first to reach the end of the wire. *)
Lemma first_crossing (p : Q) :
  (0 <= p)%Q -> (p < 1)%Q ->
  exists k : nat,
    (forall j : nat, (j <= k)%nat -> (progressAfter j step p < 1)%Q)
    /\ (1 <= progressAfter (S k) step p)%Q.
Proof.
  intros Hp0 Hp.
  destruct (Qarchimedean ((1 - p) / (1 # 256))) as [N HN].
  assert (1 <= p + inject_Z (Z.pos N) * (1 # 256))%Q as Hreach.
  { assert (1 - p == (1 - p) / (1 # 256) * (1 # 256))%Q as Hq by field.
    apply (Qmult_lt_compat_r _ _ (1 # 256)) in HN; [|reflexivity].
    change (Qmake (Z.pos N) 1) with (inject_Z (Z.pos N)) in HN.
    rewrite <- Hq in HN. lra. }
  clear HN. rewrite <- (positive_nat_Z N) in Hreach.
  revert p Hp0 Hp Hreach. generalize (Pos.to_nat N). clear N. intros m.
  induction m as [|m IH]; intros p Hp0 Hp Hreach.
  - change (inject_Z (Z.of_nat 0)) with 0%Q in Hreach. lra.
  - pose proof (fadd_grows step p step_min Hp0 Hp) as Hgain.
    destruct (Qlt_le_dec (fadd p step) 1) as [Hlt|Hge].
    + destruct (IH (fadd p step)) as (k & Hk1 & Hk2); [lra | exact Hlt | |].
      { rewrite Nat2Z.inj_succ in Hreach. unfold Z.succ in Hreach.
        rewrite inject_Z_plus in Hreach.
        change (inject_Z 1) with 1%Q in Hreach. lra. }
      exists (S k). split; [|exact Hk2].
      intros [|j] Hj; [exact Hp | apply Hk1; lia].
    + exists 0%nat. split; [|exact Hge].
      intros j Hj. replace j with 0%nat by lia. exact Hp.
Qed.

End Advance.

Section Life.

Variable step : Q.

(** One tick on a single signal that is still on its wire. *)
Lemma tick_single (s : Signal) :
  (position s < 1)%Q ->
  (dispatched step [s], remaining step [s])
  = if Qle_bool 1%Q (fadd (position s) step) then ([s], [])
    else ([], [(bump step) s]).
Proof.
  intros Hs. rewrite dispatched_filter, remaining_filter. simpl.
  unfold crosses. apply Qltb_lt in Hs. rewrite Hs. simpl.
  unfold Qltb. by destruct (Qle_bool 1%Q (fadd (position s) step)).
Qed.

(** A signal whose progress stays below 1 for [k] ticks and reaches 1 in
    the next one is handed to the handler in that tick and in no
    other. *)
Lemma signal_life (k : nat) (s : Signal) :
  (forall j : nat, (j <= k)%nat ->
                   (progressAfter j step (position s) < 1)%Q) ->
  (1 <= progressAfter (S k) step (position s))%Q ->
  forall n : nat,
    arrivalsOver n step [s]
    = (if (n <=? k)%nat then []
       else [withPosition s (progressAfter k step (position s))])
    /\ remainingAfter n step [s]
       = (if (n <=? k)%nat
          then [withPosition s (progressAfter n step (position s))]
          else []).
Proof.
  revert s. induction k as [|k IH]; intros s Hlt Hge n.
  - pose proof (Hlt 0%nat (Nat.le_refl _)) as Hs. simpl in Hs, Hge.
    destruct n as [|n].
    + simpl. by destruct s.
    + cbn [arrivalsOver remainingAfter].
      pose proof (tick_single s Hs) as Htick.
      apply Qle_bool_iff in Hge. rewrite Hge in Htick.
      injection Htick as -> ->.
      rewrite arrivalsOver_nil, remainingAfter_nil. simpl. by destruct s.
  - pose proof (Hlt 0%nat (Nat.le_0_l _)) as Hs.
    pose proof (Hlt 1%nat ltac:(lia)) as Hnext. simpl in Hs, Hnext.
    destruct n as [|n].
    + simpl. by destruct s.
    + cbn [arrivalsOver remainingAfter].
      pose proof (tick_single s Hs) as Htick.
      assert (Qle_bool 1%Q (fadd (position s) step) = false) as Hno.
      { apply Bool.not_true_iff_false. rewrite Qle_bool_iff. lra. }
      rewrite Hno in Htick. injection Htick as -> ->.
      destruct (IH ((bump step) s)) with (n := n) as [Harr Hrem].
      * intros j Hj. apply (Hlt (S j)). lia.
      * exact Hge.
      * rewrite Harr, Hrem. simpl. done.
Qed.

End Life.

(** C5 (amended): for a clock frequency in [1, 100] every tick adds the
    same step to the progress of every signal: the quotient
    0.01 / (1 / f) in double precision, which is 0.01 * f up to a
    relative error of 2^-51.  In one tick the arrival handler is called
    exactly on the signals whose progress reaches 1, once each, in order,
    and exactly those are removed; the others stay, still below 1.
    Signals do not interact: next to any other signals, the calls made
    over n ticks are those made for the signal alone plus those made for
    the others.  Over its life a signal is dispatched once: there is a
    first tick (number k + 1) at which its progress reaches 1; its
    progress is below 1 in all ticks before, no dispatch happens in them,
    the dispatch happens in that tick, the signal is gone after it and is
    never dispatched again. *)
Theorem arrival_dispatched_once (clockFrequency : Q) (signals : list Signal)
    (signal : Signal) :
  (1 <= clockFrequency)%Q -> (clockFrequency <= 100)%Q ->
  Forall (fun s => (position s < 1)%Q) signals ->
  (0 <= position signal)%Q -> (position signal < 1)%Q ->
  let step := signalStep clockFrequency in
  ((1 # 100) * clockFrequency * (1 - 4 * unitRoundoff) <= step
   /\ step <= (1 # 100) * clockFrequency * (1 + 4 * unitRoundoff))%Q
  /\ (forall (S : Type) (arrive : S -> Signal -> S) (st : S),
        advanceSignals arrive step st signals
        = (fold_left arrive (dispatched step signals) st,
           remaining step signals))
  /\ dispatched step signals
     = List.filter (fun s => Qle_bool 1%Q (fadd (position s) step)) signals
  /\ remaining step signals
     = map (fun s => withPosition s (fadd (position s) step))
         (List.filter (fun s => Qltb (fadd (position s) step) 1%Q) signals)
  /\ Forall (fun s => (position s < 1)%Q) (remaining step signals)
  /\ (forall (n : nat) (before after : list Signal),
        arrivalsOver n step (before ++ [signal] ++ after)
        ≡ₚ arrivalsOver n step [signal]
           ++ arrivalsOver n step (before ++ after)
        /\ remainingAfter n step (before ++ [signal] ++ after)
           = remainingAfter n step before
             ++ remainingAfter n step [signal]
             ++ remainingAfter n step after)
  /\ exists k : nat,
       (forall j : nat,
           (j <= k)%nat -> (progressAfter j step (position signal) < 1)%Q)
       /\ (1 <= progressAfter (S k) step (position signal))%Q
       /\ forall n : nat,
            arrivalsOver n step [signal]
            = (if (n <=? k)%nat then []
               else [withPosition signal
                       (progressAfter k step (position signal))])
            /\ remainingAfter n step [signal]
               = (if (n <=? k)%nat
                  then [withPosition signal
                          (progressAfter n step (position signal))]
                  else []).
Proof.
  intros Hf _ Hinv Hsig0 Hsig step.
  pose proof (signalStep_min clockFrequency Hf) as Hmin. fold step in Hmin.
  split.
  { destruct (signalStep_close clockFrequency Hf) as [Hlo Hhi].
    fold step in Hlo, Hhi. unfold unitRoundoff in *. split; nra. }
  split; [intros S arrive st; apply advanceSignals_calls|].
  split; [|split; [|split; [|split]]].
  - rewrite dispatched_filter. apply filter_ext_in.
    intros s Hs. rewrite Forall_forall in Hinv.
    apply list_elem_of_In, Hinv, Qltb_lt in Hs. unfold crosses.
    by rewrite Hs.
  - apply remaining_filter.
  - rewrite remaining_filter. apply Forall_forall. intros s Hs.
    apply list_elem_of_In, in_map_iff in Hs as (s0 & <- & Hs0).
    apply filter_In in Hs0 as [_ Hlt]. simpl. by apply Qltb_lt.
  - intros n before after. split.
    + rewrite !arrivalsOver_app. rewrite !app_assoc.
      apply Permutation_app_tail, Permutation_app_comm.
    + by rewrite !remainingAfter_app.
  - destruct (first_crossing step Hmin (position signal) Hsig0 Hsig)
      as (k & Hk1 & Hk2).
    exists k. split; [exact Hk1|]. split; [exact Hk2|].
    apply signal_life; assumption.
Qed.

(** C5 at 25 Hz, where the step is exactly 0.25: a signal emitted at
    progress 0 is dispatched by the fourth tick and by no other. *)
Lemma arrival_dispatched_once_witness :
  let signal := mkSignal "clk" 0 [] 0 0 "clock" "ff" in
  signalStep 25 = (1 # 4)%Q
  /\ dispatched (signalStep 25) [withPosition signal (3 # 4)]
     = [withPosition signal (3 # 4)]
  /\ remaining (signalStep 25) [withPosition signal (3 # 4)] = []
  /\ arrivalsOver 3 (signalStep 25) [signal] = []
  /\ arrivalsOver 4 (signalStep 25) [signal] = [withPosition signal (3 # 4)]
  /\ remainingAfter 4 (signalStep 25) [signal] = [].
Proof.
  intros signal.
  destruct (arrival_dispatched_once 25 [withPosition signal (3 # 4)] signal)
    as (_ & _ & Hd & Hr & _ & _ & _).
  - qcmp.
  - qcmp.
  - repeat constructor.
  - qcmp.
  - qcmp.
  - rewrite Hd, Hr. vm_compute. repeat split; reflexivity.
Defined.

(** C5 as stated fails: at the default 20 Hz the step is not
    0.01 * 20 = 0.2 but the double just below it, and a signal emitted at
    progress 0 is not dispatched in the fifth tick, where five steps of
    0.2 reach 1.0: after five ticks it is still in flight, with progress
    1 - 2^-53, and it is dispatched in the sixth. *)
Lemma step_is_not_a_hundredth_of_the_frequency :
  let signal := mkSignal "clk" 0 [] 0 0 "clock" "ff" in
  ~ (signalStep 20 == (1 # 100) * 20)%Q
  /\ (signalStep 20 < (1 # 100) * 20)%Q
  /\ arrivalsOver 5 (signalStep 20) [signal] = []
  /\ remainingAfter 5 (signalStep 20) [signal]
     = [withPosition signal (9007199254740991 # 9007199254740992)]
  /\ arrivalsOver 6 (signalStep 20) [signal]
     = [withPosition signal (9007199254740991 # 9007199254740992)]
  /\ (1 <= 0 + 5 * ((1 # 100) * 20))%Q.
Proof.
  vm_compute. repeat split; try reflexivity; discriminate.
Qed.

(** ** Reset *)

(** C3 (amended): reset, in any run state, empties the active outputs and
    the active inputs and forces every flip-flop to hasD = false,
    hasEn = (type == DFF_NE), outputValue = false, lastClockTime = 0; the
    run flag is untouched.  The signals in flight are kept while the
    simulation runs (and cleared while it is stopped). *)
Theorem reset_clears (s : SimState) :
  let s' := step s Reset in
  activeOutputs s' = ∅
  /\ activeInputs s' = []
  /\ flipFlopStates s'
     = map (fun ff =>
              mkFlipFlop (ff_id ff) (ff_name ff) false
                (String.eqb (ff_type ff) "DFF_NE") false 0%Q (ff_type ff))
         (flipFlopStates s)
  /\ runningSimulation s' = runningSimulation s
  /\ activeSignals s'
     = if runningSimulation s then activeSignals s else [].
Proof.
  destruct s as [els conns running f signals ffs ins outs ffins tos dr wd md ce].
  simpl. unfold resetTriggered, simulationEffect. simpl.
  destruct running; simpl; repeat split; reflexivity.
Qed.

(** C3 (as stated) fails: with two signals in flight and the simulation
    running, reset leaves both signals in the active set. *)
Lemma reset_keeps_signals_in_flight :
  let s := run Demo.mounted Demo.inFlight in
  runningSimulation s = true
  /\ activeSignals (step s Reset) <> []
  /\ map connectionName (activeSignals (step s Reset)) = ["clk"; "d"].
Proof.
  vm_compute. split; [reflexivity|]. split; [discriminate | reflexivity].
Qed.

(** ** Emission paths and the wire occupancy *)

Lemma signalsOn_app (w : string) (l1 l2 : list Signal) :
  signalsOn w (l1 ++ l2) = (signalsOn w l1 + signalsOn w l2)%nat.
Proof. unfold signalsOn. by rewrite List.filter_app, length_app. Qed.

Lemma signalsOn_zero (w : string) (l : list Signal) :
  existsb (fun s => String.eqb (connectionName s) w) l = false ->
  signalsOn w l = 0%nat.
Proof.
  unfold signalsOn. induction l as [|s l IH]; simpl; [done|].
  destruct (String.eqb (connectionName s) w); simpl; [done | exact IH].
Qed.

(** One iteration of the emission tick keeps at most one signal per wire. *)
Lemma emitOn_onePerWire (els : list IElement) (now : Q)
    (signals : list Signal) (conn : IConnection) :
  onePerWire signals -> onePerWire (emitOn els now signals conn).
Proof.
  intros Hone. unfold emitOn.
  destruct (existsb _ signals) eqn:Hocc; [exact Hone|].
  destruct (findSource els (conn_name conn)) as [source|]; [|exact Hone].
  destruct (findDest els (conn_name conn)) as [dest|]; [|exact Hone].
  intros w. rewrite signalsOn_app. unfold signalsOn at 2.
  cbn [List.filter newSignal connectionName].
  destruct (String.eqb_spec (conn_name conn) w) as [Heq|Hne]; simpl.
  - rewrite Heq in Hocc. rewrite (signalsOn_zero _ _ Hocc). lia.
  - specialize (Hone w). lia.
Qed.

(** The periodic emission tick checks the wire before it emits. *)
Lemma clockIntervalTick_onePerWire (els : list IElement)
    (conns : list IConnection) (active : list Z) (clockElement : IElement)
    (now : Q) (prevSignals : list Signal) :
  onePerWire prevSignals ->
  onePerWire (clockIntervalTick els conns active clockElement now prevSignals).
Proof.
  unfold clockIntervalTick.
  generalize (clockConnections els conns clockElement
              ++ inputConnections els conns active).
  intros sources. revert prevSignals.
  induction sources as [|conn sources IH]; intros prev Hone; simpl; [done|].
  apply IH. by apply emitOn_onePerWire.
Qed.

(** The deferred emission does not: whenever it resolves its wire, it
    appends a signal, whatever is already on the wire. *)
Lemma deferredEmission_appends (els : list IElement)
    (conns : list IConnection) (ffId : Z) (now : Q) (signals : list Signal) :
  deferredEmission els conns ffId now signals = signals
  \/ exists signal,
       deferredEmission els conns ffId now [] = [signal]
       /\ deferredEmission els conns ffId now signals = signals ++ [signal].
Proof.
  unfold deferredEmission.
  destruct (List.find _ conns) as [outputConn|]; [|by left].
  destruct (findById els ffId) as [outputElement|]; [|by left].
  destruct (findDest els (conn_name outputConn)) as [targetElement|];
    [|by left].
  right. eexists. split; reflexivity.
Qed.

(** C1 (the code misses the claim): in the demo netlist the deferred
    emission scheduled by the latch at 230 ms fires at 330 ms while the
    signal emitted at 250 ms is still on wire "q"; before it there is one
    signal per wire, after it two signals share "q". *)
Theorem deferred_emission_on_occupied_wire :
  let before := run Demo.mounted Demo.untilSecondTimeout in
  let after := step before (TimeoutFires 0 330%Q) in
  runningSimulation before = true
  /\ map to_due (pendingTimeouts before) = [330%Q]
  /\ map connectionName (activeSignals before) = ["clk"; "d"; "q"]
  /\ Forall (fun signal => Qltb (position signal) 1 = true)
       (activeSignals before)
  /\ map connectionName (activeSignals after) = ["clk"; "d"; "q"; "q"]
  /\ signalsOn "q" (activeSignals after) = 2%nat.
Proof.
  vm_compute. repeat split; try reflexivity. repeat constructor.
Qed.

(** Stopping empties the set of signals in flight at once. *)
Lemma stop_clears_signals (s : SimState) :
  runningSimulation s = true ->
  let s' := step s (Playing false) in
  runningSimulation s' = false /\ activeSignals s' = [].
Proof.
  intros Hrun. simpl. unfold setPlaying. rewrite Hrun. simpl.
  unfold simulationEffect, outputsEffect. simpl. done.
Qed.

(** C2 (the code misses the claim): the simulation is stopped at 155 ms,
    which empties the active signals; the deferred emission scheduled by
    the latch at 150 ms still fires at 250 ms and puts a signal on "q"
    while the simulation is stopped; the signal is still there after a
    restart. *)
Theorem deferred_emission_after_stop :
  let stopped := run Demo.mounted Demo.stopBeforeTimeout in
  let after := step stopped (TimeoutFires 0 250%Q) in
  let restarted := step after (Playing true) in
  (runningSimulation stopped = false /\ activeSignals stopped = []
   /\ map to_due (pendingTimeouts stopped) = [250%Q])
  /\ (runningSimulation after = false
      /\ map connectionName (activeSignals after) = ["q"])
  /\ map connectionName (activeSignals restarted) = ["q"].
Proof. vm_compute. repeat split; reflexivity. Qed.

(** ** Invariants of the transition system *)

(** The arrival handler writes outputs, flip-flop states and timeouts
    only. *)
Lemma handleSignalArrival_frame (now : Q) (s : SimState) (signal : Signal) :
  activeSignals (handleSignalArrival now s signal) = activeSignals s
  /\ clockFrequency (handleSignalArrival now s signal) = clockFrequency s
  /\ runningSimulation (handleSignalArrival now s signal) = runningSimulation s.
Proof.
  unfold handleSignalArrival, flipFlopArrival.
  repeat match goal with
         | |- context [match ?x with _ => _ end] => destruct x; simpl
         end; auto.
Qed.

Lemma arrivals_frame (now : Q) (signals : list Signal) (s : SimState) :
  activeSignals (fold_left (handleSignalArrival now) signals s)
  = activeSignals s
  /\ clockFrequency (fold_left (handleSignalArrival now) signals s)
     = clockFrequency s
  /\ runningSimulation (fold_left (handleSignalArrival now) signals s)
     = runningSimulation s.
Proof.
  revert s. induction signals as [|signal signals IH]; intros s; simpl;
    [done|].
  destruct (IH (handleSignalArrival now s signal)) as (-> & -> & ->).
  apply handleSignalArrival_frame.
Qed.

(** The advancement tick of the component: the handler runs on the
    signals [dispatched] lists, the signals [remaining] lists stay. *)
Lemma signalIntervalTick_calls (now : Q) (s : SimState) :
  let step := signalStep (clockFrequency s) in
  signalIntervalTick now s
  = setActiveSignals (fun _ => remaining step (activeSignals s))
      (fold_left (handleSignalArrival now)
         (dispatched step (activeSignals s)) s).
Proof.
  intros step. unfold signalIntervalTick. fold step.
  by rewrite advanceSignals_calls.
Qed.

Lemma signalStep_pos (f : Q) : (1 <= f)%Q -> (0 < signalStep f)%Q.
Proof. intros Hf. pose proof (signalStep_min f Hf). lra. Qed.

Lemma emitOn_positions (P : Signal -> Prop) (els : list IElement) (now : Q)
    (signals : list Signal) (conn : IConnection) :
  (forall source dest, P (newSignal source dest conn now)) ->
  Forall P signals -> Forall P (emitOn els now signals conn).
Proof.
  intros Hnew Hall. unfold emitOn.
  destruct (existsb _ signals); [exact Hall|].
  destruct (findSource els (conn_name conn)); [|exact Hall].
  destruct (findDest els (conn_name conn)); [|exact Hall].
  apply Forall_app. split; [exact Hall|]. by repeat constructor.
Qed.

(** Every transition keeps the state well formed. *)
Lemma step_wellFormed (s : SimState) (e : Event) :
  wellFormed s -> wellFormed (step s e).
Proof.
  intros (Hlo & Hhi & Hpos).
  assert (forall source dest conn now,
            (0 <= position (newSignal source dest conn now))%Q
            /\ (position (newSignal source dest conn now) < 1)%Q) as Hnew.
  { intros. simpl. split; lra. }
  destruct e as [playing| |f|cx cy| |now|now|now|now|k now]; simpl.
  - unfold setPlaying. destruct (Bool.eqb playing (runningSimulation s));
      [done|].
    destruct playing; unfold wellFormed; simpl; auto.
  - unfold resetTriggered, simulationEffect. simpl.
    destruct (runningSimulation s); unfold wellFormed; simpl; auto.
  - unfold handleClockFrequencyChange.
    destruct (Qeq_bool _ (clockFrequency s)); [done|].
    assert (1 <= Qmax 1 (Qmin 100 f))%Q as H1 by apply Q.le_max_l.
    assert (Qmax 1 (Qmin 100 f) <= 100)%Q as H2.
    { apply Q.max_lub; [lra | apply Q.le_min_l]. }
    unfold simulationEffect. simpl.
    destruct (runningSimulation s); unfold wellFormed; simpl; auto.
  - unfold handleMouseDown.
    destruct (List.find _ (elements s)); unfold wellFormed; simpl; auto.
  - unfold handleMouseUp, simulationEffect.
    repeat match goal with
           | |- context [match ?x with _ => _ end] => destruct x; simpl
           end; unfold wellFormed; simpl; auto.
  - destruct (runningSimulation s); [|done].
    destruct (findClock (elements s)) as [clockElement|]; [|done].
    unfold wellFormed. simpl. split; [exact Hlo|]. split; [exact Hhi|].
    unfold clockIntervalTick. apply fold_left_preserves; [|exact Hpos].
    intros signals conn. apply emitOn_positions. intros. apply Hnew.
  - destruct (runningSimulation s); [|done].
    destruct (findClock (elements s)); [|done].
    rewrite signalIntervalTick_calls.
    destruct (arrivals_frame now
                (dispatched (signalStep (clockFrequency s)) (activeSignals s))
                s) as (_ & Hf & _).
    unfold wellFormed. simpl. rewrite Hf.
    split; [exact Hlo|]. split; [exact Hhi|].
    rewrite remaining_filter. apply Forall_forall. intros signal Hin.
    apply list_elem_of_In, in_map_iff in Hin as (s0 & <- & Hs0).
    apply filter_In in Hs0 as [Hs0 Hlt]. apply Qltb_lt in Hlt.
    rewrite Forall_forall in Hpos.
    apply list_elem_of_In, Hpos in Hs0 as [Hge _].
    pose proof (signalStep_pos _ Hlo). simpl.
    split; [apply roundDouble_nonneg; lra | exact Hlt].
  - destruct (runningSimulation s); done.
  - destruct (runningSimulation s); done.
  - destruct (pendingTimeouts s !! k) as [t|]; [|done].
    destruct (Qle_bool (to_due t) now); [|done].
    unfold wellFormed. simpl. split; [exact Hlo|]. split; [exact Hhi|].
    destruct (deferredEmission_appends (elements s) (connections s)
                (to_ffId t) now (activeSignals s))
      as [->|(signal & Hone & ->)]; [exact Hpos|].
    apply Forall_app. split; [exact Hpos|]. repeat constructor.
    + unfold deferredEmission in Hone.
      repeat match type of Hone with
             | context [match ?x with _ => _ end] => destruct x
             end; try discriminate.
      injection Hone as <-. simpl. lra.
    + unfold deferredEmission in Hone.
      repeat match type of Hone with
             | context [match ?x with _ => _ end] => destruct x
             end; try discriminate.
      injection Hone as <-. simpl. lra.
Qed.

(** Whatever happens after mount, the clock frequency stays in [1, 100]
    and the signals in flight stay in [0, 1): the hypotheses of the
    advancement statement hold in every reachable state. *)
Lemma reachable_wellFormed (els : list IElement) (conns : list IConnection)
    (trace : list Event) :
  wellFormed (run (initialState els conns) trace).
Proof.
  unfold run. apply fold_left_preserves; [apply step_wellFormed|].
  unfold wellFormed. simpl. repeat split; try lra. constructor.
Qed.

Lemma onePerWire_nil : onePerWire [].
Proof. intros w. unfold signalsOn. simpl. lia. Qed.

Lemma signalsOn_remaining (w : string) (step : Q) (signals : list Signal) :
  (signalsOn w (remaining step signals) <= signalsOn w signals)%nat.
Proof.
  rewrite remaining_filter. unfold signalsOn.
  induction signals as [|s signals IH]; simpl; [lia|].
  destruct (Qltb (fadd (position s) step) 1%Q); simpl;
    destruct (String.eqb (connectionName s) w); simpl; lia.
Qed.

(** Every transition other than a firing timeout keeps at most one
    signal per wire: the violation of C1 can only come from the deferred
    emission. *)
Lemma step_onePerWire (s : SimState) (e : Event) :
  isTimeout e = false ->
  onePerWire (activeSignals s) -> onePerWire (activeSignals (step s e)).
Proof.
  intros Hev Hone.
  destruct e as [playing| |f|cx cy| |now|now|now|now|k now]; simpl;
    try discriminate.
  - unfold setPlaying. destruct (Bool.eqb playing (runningSimulation s));
      [done|].
    destruct playing; simpl; [exact Hone | apply onePerWire_nil].
  - unfold resetTriggered, simulationEffect. simpl.
    destruct (runningSimulation s); simpl; [exact Hone | apply onePerWire_nil].
  - unfold handleClockFrequencyChange.
    destruct (Qeq_bool _ (clockFrequency s)); [done|].
    unfold simulationEffect. simpl.
    destruct (runningSimulation s); simpl; [exact Hone | apply onePerWire_nil].
  - unfold handleMouseDown. by destruct (List.find _ (elements s)).
  - unfold handleMouseUp, simulationEffect.
    repeat match goal with
           | |- context [match ?x with _ => _ end] => destruct x; simpl
           end; auto using onePerWire_nil.
  - destruct (runningSimulation s); [|done].
    destruct (findClock (elements s)) as [clockElement|]; [|done].
    simpl. by apply clockIntervalTick_onePerWire.
  - destruct (runningSimulation s); [|done].
    destruct (findClock (elements s)); [|done].
    rewrite signalIntervalTick_calls. simpl. intros w.
    pose proof (signalsOn_remaining w (signalStep (clockFrequency s))
                  (activeSignals s)).
    specialize (Hone w). lia.
  - destruct (runningSimulation s); done.
  - destruct (runningSimulation s); done.
Qed.

(** ** Layout planner: layers *)

Lemma findById_Some (els : list IElement) (i : Z) (el : IElement) :
  findById els i = Some el -> el ∈ els /\ el_id el = i.
Proof.
  unfold findById. intros H. apply find_some in H as [Hin Heq].
  split; [by apply list_elem_of_In | by apply Z.eqb_eq].
Qed.

Section Layers.

Variable els : list IElement.
Variable g : gmap Z (list Z).

Lemma visitDest_layerInv (visited0 : gset Z) (acc : list Z * gset Z)
    (destId : Z) :
  layerInv (idSet els) visited0 acc -> layerInv (idSet els) visited0 (visitDest els acc destId).
Proof.
  destruct acc as [nextLayer visited]. intros Hinv. unfold visitDest.
  destruct (decide (destId ∈ visited)) as [|Hnew]; [exact Hinv|].
  destruct (findById els destId) as [el|] eqn:Hfind; [|exact Hinv].
  destruct (el_inputs el) as [ins|]; [|exact Hinv].
  destruct (forallb _ _); [|exact Hinv].
  destruct Hinv as (Hnd & Hvis & Hmem). simpl in *.
  apply findById_Some in Hfind as [Hel Hid].
  assert (destId ∈ (idSet els)) as Hin.
  { unfold idSet. apply elem_of_list_to_set, list_elem_of_In, in_map_iff.
    exists el. split; [exact Hid | by apply list_elem_of_In]. }
  assert ((destId ∉ nextLayer) /\ (destId ∉ visited0)) as [Hn1 Hn2].
  { subst visited. split; intros Hc; apply Hnew; set_solver. }
  unfold layerInv. simpl. split; [|split].
  - apply NoDup_app. repeat split; [exact Hnd | | apply NoDup_singleton].
    intros x Hx Hx'. apply list_elem_of_singleton in Hx'. by subst.
  - rewrite list_to_set_app_L, Hvis. set_solver.
  - intros i Hi. apply elem_of_app in Hi as [Hi|Hi]; [by apply Hmem|].
    apply list_elem_of_singleton in Hi. by subst.
Qed.

Lemma expandLayer_spec (visited : gset Z) (currentLayer : list Z) :
  layerInv (idSet els) visited (expandLayer els g visited currentLayer).
Proof.
  unfold expandLayer. apply fold_left_preserves.
  - intros acc srcId Hacc. apply fold_left_preserves; [|exact Hacc].
    intros acc' destId. apply visitDest_layerInv.
  - unfold layerInv. simpl. split; [apply NoDup_nil_2|].
    split; [set_solver|]. intros i Hi. by apply elem_of_nil in Hi.
Qed.

(** The loop exits before the fuel does when the fuel exceeds the
    number of unvisited ids. *)
Lemma bfsLoop_terminates (fuel : nat) (visited : gset Z)
    (layers : list (list Z)) (currentLayer : list Z) :
  bfsInv (idSet els) visited layers ->
  (size ((idSet els) ∖ visited) < fuel)%nat ->
  exists visited' layers',
    bfsLoop fuel els g visited layers currentLayer = Some (visited', layers')
    /\ bfsInv (idSet els) visited' layers'.
Proof.
  revert visited layers currentLayer.
  induction fuel as [|fuel IH]; intros visited layers cur Hinv Hfuel;
    [lia|].
  destruct cur as [|c cur]; [by exists visited, layers|].
  cbn [bfsLoop].
  pose proof (expandLayer_spec visited (c :: cur)) as Hexp.
  destruct (expandLayer els g visited (c :: cur)) as [next visited'].
  destruct Hexp as (Hnd & Hvis & Hmem). simpl in Hnd, Hvis, Hmem.
  destruct Hinv as (Hsub & Hndl & Hset).
  destruct next as [|n next].
  - simpl. exists visited', layers. split; [by destruct fuel|].
    assert (visited' = visited) as -> by set_solver. done.
  - apply IH.
    + repeat split.
      * rewrite Hvis. intros i Hi. apply elem_of_union in Hi as [Hi|Hi];
          [by apply Hsub|].
        apply elem_of_list_to_set in Hi. by apply Hmem.
      * rewrite concat_app. simpl. rewrite app_nil_r.
        apply NoDup_app. repeat split; [exact Hndl | | exact Hnd].
        intros i Hi Hi'. apply Hmem in Hi' as [Hout _]. apply Hout.
        rewrite <- Hset. by apply elem_of_list_to_set.
      * rewrite concat_app. simpl. rewrite app_nil_r.
        by rewrite list_to_set_app_L, Hset, Hvis.
    + assert ((idSet els) ∖ visited' ⊂ (idSet els) ∖ visited) as Hless.
      { destruct (Hmem n) as [Hn1 Hn2]; [by left|].
        split; [set_solver|]. intros Hc.
        assert (n ∈ (idSet els) ∖ visited') as Hn by (apply Hc; set_solver).
        set_solver. }
      apply subset_size in Hless. lia.
Qed.

(** More fuel does not change the result. *)
Lemma bfsLoop_more_fuel (fuel fuel' : nat) (visited : gset Z)
    (layers : list (list Z)) (currentLayer : list Z)
    (r : gset Z * list (list Z)) :
  (fuel <= fuel')%nat ->
  bfsLoop fuel els g visited layers currentLayer = Some r ->
  bfsLoop fuel' els g visited layers currentLayer = Some r.
Proof.
  revert fuel' visited layers currentLayer.
  induction fuel as [|fuel IH]; intros fuel' visited layers cur Hle Hr.
  - destruct cur; [|done]. destruct fuel'; exact Hr.
  - destruct cur as [|c cur]; [destruct fuel'; exact Hr|].
    destruct fuel' as [|fuel']; [lia|].
    cbn [bfsLoop] in *.
    destruct (expandLayer els g visited (c :: cur)) as [next visited'].
    apply IH; [lia | exact Hr].
Qed.

End Layers.

Lemma NoDup_map_filter {A B : Type} (f : A -> B) (P : A -> Prop)
    `{forall x, Decision (P x)} (l : list A) :
  NoDup (map f l) -> NoDup (map f (filter P l)).
Proof.
  induction l as [|a l IH]; simpl; [done|].
  rewrite filter_cons. intros Hnd. apply NoDup_cons in Hnd as [Hout Hnd].
  destruct (decide (P a)); simpl; [|by apply IH].
  apply NoDup_cons. split; [|by apply IH].
  intros Hin. apply Hout.
  apply list_elem_of_In, in_map_iff in Hin as (x & Hx & Hin).
  apply list_elem_of_In, in_map_iff. exists x. split; [exact Hx|].
  apply list_elem_of_In. apply list_elem_of_In, list_elem_of_filter in Hin.
  tauto.
Qed.

(** The layers are computed for every netlist with distinct element ids,
    whatever the fuel above the number of elements, and they list every
    element id exactly once; what the expansion did not reach forms the
    last layer. *)
Lemma computeLayers_total (els : list IElement)
    (connections : list IConnection) :
  NoDup (map el_id els) ->
  exists (visited : gset Z) (bfsLayers layers : list (list Z)),
    (forall fuel, (length els < fuel)%nat ->
       bfsLoop fuel els (buildGraph els connections)
         (list_to_set (sourceLayers els)) [sourceLayers els] (sourceLayers els)
       = Some (visited, bfsLayers)
       /\ computeLayers fuel els connections = Some layers)
    /\ list_to_set (concat bfsLayers) = visited
    /\ layers = bfsLayers ++ match unreached els visited with
                             | [] => []
                             | _ :: _ => [unreached els visited]
                             end
    /\ NoDup (concat layers)
    /\ forall i, i ∈ concat layers <-> i ∈ map el_id els.
Proof.
  intros Hids.
  set (g := buildGraph els connections).
  set (src := sourceLayers els).
  set (idset := idSet els).
  assert (bfsInv idset (list_to_set src) [src]) as Hinit.
  { unfold bfsInv. simpl. rewrite app_nil_r. split; [|split; [|done]].
    - intros i Hi. apply elem_of_list_to_set in Hi.
      apply elem_of_list_to_set. subst src. unfold sourceLayers in Hi.
      apply list_elem_of_In, in_map_iff in Hi as (x & Hx & Hin).
      apply list_elem_of_In, in_map_iff. exists x. split; [exact Hx|].
      apply list_elem_of_In. apply list_elem_of_In, list_elem_of_filter in Hin.
      tauto.
    - by apply NoDup_map_filter. }
  destruct (bfsLoop_terminates els g (S (length els)) (list_to_set src)
              [src] src Hinit) as (visited & bfsLayers & Hloop & Hinv).
  { assert (size (idset ∖ list_to_set src) <= size idset)%nat as Hle
      by (apply subseteq_size; set_solver).
    assert (size idset = length els) as Hsize.
    { subst idset. unfold idSet. rewrite size_list_to_set by done.
      apply length_map. }
    fold idset. lia. }
  destruct Hinv as (Hsub & Hnd & Hset).
  exists visited, bfsLayers, (bfsLayers ++ match unreached els visited with
                                         | [] => []
                                         | _ :: _ => [unreached els visited]
                                         end).
  assert (concat (bfsLayers ++ match unreached els visited with
                               | [] => []
                               | _ :: _ => [unreached els visited]
                               end)
          = concat bfsLayers ++ unreached els visited) as Hcat.
  { rewrite concat_app. f_equal.
    destruct (unreached els visited); simpl; by rewrite ?app_nil_r. }
  split; [|split; [exact Hset|split; [reflexivity|]]].
  - intros fuel Hfuel.
    assert (bfsLoop fuel els g (list_to_set src) [src] src
            = Some (visited, bfsLayers)) as Hfuel'.
    { apply (bfsLoop_more_fuel els g (S (length els))); [lia | exact Hloop]. }
    split; [exact Hfuel'|].
    unfold computeLayers. fold g. fold src. rewrite Hfuel'.
    fold (unreached els visited). f_equal.
    destruct (unreached els visited); [by rewrite app_nil_r | reflexivity].
  - rewrite Hcat. split.
    + apply NoDup_app. split; [exact Hnd|]. split.
      * intros i Hi Hi'. unfold unreached in Hi'.
        apply list_elem_of_filter in Hi' as [Hout _]. apply Hout.
        rewrite <- Hset. by apply elem_of_list_to_set.
      * unfold unreached. by apply NoDup_filter.
    + intros i. rewrite elem_of_app. unfold unreached.
      rewrite list_elem_of_filter. split.
      * intros [Hi|[_ Hi]]; [|exact Hi].
        assert (i ∈ visited) as Hv
          by (rewrite <- Hset; by apply elem_of_list_to_set).
        apply Hsub in Hv. by apply elem_of_list_to_set in Hv.
      * intros Hi. destruct (decide (i ∈ visited)) as [Hv|Hv].
        -- left. rewrite <- Hset in Hv. by apply elem_of_list_to_set in Hv.
        -- right. by split.
Qed.

(** ** Layout planner: writes through the references *)

Lemma findRef_Some (h : heap) (p : IElement -> bool) (arr : list loc)
    (l : loc) :
  findRef h p arr = Some l ->
  l ∈ arr /\ exists el, h !! l = Some el /\ p el = true.
Proof.
  induction arr as [|l0 arr IH]; simpl; [done|].
  destruct (h !! l0) as [el0|] eqn:Hl0.
  - destruct (p el0) eqn:Hp.
    + intros [= <-]. split; [by left | by exists el0].
    + intros H. apply IH in H as [Hin Hex]. split; [by right | exact Hex].
  - intros H. apply IH in H as [Hin Hex]. split; [by right | exact Hex].
Qed.

Lemma findRef_None (h : heap) (p : IElement -> bool) (arr : list loc) :
  findRef h p arr = None ->
  forall l el, l ∈ arr -> h !! l = Some el -> p el = false.
Proof.
  induction arr as [|l0 arr IH]; simpl; intros Hnone l el Hin Hl.
  - by apply elem_of_nil in Hin.
  - apply elem_of_cons in Hin as [->|Hin].
    + rewrite Hl in Hnone. by destruct (p el).
    + destruct (h !! l0) as [el0|]; [destruct (p el0); [done|]|];
        by apply (IH Hnone l el).
Qed.

Lemma deref_cons (h : heap) (l : loc) (arr : list loc) :
  deref h (l :: arr)
  = match h !! l with
    | Some el => el :: deref h arr
    | None => deref h arr
    end.
Proof. reflexivity. Qed.

Lemma elem_of_deref (h : heap) (arr : list loc) (l : loc) (el : IElement) :
  l ∈ arr -> h !! l = Some el -> el ∈ deref h arr.
Proof. intros Hin Hl. apply list_elem_of_omap. by exists l. Qed.

(** Distinct ids: two references of the array that denote elements with
    the same id are the same reference. *)
Lemma uniqueIds_inj (h : heap) (arr : list loc) :
  uniqueIds h arr ->
  forall l1 l2 e1 e2,
    l1 ∈ arr -> l2 ∈ arr -> h !! l1 = Some e1 -> h !! l2 = Some e2 ->
    el_id e1 = el_id e2 -> l1 = l2.
Proof.
  unfold uniqueIds, deref.
  induction arr as [|l arr IH]; intros Hnd l1 l2 e1 e2 H1 H2 He1 He2 Hid.
  - by apply elem_of_nil in H1.
  - simpl in Hnd.
    assert (forall l' e', l' ∈ arr -> h !! l' = Some e' ->
              forall e, h !! l = Some e -> el_id e = el_id e' -> False)
      as Hhead.
    { intros l' e' Hl' He' e He Heq. rewrite He in Hnd. simpl in Hnd.
      apply NoDup_cons in Hnd as [Hout _]. apply Hout. rewrite Heq.
      apply list_elem_of_In, in_map_iff. exists e'. split; [done|].
      apply list_elem_of_In. by apply (elem_of_deref h arr l'). }
    assert (NoDup (map el_id (omap (fun l => h !! l) arr))) as Htail.
    { destruct (h !! l); simpl in Hnd; [|exact Hnd].
      by apply NoDup_cons in Hnd as [_ Hnd]. }
    apply elem_of_cons in H1 as [->|H1]; apply elem_of_cons in H2 as [->|H2].
    + reflexivity.
    + exfalso. by apply (Hhead l2 e2 H2 He2 e1 He1).
    + exfalso. by apply (Hhead l1 e1 H1 He1 e2 He2).
    + by apply (IH Htail l1 l2 e1 e2).
Qed.

(** A store that keeps the id behind every reference of the array keeps
    the array valid and its ids distinct. *)
Lemma ids_preserved (h h' : heap) (arr : list loc) :
  validRefs h arr ->
  uniqueIds h arr ->
  (forall l el, l ∈ arr -> h !! l = Some el ->
     exists el', h' !! l = Some el' /\ el_id el' = el_id el) ->
  validRefs h' arr /\ uniqueIds h' arr.
Proof.
  intros Hv Hu Hsame.
  assert (validRefs h' arr
          /\ map el_id (deref h' arr) = map el_id (deref h arr)) as [Hv' Heq].
  { clear Hu. unfold validRefs in *.
    induction arr as [|l arr IH]; [by split; [constructor|]|].
    apply Forall_cons in Hv as [[el Hl] Hv].
    destruct (Hsame l el) as (el' & Hl' & Hid); [by left | done |].
    destruct IH as [IHv IHeq]; [exact Hv | |].
    { intros l0 el0 Hin. apply Hsame. by right. }
    split.
    - apply Forall_cons. split; [by exists el' | exact IHv].
    - rewrite !deref_cons, Hl, Hl'. cbn [map]. by rewrite Hid, IHeq. }
  split; [exact Hv'|]. unfold uniqueIds. by rewrite Heq.
Qed.

Section Placement.

Variable arr : list loc.

(** One write: the element with id [i] gets the coordinates, every
    other element of the array is left as it is. *)
Lemma placeElement_lookup (layerX : Z) (h : heap) (elementIndex : nat)
    (i : Z) :
  uniqueIds h arr ->
  forall l el, l ∈ arr -> h !! l = Some el ->
    placeElement arr layerX h elementIndex i !! l
    = Some (if Z.eqb (el_id el) i
            then setPosition el (inject_Z layerX)
                   (inject_Z (100 + Z.of_nat elementIndex * 100))
            else el).
Proof.
  intros Hu l el Hin Hl. unfold placeElement, VERTICAL_SPACING.
  destruct (findRef h _ arr) as [l0|] eqn:Hfind.
  - apply findRef_Some in Hfind as (Hin0 & el0 & Hl0 & Hid0).
    rewrite Hl0. destruct (decide (l = l0)) as [->|Hne].
    + assert (el0 = el) as -> by congruence. rewrite Hid0.
      apply list_lookup_insert_eq. by apply lookup_lt_is_Some_1.
    + rewrite list_lookup_insert_ne by done. rewrite Hl. f_equal.
      destruct (Z.eqb_spec (el_id el) i) as [Heq|]; [|done].
      exfalso. apply Hne. apply Z.eqb_eq in Hid0.
      apply (uniqueIds_inj h arr Hu l l0 el el0); congruence.
  - rewrite Hl. f_equal.
    by rewrite (findRef_None _ _ _ Hfind l el Hin Hl).
Qed.

(** The inner [forEach] over one layer. *)
Lemma placeLayer_lookup (layerX : Z) (layerIds : list Z) :
  NoDup layerIds ->
  forall (start : nat) (h : heap),
    validRefs h arr -> uniqueIds h arr ->
    forall l el, l ∈ arr -> h !! l = Some el ->
      exists el',
        forEachIndexed (placeElement arr layerX) h start layerIds !! l
        = Some el'
        /\ el_id el' = el_id el
        /\ (el_id el ∉ layerIds -> el' = el)
        /\ (forall idx, layerIds !! idx = Some (el_id el) ->
              el' = setPosition el (inject_Z layerX)
                      (inject_Z (100 + Z.of_nat (start + idx) * 100))).
Proof.
  induction layerIds as [|i layerIds IH]; intros Hnd start h Hv Hu l el Hin Hl.
  - simpl. exists el. split; [exact Hl|]. split; [done|]. split; [done|].
    intros idx Hidx. by rewrite lookup_nil in Hidx.
  - apply NoDup_cons in Hnd as [Hi Hnd]. cbn [forEachIndexed].
    set (h1 := placeElement arr layerX h start i).
    assert (forall l el, l ∈ arr -> h !! l = Some el ->
              exists el', h1 !! l = Some el' /\ el_id el' = el_id el)
      as Hsame.
    { intros l0 el0 Hin0 Hl0. eexists. split.
      - by apply placeElement_lookup.
      - by destruct (Z.eqb (el_id el0) i). }
    destruct (ids_preserved h h1 arr Hv Hu Hsame) as [Hv1 Hu1].
    pose proof (placeElement_lookup layerX h start i Hu l el Hin Hl) as Hl1.
    fold h1 in Hl1.
    destruct (Z.eqb_spec (el_id el) i) as [Heq|Hne].
    + destruct (IH Hnd (S start) h1 Hv1 Hu1 l _ Hin Hl1)
        as (el' & Hl' & Hid' & Hout & _).
      simpl in Hid', Hout. rewrite Heq in Hout.
      exists el'. rewrite (Hout Hi). split; [by rewrite Hl', (Hout Hi)|].
      split; [done|]. split.
      * intros Hc. exfalso. apply Hc. rewrite Heq. by left.
      * intros [|idx] Hidx.
        -- by rewrite Nat.add_0_r.
        -- simpl in Hidx. exfalso. apply Hi. rewrite <- Heq.
           by apply list_elem_of_lookup_2 in Hidx.
    + destruct (IH Hnd (S start) h1 Hv1 Hu1 l el Hin Hl1)
        as (el' & Hl' & Hid' & Hout & Hat).
      exists el'. split; [exact Hl'|]. split; [exact Hid'|]. split.
      * intros Hc. apply Hout. intros Hc'. apply Hc. by right.
      * intros [|idx] Hidx.
        -- simpl in Hidx. congruence.
        -- simpl in Hidx. rewrite (Hat idx Hidx).
           by rewrite Nat.add_succ_r.
Qed.

(** The outer [forEach] over the layers. *)
Lemma assignPositions_lookup (layers : list (list Z)) :
  NoDup (concat layers) ->
  forall (start : nat) (h : heap),
    validRefs h arr -> uniqueIds h arr ->
    forall l el, l ∈ arr -> h !! l = Some el ->
      exists el',
        forEachIndexed (placeLayer arr) h start layers !! l = Some el'
        /\ el_id el' = el_id el
        /\ (el_id el ∉ concat layers -> el' = el)
        /\ (forall layerIndex idx layer,
              layers !! layerIndex = Some layer ->
              layer !! idx = Some (el_id el) ->
              el' = setPosition el
                      (inject_Z (100 + Z.of_nat (start + layerIndex) * 200))
                      (inject_Z (100 + Z.of_nat idx * 100))).
Proof.
  induction layers as [|layer layers IH];
    intros Hnd start h Hv Hu l el Hin Hl.
  - simpl. exists el. split; [exact Hl|]. split; [done|]. split; [done|].
    intros li idx layer Hli. by rewrite lookup_nil in Hli.
  - simpl in Hnd. apply NoDup_app in Hnd as (Hnd1 & Hdisj & Hnd2).
    cbn [forEachIndexed].
    set (h1 := placeLayer arr h start layer).
    assert (forall l el, l ∈ arr -> h !! l = Some el ->
              exists el',
                h1 !! l = Some el' /\ el_id el' = el_id el
                /\ (el_id el ∉ layer -> el' = el)
                /\ (forall idx, layer !! idx = Some (el_id el) ->
                      el' = setPosition el
                              (inject_Z (100 + Z.of_nat start * 200))
                              (inject_Z (100 + Z.of_nat idx * 100))))
      as Hlayer.
    { intros l0 el0 Hin0 Hl0. subst h1. unfold placeLayer.
      apply (placeLayer_lookup _ layer Hnd1 0 h Hv Hu l0 el0 Hin0 Hl0). }
    assert (forall l el, l ∈ arr -> h !! l = Some el ->
              exists el', h1 !! l = Some el' /\ el_id el' = el_id el)
      as Hsame.
    { intros l0 el0 Hin0 Hl0.
      destruct (Hlayer l0 el0 Hin0 Hl0) as (el' & H1 & H2 & _). eauto. }
    destruct (ids_preserved h h1 arr Hv Hu Hsame) as [Hv1 Hu1].
    destruct (Hlayer l el Hin Hl) as (el1 & Hl1 & Hid1 & Hout1 & Hat1).
    destruct (IH Hnd2 (S start) h1 Hv1 Hu1 l el1 Hin Hl1)
      as (el' & Hl' & Hid' & Hout & Hat).
    exists el'. split; [exact Hl'|]. split; [congruence|].
    destruct (decide (el_id el ∈ layer)) as [Hmem|Hmem].
    + assert (el' = el1) as ->.
      { apply Hout. rewrite Hid1. by apply Hdisj. }
      split.
      * intros Hc. exfalso. apply Hc. simpl. apply elem_of_app. by left.
      * intros [|li] idx layer' Hli Hidx.
        -- simpl in Hli. injection Hli as <-.
           rewrite (Hat1 idx Hidx). by rewrite Nat.add_0_r.
        -- simpl in Hli. exfalso. apply (Hdisj _ Hmem).
           apply list_elem_of_In, in_concat. exists layer'.
           split; apply list_elem_of_In;
             by eapply list_elem_of_lookup_2.
    + assert (el1 = el) as -> by (by apply Hout1).
      split.
      * intros Hc. apply Hout. intros Hc'. apply Hc. simpl.
        apply elem_of_app. by right.
      * intros [|li] idx layer' Hli Hidx.
        -- simpl in Hli. injection Hli as <-. exfalso. apply Hmem.
           by eapply list_elem_of_lookup_2.
        -- simpl in Hli. rewrite (Hat li idx layer' Hli Hidx).
           by rewrite Nat.add_succ_r.
Qed.

End Placement.

Lemma length_deref (h : heap) (arr : list loc) :
  validRefs h arr -> length (deref h arr) = length arr.
Proof.
  unfold validRefs. induction arr as [|l arr IH]; intros Hv; [done|].
  apply Forall_cons in Hv as [[el Hl] Hv].
  rewrite deref_cons, Hl. simpl. by rewrite IH.
Qed.

(** C8: for every netlist whose elements have distinct ids (cycles and
    disconnected parts included) the layout terminates (any fuel above
    the number of elements gives the same result) and returns the
    caller's array; the layers list every element id exactly once, the
    ids the breadth-first expansion did not reach forming one last
    layer; and every element ends at
    (100 + layerIndex * 200, 100 + indexInLayer * 100), all its other
    fields unchanged. *)
Theorem arrangeElements_places_every_element (h : heap)
    (elements : list loc) (connections : list IConnection) :
  validRefs h elements ->
  uniqueIds h elements ->
  let els := deref h elements in
  exists (visited : gset Z) (bfsLayers layers : list (list Z)) (h' : heap),
    (forall fuel, (length elements < fuel)%nat ->
       bfsLoop fuel els (buildGraph els connections)
         (list_to_set (sourceLayers els)) [sourceLayers els] (sourceLayers els)
       = Some (visited, bfsLayers)
       /\ computeLayers fuel els connections = Some layers
       /\ arrangeElements fuel h elements connections = Some (h', elements))
    /\ list_to_set (concat bfsLayers) = visited
    /\ layers = bfsLayers ++ match unreached els visited with
                             | [] => []
                             | _ :: _ => [unreached els visited]
                             end
    /\ NoDup (concat layers)
    /\ forall l el, l ∈ elements -> h !! l = Some el ->
         exists (layerIndex indexInLayer : nat) (layer : list Z),
           layers !! layerIndex = Some layer
           /\ layer !! indexInLayer = Some (el_id el)
           /\ h' !! l
              = Some (setPosition el
                        (inject_Z (100 + Z.of_nat layerIndex * 200))
                        (inject_Z (100 + Z.of_nat indexInLayer * 100))).
Proof.
  intros Hv Hu els.
  destruct (computeLayers_total els connections Hu)
    as (visited & bfsLayers & layers & Hfuel & Hset & Hlayers & Hnd & Hcover).
  exists visited, bfsLayers, layers,
    (match elements with
     | [] => h
     | _ :: _ => assignPositions elements h layers
     end).
  assert (length els = length elements) as Hlen by by apply length_deref.
  split; [|split; [exact Hset|split; [exact Hlayers|split; [exact Hnd|]]]].
  - intros fuel Hlt. rewrite <- Hlen in Hlt.
    destruct (Hfuel fuel Hlt) as [Hloop Hcomp].
    split; [exact Hloop|]. split; [exact Hcomp|].
    unfold arrangeElements. destruct elements as [|l0 elements]; [done|].
    fold els. by rewrite Hcomp.
  - intros l el Hin Hl.
    assert (el_id el ∈ concat layers) as Hmem.
    { apply Hcover. apply list_elem_of_In, in_map_iff. exists el.
      split; [done|]. apply list_elem_of_In. by apply (elem_of_deref h _ l). }
    apply list_elem_of_In, in_concat in Hmem as (layer & Hlayer & Hid).
    apply list_elem_of_In, list_elem_of_lookup_1 in Hlayer
      as [layerIndex Hli].
    apply list_elem_of_In, list_elem_of_lookup_1 in Hid
      as [indexInLayer Hidx].
    exists layerIndex, indexInLayer, layer.
    split; [exact Hli|]. split; [exact Hidx|].
    destruct elements as [|l0 elements]; [by apply elem_of_nil in Hin|].
    destruct (assignPositions_lookup (l0 :: elements) layers Hnd 0 h Hv Hu
                l el Hin Hl) as (el' & Hl' & _ & _ & Hat).
    unfold assignPositions. rewrite Hl'. f_equal.
    apply (Hat layerIndex indexInLayer layer Hli Hidx).
Qed.

(** C8 on a netlist with a feedback loop: the flip-flop and the LUT
    drive each other, neither is reached from the clock, and both are
    placed in the last layer. *)
Lemma arrangeElements_places_every_element_witness :
  exists h',
    arrangeElements 4 Demo.loopHeap Demo.loopElements Demo.loopConnections
    = Some (h', Demo.loopElements)
    /\ map (fun el => (el_id el, el_x el, el_y el))
         (deref h' Demo.loopElements)
       = [ (7, Some 100%Q, Some 100%Q); (8, Some 300%Q, Some 100%Q);
           (9, Some 300%Q, Some 200%Q) ].
Proof.
  assert (validRefs Demo.loopHeap Demo.loopElements) as Hv.
  { repeat constructor; eexists; reflexivity. }
  assert (uniqueIds Demo.loopHeap Demo.loopElements) as Hu.
  { unfold uniqueIds. apply (bool_decide_unpack (NoDup _)).
    vm_compute. exact I. }
  destruct (arrangeElements_places_every_element Demo.loopHeap
              Demo.loopElements Demo.loopConnections Hv Hu)
    as (visited & bfsLayers & layers & h' & Hfuel & _).
  destruct (Hfuel 4%nat) as (_ & _ & Harr); [simpl; lia|].
  exists h'. split; [exact Harr|].
  vm_compute in Harr. injection Harr as <-. reflexivity.
Defined.

(** ** Layout planner: aliasing *)

(** The returned array holds the caller's references. *)
Lemma arrangeElements_same_refs (fuel : nat) (h h' : heap)
    (elements arranged : list loc) (connections : list IConnection) :
  arrangeElements fuel h elements connections = Some (h', arranged) ->
  arranged = elements.
Proof.
  unfold arrangeElements. destruct elements as [|l elements].
  - by intros [= _ <-].
  - destruct (computeLayers _ _ _); [by intros [= _ <-] | done].
Qed.

(** C4 (the code misses the claim): the caller passes four elements
    without coordinates; after the call the very objects of the caller's
    array carry the coordinates of the layout. *)
Theorem arrangeElements_mutates_caller :
  exists h' arranged,
    arrangeElements 5 Demo.rawHeap Demo.rawElements Demo.netConnections
    = Some (h', arranged)
    /\ map el_x (deref Demo.rawHeap Demo.rawElements)
       = [None; None; None; None]
    /\ map el_x (deref h' Demo.rawElements)
       = [Some 100%Q; Some 100%Q; Some 300%Q; Some 500%Q]
    /\ map el_y (deref h' Demo.rawElements)
       = [Some 100%Q; Some 200%Q; Some 100%Q; Some 100%Q].
Proof. vm_compute. eexists _, _. repeat split; reflexivity. Qed.

(** ** Sanity checks *)

Example layers_examples :
  computeLayers 5 (deref Demo.rawHeap Demo.rawElements) Demo.netConnections
  = Some [[1; 2]; [3]; [4]]
  /\ computeLayers 4 (deref Demo.loopHeap Demo.loopElements)
       Demo.loopConnections
     = Some [[7]; [8; 9]].
Proof. split; vm_compute; reflexivity. Qed.

Example includes_examples :
  JsString.includes "clk" "sys_clk_1" = true
  /\ JsString.includes "D" "data" = false
  /\ JsString.includes "" "" = true
  /\ JsString.endsWith "_0" "ff_in_0" = true
  /\ JsString.endsWith "_0" "ff_0_in" = false.
Proof. repeat split; reflexivity. Qed.

(** * Further properties *)

(** ** Clock frequency *)


(** ** Arrival dispatch *)

Lemma hasWire_findPort (ports : option (list Port)) (w : string) :
  hasWire ports w = true ->
  exists p, findPort ports w = Some p /\ wireName p = w.
Proof.
  unfold hasWire, findPort. destruct ports as [ps|]; [|done].
  intros H. apply existsb_exists in H as (p & Hin & Hp).
  destruct (List.find _ ps) as [q|] eqn:Hfind.
  - exists q. split; [done|]. apply find_some in Hfind as [_ Hq].
    by apply String.eqb_eq.
  - by rewrite (find_none _ _ Hfind p Hin) in Hp.
Qed.

Lemma findDest_findPort (els : list IElement) (w : string)
    (destElement : IElement) :
  findDest els w = Some destElement ->
  exists p, findPort (el_inputs destElement) w = Some p /\ wireName p = w.
Proof.
  unfold findDest. intros H. apply find_some in H as [_ H].
  by apply hasWire_findPort.
Qed.

Lemma findIndex_Some {A : Type} (p : A -> bool) (l : list A) (k : nat) :
  findIndex p l = Some k -> exists a, l !! k = Some a /\ p a = true.
Proof.
  revert k. induction l as [|a l IH]; intros k; simpl; [done|].
  destruct (p a) eqn:Hp.
  - intros [= <-]. by exists a.
  - destruct (findIndex p l) as [k'|]; [|done]. simpl. intros [= <-].
    by apply IH.
Qed.

(** X2: a signal that arrives on a wire no element reads, or at an
    element that is neither a module output nor a flip-flop (a gate, a
    LUT), changes nothing. *)
Theorem handleSignalArrival_inert (now : Q) (s : SimState) (signal : Signal) :
  match findDest (elements s) (connectionName signal) with
  | None => True
  | Some destElement =>
      String.eqb (el_type destElement) "module_output" = false
      /\ isFlipFlop destElement = false
  end ->
  handleSignalArrival now s signal = s.
Proof.
  unfold handleSignalArrival.
  destruct (findDest (elements s) (connectionName signal)) as [dest|];
    [|done].
  intros [Hout Hff]. rewrite Hout, Hff.
  by destruct (findPort (el_inputs dest) (connectionName signal)).
Qed.

Lemma handleSignalArrival_inert_witness :
  handleSignalArrival 75 Cases.gateMounted
    (mkSignal "a" (4 # 5) [] 0 0 "a" "g")
  = Cases.gateMounted
  /\ handleSignalArrival 75 Cases.gateMounted
       (mkSignal "nowhere" (4 # 5) [] 0 0 "a" "g")
     = Cases.gateMounted.
Proof.
  split; apply handleSignalArrival_inert; vm_compute; [split|]; reflexivity.
Defined.

(** X3: a signal that arrives at a module output stamps the output with
    the arrival time and leaves the flip-flops alone; the output sweep
    keeps the stamp as long as at most 500 ms have passed and removes it
    afterwards. *)
Theorem output_lit_then_expires (t0 : Q) (s : SimState) (signal : Signal)
    (destElement : IElement) :
  findDest (elements s) (connectionName signal) = Some destElement ->
  el_type destElement = "module_output" ->
  let s1 := handleSignalArrival t0 s signal in
  activeOutputs s1 !! el_id destElement = Some t0
  /\ flipFlopStates s1 = flipFlopStates s
  /\ activeSignals s1 = activeSignals s
  /\ forall now : Q,
       activeOutputs (resetOutputsTick now s1) !! el_id destElement
       = if Qltb 500 (now - t0) then None else Some t0.
Proof.
  intros Hdest Htype s1.
  destruct (findDest_findPort _ _ _ Hdest) as (p & Hport & _).
  assert (s1 = setActiveOutputs (fun m => <[el_id destElement := t0]> m) s)
    as ->.
  { subst s1. unfold handleSignalArrival. rewrite Hdest, Hport.
    unfold isFlipFlop. rewrite Htype. reflexivity. }
  simpl. split; [apply lookup_insert_eq|]. split; [done|]. split; [done|].
  intros now. destruct (Qltb 500 (now - t0)) eqn:Hlate.
  - apply map_lookup_filter_None. right. intros t Ht.
    rewrite lookup_insert_eq in Ht. injection Ht as <-. simpl.
    by rewrite Hlate.
  - apply map_lookup_filter_Some. split; [apply lookup_insert_eq|]. done.
Qed.

Lemma output_lit_then_expires_witness :
  activeOutputs (handleSignalArrival 100 Demo.mounted Cases.outputArrival)
    !! 4 = Some 100%Q
  /\ activeOutputs
       (resetOutputsTick 600
          (handleSignalArrival 100 Demo.mounted Cases.outputArrival))
       !! 4 = Some 100%Q
  /\ activeOutputs
       (resetOutputsTick 800
          (handleSignalArrival 100 Demo.mounted Cases.outputArrival))
       !! 4 = None.
Proof.
  destruct (output_lit_then_expires 100 Demo.mounted Cases.outputArrival
              (mkElement 4 (Some "out") "module_output" (Some 500%Q)
                 (Some 100%Q) (Some [mkPort "q"]) (Some [])))
    as (Hlit & _ & _ & Hsweep); [reflexivity | reflexivity |].
  split; [exact Hlit|]. split; [exact (Hsweep 600%Q) | exact (Hsweep 800%Q)].
Defined.

(** X4: an arrival the dispatch treats as D (port index 0, or a wire
    name containing "D") only raises D-pending of that flip-flop: the
    output, the enable, the clock stamp, the pending timeouts and every
    other part of the state are as before. *)
Theorem data_arrival_sets_pending (now : Q) (s : SimState) (signal : Signal)
    (destElement : IElement) (k : nat) (ff : FlipFlopState) :
  let w := connectionName signal in
  findDest (elements s) w = Some destElement ->
  isFlipFlop destElement = true ->
  isPort 0 "D" (portIndexOf (el_inputs destElement) w) (mkPort w) = true ->
  findIndex (fun ff => Z.eqb (ff_id ff) (el_id destElement))
    (flipFlopStates s) = Some k ->
  flipFlopStates s !! k = Some ff ->
  handleSignalArrival now s signal
  = setFlipFlopStates
      (<[k := mkFlipFlop (ff_id ff) (ff_name ff) true (hasEn ff)
                (outputValue ff) (lastClockTime ff) (ff_type ff)]>
         (flipFlopStates s))
      s.
Proof.
  intros w Hdest Hff HD Hidx Hk.
  destruct (findDest_findPort _ _ _ Hdest) as ([pw] & Hport & Hname).
  simpl in Hname. subst pw.
  unfold handleSignalArrival. fold w. rewrite Hdest, Hport, Hff, HD.
  rewrite (flipFlop_not_output _ Hff).
  unfold flipFlopArrival. by rewrite Hidx, Hk.
Qed.

Lemma data_arrival_sets_pending_witness :
  flipFlopStates (handleSignalArrival 40 Cases.gatedMounted Cases.dataArrival)
  = [mkFlipFlop 3 "ff" true false false 0 "DFF"]
  /\ pendingTimeouts
       (handleSignalArrival 40 Cases.gatedMounted Cases.dataArrival) = [].
Proof.
  rewrite (data_arrival_sets_pending 40 Cases.gatedMounted Cases.dataArrival
             Demo.gatedFlipFlop 0
             (mkFlipFlop 3 "ff" false false false 0 "DFF"));
    try reflexivity.
  split; reflexivity.
Defined.

(** X5: an enable arrival at a DFF (not D, port index 2 or a wire name
    containing "en") asserts the enable and stamps the time t0; a sweep
    at a time up to t0 + 500 keeps the enable, the first sweep after
    t0 + 500 drops it; D-pending and the output are untouched by both. *)
Theorem enable_asserted_then_lapses (t0 now : Q) (s : SimState)
    (signal : Signal) (destElement : IElement) (k : nat)
    (ff : FlipFlopState) :
  let w := connectionName signal in
  findDest (elements s) w = Some destElement ->
  el_type destElement = "DFF" ->
  isPort 0 "D" (portIndexOf (el_inputs destElement) w) (mkPort w) = false ->
  isPort 2 "en" (portIndexOf (el_inputs destElement) w) (mkPort w) = true ->
  findIndex (fun ff => Z.eqb (ff_id ff) (el_id destElement))
    (flipFlopStates s) = Some k ->
  flipFlopStates s !! k = Some ff ->
  ff_type ff = "DFF" ->
  let s1 := handleSignalArrival t0 s signal in
  flipFlopStates s1 !! k
  = Some (mkFlipFlop (ff_id ff) (ff_name ff) (hasD ff) true (outputValue ff)
            (lastClockTime ff) (ff_type ff))
  /\ flipFlopStates (resetIntervalTick now s1) !! k
     = Some (mkFlipFlop (ff_id ff) (ff_name ff) (hasD ff)
               (negb (Qltb 500 (now - t0))) (outputValue ff)
               (lastClockTime ff) (ff_type ff)).
Proof.
  intros w Hdest Htype HD Hen Hidx Hk Hfftype s1.
  destruct (findDest_findPort _ _ _ Hdest) as ([pw] & Hport & Hname).
  simpl in Hname. subst pw.
  assert (isFlipFlop destElement = true) as Hff
    by (unfold isFlipFlop; by rewrite Htype).
  destruct (findIndex_Some _ _ _ Hidx) as (ff' & Hk' & Hid).
  assert (ff' = ff) as -> by congruence. apply Z.eqb_eq in Hid.
  assert (k < length (flipFlopStates s))%nat as Hlt
    by (by apply lookup_lt_is_Some_1).
  assert (s1 = setActiveFlipFlopInputs
                 (fun m =>
                    let old :=
                      default (mkInputs false false 0%Q)
                        (m !! el_id destElement) in
                    <[el_id destElement := mkInputs (fi_D old) true t0]> m)
                 (setFlipFlopStates
                    (<[k := withHasEn ff true]> (flipFlopStates s)) s))
    as ->.
  { subst s1. unfold handleSignalArrival. fold w.
    rewrite Hdest, Hport, Hff, HD, Hen.
    rewrite (flipFlop_not_output _ Hff).
    unfold flipFlopArrival. by rewrite Hidx, Hk, Htype. }
  split.
  - simpl. by rewrite list_lookup_insert_eq.
  - unfold resetIntervalTick. simpl.
    rewrite list_lookup_fmap, list_lookup_insert_eq by done. simpl.
    unfold enableStale. simpl. rewrite Hfftype, Hid. simpl.
    rewrite lookup_insert_eq. simpl.
    destruct (Qltb 500 (now - t0)); unfold withHasEn; simpl; congruence.
Qed.

Lemma enable_asserted_then_lapses_witness :
  hasEn <$> flipFlopStates
              (resetIntervalTick 500
                 (handleSignalArrival 100 Cases.gatedMounted
                    Cases.enableArrival)) !! 0%nat
  = Some true
  /\ hasEn <$> flipFlopStates
                 (resetIntervalTick 700
                    (handleSignalArrival 100 Cases.gatedMounted
                       Cases.enableArrival)) !! 0%nat
     = Some false.
Proof.
  split.
  - destruct (enable_asserted_then_lapses 100 500 Cases.gatedMounted
                Cases.enableArrival Demo.gatedFlipFlop 0
                (mkFlipFlop 3 "ff" false false false 0 "DFF"))
      as [_ ->]; reflexivity.
  - destruct (enable_asserted_then_lapses 100 700 Cases.gatedMounted
                Cases.enableArrival Demo.gatedFlipFlop 0
                (mkFlipFlop 3 "ff" false false false 0 "DFF"))
      as [_ ->]; reflexivity.
Defined.

(** ** What the handlers keep of the flip-flop states *)

Lemma sameFlipFlop_refl (ff : FlipFlopState) : sameFlipFlop ff ff.
Proof. by repeat split. Qed.

Lemma sameFlipFlops_refl (ffs : list FlipFlopState) :
  Forall2 sameFlipFlop ffs ffs.
Proof. induction ffs; constructor; auto using sameFlipFlop_refl. Qed.

Lemma sameFlipFlops_trans (l1 l2 l3 : list FlipFlopState) :
  Forall2 sameFlipFlop l1 l2 -> Forall2 sameFlipFlop l2 l3 ->
  Forall2 sameFlipFlop l1 l3.
Proof.
  intros H12. revert l3. induction H12 as [|a b l1 l2 Hab _ IH]; intros l3 H23.
  - inversion H23. constructor.
  - inversion H23 as [|b' c l2' l3' Hbc Hrest]; subst. constructor; [|auto].
    destruct Hab as (Hi & Hn & Ht & He), Hbc as (Hi' & Hn' & Ht' & He').
    repeat split; try congruence.
    intros Hne Hen. apply He'; [congruence | by apply He].
Qed.

Lemma sameFlipFlops_insert (ffs : list FlipFlopState) (k : nat)
    (ff ff' : FlipFlopState) :
  ffs !! k = Some ff -> sameFlipFlop ff ff' ->
  Forall2 sameFlipFlop ffs (<[k := ff']> ffs).
Proof.
  intros Hk Hsame. rewrite <- (list_insert_id ffs k ff Hk) at 1.
  apply Forall2_insert; [apply sameFlipFlops_refl | exact Hsame].
Qed.

Lemma sameFlipFlops_map (g : FlipFlopState -> FlipFlopState)
    (ffs : list FlipFlopState) :
  (forall ff, sameFlipFlop ff (g ff)) -> Forall2 sameFlipFlop ffs (map g ffs).
Proof. intros Hg. induction ffs; simpl; constructor; auto. Qed.

Lemma sameFlipFlops_roster (l l' : list FlipFlopState) :
  Forall2 sameFlipFlop l l' -> roster l' = roster l.
Proof.
  induction 1 as [|a b l l' (Hi & Hn & Ht & _) _ IH]; simpl; [done|].
  by rewrite Hi, Hn, Ht, IH.
Qed.

Lemma sameFlipFlops_enabled (l l' : list FlipFlopState) :
  Forall2 sameFlipFlop l l' -> alwaysEnabled l -> alwaysEnabled l'.
Proof.
  unfold alwaysEnabled.
  induction 1 as [|a b l l' (Hi & Hn & Ht & He) _ IH]; intros Hall;
    [constructor|].
  apply Forall_cons in Hall as [Ha Hall]. constructor; [|auto].
  intros Hb. rewrite Ht in Hb. auto.
Qed.

Lemma handleSignalArrival_sameFlipFlops (now : Q) (s : SimState)
    (signal : Signal) :
  Forall2 sameFlipFlop (flipFlopStates s)
    (flipFlopStates (handleSignalArrival now s signal)).
Proof.
  assert (forall dest d e c s0,
            Forall2 sameFlipFlop (flipFlopStates s0)
              (flipFlopStates (flipFlopArrival now dest d e c s0))) as Harr.
  { intros dest d e c s0. unfold flipFlopArrival.
    destruct (findIndex _ (flipFlopStates s0)) as [k|];
      [|apply sameFlipFlops_refl].
    destruct (flipFlopStates s0 !! k) as [ff|] eqn:Hk;
      [|apply sameFlipFlops_refl].
    destruct d.
    { simpl. apply (sameFlipFlops_insert _ _ ff); [done|]. by repeat split. }
    destruct e.
    { destruct (String.eqb (el_type dest) "DFF"); [|apply sameFlipFlops_refl].
      simpl. apply (sameFlipFlops_insert _ _ ff); [done|]. by repeat split. }
    destruct c; [|apply sameFlipFlops_refl].
    destruct (Qltb _ 50); [apply sameFlipFlops_refl|].
    simpl. apply (sameFlipFlops_insert _ _ ff); [done|].
    destruct (_ || _); by repeat split. }
  unfold handleSignalArrival.
  destruct (findDest _ _) as [dest|]; [|apply sameFlipFlops_refl].
  destruct (findPort _ _) as [port|]; [|apply sameFlipFlops_refl].
  destruct (isFlipFlop dest);
    destruct (String.eqb (el_type dest) "module_output");
    first [ apply sameFlipFlops_refl
          | apply Harr
          | apply (Harr _ _ _ _ (setActiveOutputs _ s)) ].
Qed.

Lemma arrivals_sameFlipFlops (now : Q) (signals : list Signal) (s : SimState) :
  Forall2 sameFlipFlop (flipFlopStates s)
    (flipFlopStates (fold_left (handleSignalArrival now) signals s)).
Proof.
  revert s. induction signals as [|signal signals IH]; intros s; simpl;
    [apply sameFlipFlops_refl|].
  eapply sameFlipFlops_trans; [apply handleSignalArrival_sameFlipFlops|].
  apply IH.
Qed.

Lemma step_sameFlipFlops (s : SimState) (e : Event) :
  Forall2 sameFlipFlop (flipFlopStates s) (flipFlopStates (step s e)).
Proof.
  destruct e as [playing| |f|cx cy| |now|now|now|now|k now]; simpl.
  - unfold setPlaying, simulationEffect, outputsEffect.
    destruct (Bool.eqb playing (runningSimulation s));
      [apply sameFlipFlops_refl|].
    destruct playing; simpl; apply sameFlipFlops_refl.
  - unfold resetTriggered, simulationEffect. simpl.
    assert (Forall2 sameFlipFlop (flipFlopStates s)
              (map resetFlipFlop (flipFlopStates s))) as Hreset.
    { apply sameFlipFlops_map. intros ff. repeat split. simpl.
      intros ->. reflexivity. }
    by destruct (runningSimulation s).
  - unfold handleClockFrequencyChange, simulationEffect.
    destruct (Qeq_bool _ _); [apply sameFlipFlops_refl|]. simpl.
    destruct (runningSimulation s); apply sameFlipFlops_refl.
  - unfold handleMouseDown.
    destruct (List.find _ (elements s)); apply sameFlipFlops_refl.
  - unfold handleMouseUp, simulationEffect.
    repeat match goal with
           | |- context [match ?x with _ => _ end] => destruct x; simpl
           end; apply sameFlipFlops_refl.
  - destruct (runningSimulation s); [|apply sameFlipFlops_refl].
    destruct (findClock (elements s)); apply sameFlipFlops_refl.
  - destruct (runningSimulation s); [|apply sameFlipFlops_refl].
    destruct (findClock (elements s)); [|apply sameFlipFlops_refl].
    rewrite signalIntervalTick_calls. simpl. apply arrivals_sameFlipFlops.
  - destruct (runningSimulation s); [|apply sameFlipFlops_refl].
    unfold resetIntervalTick. simpl. apply sameFlipFlops_map.
    intros ff. destruct (enableStale _ now ff) eqn:Hstale;
      [|apply sameFlipFlop_refl].
    repeat split. intros Hne. unfold enableStale in Hstale.
    rewrite Hne in Hstale. discriminate.
  - destruct (runningSimulation s); apply sameFlipFlops_refl.
  - destruct (pendingTimeouts s !! k) as [t|]; [|apply sameFlipFlops_refl].
    destruct (Qle_bool (to_due t) now); apply sameFlipFlops_refl.
Qed.

Lemma run_sameFlipFlops (s : SimState) (trace : list Event) :
  Forall2 sameFlipFlop (flipFlopStates s) (flipFlopStates (run s trace)).
Proof.
  revert s. induction trace as [|e trace IH]; intros s; simpl;
    [apply sameFlipFlops_refl|].
  eapply sameFlipFlops_trans; [apply step_sameFlipFlops | apply IH].
Qed.

Lemma run_roster (s : SimState) (trace : list Event) :
  roster (flipFlopStates (run s trace)) = roster (flipFlopStates s).
Proof. apply sameFlipFlops_roster, run_sameFlipFlops. Qed.

(** X6: no sequence of events adds, removes or reorders flip-flop
    states, and none changes the id, the name or the type of one: the
    roster after any trace is the roster before it. *)
Theorem roster_constant (s : SimState) (trace : list Event) :
  length (flipFlopStates (run s trace)) = length (flipFlopStates s)
  /\ roster (flipFlopStates (run s trace)) = roster (flipFlopStates s).
Proof.
  split; [|apply sameFlipFlops_roster, run_sameFlipFlops].
  symmetry. eapply Forall2_length, run_sameFlipFlops.
Qed.

(** X7: in every state reachable after mount, a DFF_NE has its enable
    asserted: neither the arrivals, nor the enable sweep, nor the reset
    ever lower it. *)
Theorem DFF_NE_always_enabled (els : list IElement)
    (conns : list IConnection) (trace : list Event) :
  alwaysEnabled (flipFlopStates (run (initialState els conns) trace)).
Proof.
  apply (sameFlipFlops_enabled _ _ (run_sameFlipFlops _ trace)).
  unfold alwaysEnabled, initialState. simpl. apply Forall_forall.
  intros ff Hin. apply list_elem_of_In, in_map_iff in Hin as (el & <- & _).
  simpl. intros ->. reflexivity.
Qed.

Lemma map_resetFlipFlop_roster (l l' : list FlipFlopState) :
  roster l = roster l' -> map resetFlipFlop l = map resetFlipFlop l'.
Proof.
  revert l'. induction l as [|a l IH]; intros [|b l']; simpl; try done.
  intros [= Hi Hn Ht Hrest]. unfold resetFlipFlop at 1 3.
  rewrite Hi, Hn, Ht. f_equal. by apply IH.
Qed.

(** X8: reset, after any sequence of events, brings the flip-flop states
    back to what they were right after mount. *)
Theorem reset_restores_mount (els : list IElement) (conns : list IConnection)
    (trace : list Event) :
  flipFlopStates (step (run (initialState els conns) trace) Reset)
  = flipFlopStates (initialState els conns).
Proof.
  set (s := run (initialState els conns) trace).
  assert (flipFlopStates (step s Reset)
          = map resetFlipFlop (flipFlopStates s)) as ->.
  { simpl. unfold resetTriggered, simulationEffect. simpl.
    by destruct (runningSimulation _). }
  rewrite (map_resetFlipFlop_roster _ (flipFlopStates (initialState els conns)))
    by apply run_roster.
  simpl. induction (List.filter isFlipFlop els) as [|el l IH]; simpl; [done|].
  by rewrite IH.
Qed.

Lemma findIndex_exists {A : Type} (p : A -> bool) (l : list A) (a : A) :
  a ∈ l -> p a = true -> is_Some (findIndex p l).
Proof.
  induction l as [|b l IH]; intros Hin Hp; [by apply elem_of_nil in Hin|].
  simpl. destruct (p b) eqn:Hb; [by eexists|].
  apply elem_of_cons in Hin as [->|Hin]; [congruence|].
  destruct (IH Hin Hp) as [k ->]. by eexists.
Qed.

Lemma findIndex_roster (i : Z) (l l' : list FlipFlopState) :
  roster l = roster l' ->
  findIndex (fun ff => Z.eqb (ff_id ff) i) l
  = findIndex (fun ff => Z.eqb (ff_id ff) i) l'.
Proof.
  revert l'. induction l as [|a l IH]; intros [|b l']; simpl; try done.
  intros [= Hi _ _ Hrest]. rewrite Hi, (IH l' Hrest). done.
Qed.

(** X9: for every flip-flop element of the netlist, in every state
    reachable after mount, the lookup of its state by id in
    [handleSignalArrival] succeeds: the [ffIndex === -1] exit is never
    taken for an element of the netlist. *)
Theorem flipFlop_state_found (els : list IElement) (conns : list IConnection)
    (trace : list Event) (el : IElement) :
  el ∈ els ->
  isFlipFlop el = true ->
  exists (k : nat) (ff : FlipFlopState),
    findIndex (fun ff => Z.eqb (ff_id ff) (el_id el))
      (flipFlopStates (run (initialState els conns) trace)) = Some k
    /\ flipFlopStates (run (initialState els conns) trace) !! k = Some ff
    /\ ff_id ff = el_id el.
Proof.
  intros Hin Hff.
  set (p := fun ff => Z.eqb (ff_id ff) (el_id el)).
  assert (is_Some (findIndex p (flipFlopStates (initialState els conns))))
    as [k Hk].
  { apply (findIndex_exists p _ (initFlipFlop el)).
    - simpl. apply list_elem_of_In, in_map. apply filter_In.
      split; [by apply list_elem_of_In | exact Hff].
    - subst p. simpl. apply Z.eqb_refl. }
  exists k.
  unfold p in Hk.
  rewrite (findIndex_roster (el_id el) _ _
             (eq_sym (run_roster (initialState els conns) trace)))
    in Hk.
  fold p in Hk. fold p. destruct (findIndex_Some p _ _ Hk) as (ff & Hlook & Hp).
  exists ff. split; [exact Hk|]. split; [exact Hlook|].
  subst p. by apply Z.eqb_eq.
Qed.

Lemma flipFlop_state_found_witness :
  exists (k : nat) (ff : FlipFlopState),
    findIndex (fun ff => Z.eqb (ff_id ff) 3)
      (flipFlopStates (run Demo.mounted Demo.untilLatch)) = Some k
    /\ flipFlopStates (run Demo.mounted Demo.untilLatch) !! k = Some ff
    /\ ff_id ff = 3.
Proof.
  apply (flipFlop_state_found Demo.netElements Demo.netConnections
           Demo.untilLatch Demo.netFlipFlop).
  - vm_compute. do 2 right. left.
  - reflexivity.
Defined.

(** ** Stop and start *)

(** X10: stopping and starting again empties the signals in flight and
    the lit outputs, and nothing else: the flip-flop states (latched
    outputs included), the active inputs, the clock frequency and the
    pending timeouts are the ones before the stop. *)
Theorem stop_start_keeps_memory (s : SimState) :
  runningSimulation s = true ->
  let s' := step (step s (Playing false)) (Playing true) in
  runningSimulation s' = true
  /\ activeSignals s' = []
  /\ activeOutputs s' = ∅
  /\ flipFlopStates s' = flipFlopStates s
  /\ activeInputs s' = activeInputs s
  /\ clockFrequency s' = clockFrequency s
  /\ pendingTimeouts s' = pendingTimeouts s
  /\ activeFlipFlopInputs s' = activeFlipFlopInputs s.
Proof.
  destruct s as [els conns running f signals ffs ins outs ffins tos dr wd md ce].
  simpl. intros ->. vm_compute. repeat split.
Qed.

Lemma stop_start_keeps_memory_witness :
  let s := run Demo.mounted Demo.untilLatch in
  let s' := step (step s (Playing false)) (Playing true) in
  outputValue <$> flipFlopStates s' = [true]
  /\ flipFlopStates s' = flipFlopStates s.
Proof.
  intros s s'.
  destruct (stop_start_keeps_memory s) as (_ & _ & _ & Hff & _);
    [reflexivity|].
  split; [|exact Hff]. subst s'. rewrite Hff. reflexivity.
Defined.

(** ** Emission tick *)

Lemma existsb_signalsOn (w : string) (l : list Signal) :
  existsb (fun s => String.eqb (connectionName s) w) l
  = negb (signalsOn w l =? 0)%nat.
Proof.
  unfold signalsOn. induction l as [|s l IH]; simpl; [done|].
  destruct (String.eqb (connectionName s) w); simpl; [done | exact IH].
Qed.

Lemma emitOn_count (els : list IElement) (now : Q) (l : list Signal)
    (conn : IConnection) (w : string) :
  signalsOn w (emitOn els now l conn)
  = (signalsOn w l
     + if (signalsOn w l =? 0)%nat
          && (String.eqb (conn_name conn) w && resolvable els conn)
       then 1 else 0)%nat.
Proof.
  unfold emitOn, resolvable. rewrite existsb_signalsOn.
  destruct (String.eqb_spec (conn_name conn) w) as [Heq|Hne].
  - rewrite Heq. destruct (signalsOn w l =? 0)%nat eqn:Hfree; simpl; [|lia].
    rewrite <- Heq.
    destruct (findSource els (conn_name conn)); [|lia].
    destruct (findDest els (conn_name conn)); [|lia].
    rewrite signalsOn_app. unfold signalsOn at 2. simpl.
    rewrite Heq, String.eqb_refl. simpl. lia.
  - rewrite Bool.andb_false_r.
    destruct (negb _); [lia|].
    destruct (findSource els (conn_name conn)); [|lia].
    destruct (findDest els (conn_name conn)); [|lia].
    rewrite signalsOn_app. unfold signalsOn at 2. simpl.
    apply String.eqb_neq in Hne. rewrite Hne. simpl. lia.
Qed.

(** X11: the emission tick, wire by wire: a wire that carries a signal
    keeps exactly what it carries; a free wire gets one signal when some
    clock or active-input connection has its name and both its ends
    resolve, and stays free otherwise (an unresolvable connection emits
    nothing). *)
Theorem emission_tick_per_wire (els : list IElement)
    (conns : list IConnection) (active : list Z) (clockElement : IElement)
    (now : Q) (prevSignals : list Signal) (w : string) :
  signalsOn w (clockIntervalTick els conns active clockElement now prevSignals)
  = (signalsOn w prevSignals
     + if (signalsOn w prevSignals =? 0)%nat
          && emitsOn els (allSignalSources els conns active clockElement) w
       then 1 else 0)%nat.
Proof.
  unfold clockIntervalTick. fold (allSignalSources els conns active clockElement).
  generalize (allSignalSources els conns active clockElement) as sources.
  intros sources. revert prevSignals.
  induction sources as [|conn sources IH]; intros prev; simpl.
  - rewrite Bool.andb_false_r. lia.
  - rewrite IH, emitOn_count.
    destruct (signalsOn w prev =? 0)%nat eqn:Hfree; simpl.
    + apply Nat.eqb_eq in Hfree. rewrite Hfree.
      destruct (String.eqb (conn_name conn) w && resolvable els conn); simpl.
      * lia.
      * reflexivity.
    + apply Nat.eqb_neq in Hfree.
      replace (signalsOn w prev + 0)%nat with (signalsOn w prev) by lia.
      destruct (signalsOn w prev =? 0)%nat eqn:Hfree';
        [apply Nat.eqb_eq in Hfree'; lia | simpl; lia].
Qed.

Lemma signalsOn_app_zero (w : string) (l1 l2 : list Signal) :
  signalsOn w (l1 ++ l2) = 0%nat -> signalsOn w l1 = 0%nat.
Proof. rewrite signalsOn_app. lia. Qed.

(** X12: the emission tick never drops or changes a signal: its result
    is the previous list followed by the new signals.  Every new signal
    starts at progress 0, is stamped with the time of the tick, sits on a
    wire that was free, and belongs to a connection of the netlist whose
    ends both resolve and whose source is the clock element or a module
    input that is active. *)
Theorem emission_tick_appends (els : list IElement)
    (conns : list IConnection) (active : list Z) (clockElement : IElement)
    (now : Q) (prevSignals : list Signal) :
  exists new : list Signal,
    clockIntervalTick els conns active clockElement now prevSignals
    = prevSignals ++ new
    /\ Forall
         (fun signal =>
            position signal = 0%Q
            /\ createdAt signal = now
            /\ signalsOn (connectionName signal) prevSignals = 0%nat
            /\ exists conn source dest,
                 conn ∈ conns
                 /\ conn_name conn = connectionName signal
                 /\ findSource els (conn_name conn) = Some source
                 /\ findDest els (conn_name conn) = Some dest
                 /\ (el_id source = el_id clockElement
                     \/ (el_type source = "module_input"
                         /\ el_id source ∈ active)))
         new.
Proof.
  unfold clockIntervalTick.
  assert (Forall
            (fun conn =>
               conn ∈ conns
               /\ exists source,
                    findSource els (conn_name conn) = Some source
                    /\ (el_id source = el_id clockElement
                        \/ (el_type source = "module_input"
                            /\ el_id source ∈ active)))
            (clockConnections els conns clockElement
             ++ inputConnections els conns active)) as Hsrc.
  { apply Forall_app. split; apply Forall_forall; intros conn Hin;
      apply list_elem_of_In, filter_In in Hin as [Hin Hp];
      (split; [by apply list_elem_of_In|]);
      destruct (findSource els (conn_name conn)) as [source|]; try done;
      exists source; split; try done.
    - left. by apply Z.eqb_eq.
    - right. apply Bool.andb_true_iff in Hp as [Ht Hact].
      split; [by apply String.eqb_eq | by apply existsb_Zeqb_elem]. }
  revert Hsrc.
  generalize (clockConnections els conns clockElement
              ++ inputConnections els conns active) as sources.
  intros sources. revert prevSignals.
  induction sources as [|conn sources IH]; intros prev Hsrc; simpl.
  - exists []. by rewrite app_nil_r.
  - apply Forall_cons in Hsrc as [(Hconn & source & Hsource & Hwho) Hsrc].
    destruct (IH (emitOn els now prev conn) Hsrc) as (new & -> & Hnew).
    unfold emitOn in *. rewrite existsb_signalsOn in *.
    destruct (signalsOn (conn_name conn) prev =? 0)%nat eqn:Hfree; simpl in *;
      [|by exists new].
    rewrite Hsource in *.
    destruct (findDest els (conn_name conn)) as [dest|] eqn:Hdest;
      [|by exists new].
    exists (newSignal source dest conn now :: new).
    split; [by rewrite <- app_assoc|].
    constructor.
    + simpl. repeat split. { by apply Nat.eqb_eq. }
      exists conn, source, dest. by rewrite Hsource, Hdest.
    + eapply Forall_impl; [exact Hnew|]. simpl.
      intros signal (Hp & Hc & Hz & Hex). repeat split; try done.
      by apply signalsOn_app_zero in Hz.
Qed.

(** ** Click and drag *)

Lemma toggleInput_NoDup (i : Z) (prev : list Z) :
  NoDup prev -> NoDup (toggleInput i prev).
Proof.
  intros Hnd. unfold toggleInput.
  destruct (existsb (Z.eqb i) prev) eqn:Hact.
  - apply NoDup_ListNoDup, List.NoDup_filter. by apply NoDup_ListNoDup.
  - apply NoDup_app. split; [exact Hnd|]. split; [|apply NoDup_singleton].
    intros j Hj Hj'. apply list_elem_of_singleton in Hj'. subst j.
    apply existsb_Zeqb_elem in Hj. congruence.
Qed.

(** X13: a click, that is a mouse-down followed by a mouse-up without a
    move in between, toggles the first element of the array under the
    cursor when that element is a module input, and changes no active
    input when it is anything else or when the cursor is over no
    element; the pointer state is cleared and the netlist and the
    flip-flops are untouched. *)
Theorem click_toggles_input (canvasX canvasY : Q) (s : SimState) :
  let s' := step (step s (MouseDown canvasX canvasY)) MouseUp in
  activeInputs s'
  = match List.find (hitTest canvasX canvasY) (elements s) with
    | Some el =>
        if String.eqb (el_type el) "module_input"
        then toggleInput (el_id el) (activeInputs s)
        else activeInputs s
    | None => activeInputs s
    end
  /\ clickedElement s' = None
  /\ draggingElement s' = None
  /\ elementWasDragged s' = false
  /\ elements s' = elements s
  /\ flipFlopStates s' = flipFlopStates s.
Proof.
  destruct s as [els conns running f signals ffs ins outs ffins tos dr wd md ce].
  simpl. unfold handleMouseDown. simpl.
  change (fun el : IElement =>
            Qle_bool (orZero (el_x el)) canvasX
            && Qle_bool canvasX (orZero (el_x el) + 50)
            && Qle_bool (orZero (el_y el)) canvasY
            && Qle_bool canvasY (orZero (el_y el) + 50))
    with (hitTest canvasX canvasY).
  destruct (List.find (hitTest canvasX canvasY) els) as [el|].
  - unfold handleMouseUp, simulationEffect. simpl.
    destruct (String.eqb (el_type el) "module_input"); simpl;
      [destruct running|]; simpl; repeat split.
  - unfold handleMouseUp. simpl.
    destruct (bool_decide (dr <> None)); simpl; repeat split.
Qed.

(** X14: in every state reachable after mount the active-input array
    lists no id twice. *)
Theorem activeInputs_NoDup (els : list IElement) (conns : list IConnection)
    (trace : list Event) :
  NoDup (activeInputs (run (initialState els conns) trace)).
Proof.
  unfold run. apply fold_left_preserves; [|apply NoDup_nil_2].
  intros s e Hnd.
  destruct e as [playing| |f|cx cy| |now|now|now|now|k now]; simpl.
  - unfold setPlaying, simulationEffect, outputsEffect.
    destruct (Bool.eqb playing (runningSimulation s)); [done|].
    by destruct playing.
  - unfold resetTriggered, simulationEffect. simpl.
    destruct (runningSimulation s); apply NoDup_nil_2.
  - unfold handleClockFrequencyChange, simulationEffect.
    destruct (Qeq_bool _ _); [done|]. simpl. by destruct (runningSimulation s).
  - unfold handleMouseDown. by destruct (List.find _ (elements s)).
  - unfold handleMouseUp, simulationEffect.
    repeat match goal with
           | |- context [match ?x with _ => _ end] => destruct x; simpl
           end; auto using toggleInput_NoDup.
  - destruct (runningSimulation s); [|done].
    by destruct (findClock (elements s)).
  - destruct (runningSimulation s); [|done].
    destruct (findClock (elements s)); [|done].
    rewrite signalIntervalTick_calls. simpl.
    generalize (dispatched (signalStep (clockFrequency s)) (activeSignals s)).
    intros arrivals. revert s Hnd.
    induction arrivals as [|a arrivals IH]; intros s Hnd; simpl; [done|].
    apply IH. revert Hnd. unfold handleSignalArrival, flipFlopArrival.
    repeat match goal with
           | |- context [match ?x with _ => _ end] => destruct x; simpl
           end; auto.
  - by destruct (runningSimulation s).
  - by destruct (runningSimulation s).
  - destruct (pendingTimeouts s !! k) as [t|]; [|done].
    by destruct (Qle_bool (to_due t) now).
Qed.

(** X15: a mouse move while no element is dragged changes nothing.  A
    move while an element is dragged re-centres every element with the
    dragged id on the cursor (so the cursor is inside it), whether or
    not the move is long enough to count as a drag; every other element
    is kept as it is, no element is added or removed, nothing but
    coordinates changes, and the drag flag is never lowered. *)
Theorem handleMouseMove_drags (dragged : Z) (dragStartPos : option Point)
    (elementWasDragged : bool) (canvasX canvasY : Q) (els : list IElement) :
  handleMouseMove None dragStartPos elementWasDragged canvasX canvasY els
  = (elementWasDragged, els)
  /\ let moved :=
       handleMouseMove (Some dragged) dragStartPos elementWasDragged
         canvasX canvasY els in
     implb elementWasDragged moved.1 = true
     /\ map forgetPosition moved.2 = map forgetPosition els
     /\ Forall2
          (fun el el' =>
             if Z.eqb (el_id el) dragged then
               el_x el' = Some (canvasX - 25)%Q
               /\ el_y el' = Some (canvasY - 25)%Q
               /\ hitTest canvasX canvasY el' = true
             else el' = el)
          els moved.2.
Proof.
  split; [reflexivity|]. simpl. split; [by destruct elementWasDragged|].
  unfold dragUpdate. split.
  - induction els as [|el els IH]; simpl; [done|]. rewrite IH. f_equal.
    by destruct (Z.eqb (el_id el) dragged).
  - induction els as [|el els IH]; simpl; constructor; [|exact IH].
    destruct (Z.eqb (el_id el) dragged) eqn:Hid; simpl; [|done].
    split; [done|]. split; [done|].
    unfold hitTest. simpl. rewrite !Bool.andb_true_iff, !Qle_bool_iff.
    repeat split; lra.
Qed.

(** ** Layout planner: positions are a function of the graph *)

Lemma find_map_inv {A : Type} (f : A -> A) (p : A -> bool) (l : list A) :
  (forall a, p (f a) = p a) ->
  List.find p (map f l) = option_map f (List.find p l).
Proof.
  intros Hp. induction l as [|a l IH]; simpl; [done|].
  rewrite Hp. by destruct (p a).
Qed.

Lemma fold_left_ext {A B : Type} (f g : A -> B -> A) (l : list B) (a : A) :
  (forall a b, f a b = g a b) -> fold_left f l a = fold_left g l a.
Proof.
  intros Hfg. revert a. induction l as [|b l IH]; intros a; simpl; [done|].
  by rewrite Hfg, IH.
Qed.

Section ForgetPositions.

Variable els : list IElement.

Lemma findSource_forget (w : string) :
  findSource (map forgetPosition els) w = option_map forgetPosition (findSource els w).
Proof. unfold findSource. by apply find_map_inv. Qed.

Lemma findDest_forget (w : string) :
  findDest (map forgetPosition els) w = option_map forgetPosition (findDest els w).
Proof. unfold findDest. by apply find_map_inv. Qed.

Lemma findById_forget (i : Z) :
  findById (map forgetPosition els) i = option_map forgetPosition (findById els i).
Proof. unfold findById. by apply find_map_inv. Qed.

Lemma initGraph_forget : initGraph (map forgetPosition els) = initGraph els.
Proof.
  unfold initGraph. generalize (∅ : gmap Z (list Z)).
  induction els as [|el l IH]; intros g; simpl; [done|]. apply IH.
Qed.

Lemma buildGraph_forget (connections : list IConnection) :
  buildGraph (map forgetPosition els) connections = buildGraph els connections.
Proof.
  unfold buildGraph. rewrite initGraph_forget. apply fold_left_ext.
  intros g conn. unfold addConnection.
  rewrite findSource_forget, findDest_forget.
  destruct (findSource els (conn_name conn)); simpl; [|done].
  by destruct (findDest els (conn_name conn)).
Qed.

Lemma sourceLayers_forget : sourceLayers (map forgetPosition els) = sourceLayers els.
Proof.
  unfold sourceLayers. induction els as [|el l IH]; simpl; [done|].
  rewrite !filter_cons. change (isSourceElement (forgetPosition el))
    with (isSourceElement el).
  destruct (decide (isSourceElement el = true)); simpl; by rewrite IH.
Qed.

Lemma inputElements_forget (ins : list Port) :
  inputElements (map forgetPosition els) ins = inputElements els ins.
Proof.
  unfold inputElements. induction ins as [|p ins IH]; simpl; [done|].
  rewrite findSource_forget.
  destruct (findSource els (wireName p)); simpl; [f_equal|]; exact IH.
Qed.

Lemma visitDest_forget (acc : list Z * gset Z) (destId : Z) :
  visitDest (map forgetPosition els) acc destId = visitDest els acc destId.
Proof.
  unfold visitDest. destruct acc as [nextLayer visited].
  rewrite findById_forget.
  destruct (findById els destId) as [el|]; [|done].
  cbn [option_map]. change (el_inputs (forgetPosition el)) with (el_inputs el).
  destruct (el_inputs el); [|done]. by rewrite inputElements_forget.
Qed.

Lemma bfsLoop_forget (fuel : nat) (g : gmap Z (list Z)) (visited : gset Z)
    (layers : list (list Z)) (currentLayer : list Z) :
  bfsLoop fuel (map forgetPosition els) g visited layers currentLayer
  = bfsLoop fuel els g visited layers currentLayer.
Proof.
  revert visited layers currentLayer.
  induction fuel as [|fuel IH]; intros visited layers cur; [by destruct cur|].
  destruct cur as [|c cur]; [done|]. cbn [bfsLoop].
  assert (expandLayer (map forgetPosition els) g visited (c :: cur)
          = expandLayer els g visited (c :: cur)) as ->.
  { unfold expandLayer. apply fold_left_ext. intros acc srcId.
    apply fold_left_ext. apply visitDest_forget. }
  destruct (expandLayer els g visited (c :: cur)). apply IH.
Qed.

(** The layers do not depend on the coordinates of the elements. *)
Lemma computeLayers_forget (fuel : nat) (connections : list IConnection) :
  computeLayers fuel (map forgetPosition els) connections = computeLayers fuel els connections.
Proof.
  unfold computeLayers.
  rewrite buildGraph_forget, sourceLayers_forget, bfsLoop_forget.
  assert (map el_id (map forgetPosition els) = map el_id els) as ->; [|done].
  rewrite map_map. done.
Qed.

End ForgetPositions.

Lemma forEachIndexed_preserves {A : Type} (P : heap -> Prop)
    (f : heap -> nat -> A -> heap) (xs : list A) (index : nat) (h : heap) :
  (forall h i v, P h -> P (f h i v)) -> P h -> P (forEachIndexed f h index xs).
Proof.
  intros Hf. revert index h.
  induction xs as [|v xs IH]; intros index h Hh; simpl; auto.
Qed.

(** The writes stay inside the array: an object the array does not
    reference is never written, and no object is created or dropped. *)
Lemma assignPositions_frame (arr : list loc) (h : heap)
    (layers : list (list Z)) :
  length (assignPositions arr h layers) = length h
  /\ forall l, l ∉ arr -> assignPositions arr h layers !! l = h !! l.
Proof.
  unfold assignPositions.
  apply (forEachIndexed_preserves
           (fun h' => length h' = length h
                      /\ forall l, l ∉ arr -> h' !! l = h !! l));
    [|by split].
  intros h1 li layer Hh1. unfold placeLayer.
  apply forEachIndexed_preserves; [|exact Hh1].
  intros h2 idx i [Hlen Hout]. unfold placeElement.
  destruct (findRef h2 _ arr) as [l0|] eqn:Hfind; [|by split].
  apply findRef_Some in Hfind as [Hin0 _].
  destruct (h2 !! l0); [|by split]. split.
  - by rewrite length_insert.
  - intros l Hl. rewrite list_lookup_insert_ne; [by apply Hout|].
    intros ->. by apply Hl.
Qed.

Lemma deref_ext (h h' : heap) (arr : list loc) :
  (forall l, l ∈ arr -> h !! l = h' !! l) -> deref h arr = deref h' arr.
Proof.
  induction arr as [|l arr IH]; intros Hext; [done|].
  rewrite !deref_cons, (Hext l) by by left.
  rewrite IH; [done|]. intros l' Hl'. apply Hext. by right.
Qed.

Lemma deref_forget_lookup (h1 h2 : heap) (arr : list loc) :
  validRefs h1 arr -> validRefs h2 arr ->
  map forgetPosition (deref h1 arr) = map forgetPosition (deref h2 arr) ->
  forall l e1, l ∈ arr -> h1 !! l = Some e1 ->
    exists e2, h2 !! l = Some e2 /\ forgetPosition e2 = forgetPosition e1.
Proof.
  unfold validRefs. induction arr as [|l0 arr IH]; intros Hv1 Hv2 Heq l e1 Hin Hl.
  - by apply elem_of_nil in Hin.
  - apply Forall_cons in Hv1 as [[a1 Ha1] Hv1].
    apply Forall_cons in Hv2 as [[a2 Ha2] Hv2].
    rewrite !deref_cons, Ha1, Ha2 in Heq. cbn [map] in Heq.
    pose proof (f_equal (hd (forgetPosition a1)) Heq) as Hhead.
    pose proof (f_equal (@tl _) Heq) as Htail.
    cbn [hd tl] in Hhead, Htail.
    apply elem_of_cons in Hin as [->|Hin].
    + exists a2. split; [done|]. congruence.
    + by apply (IH Hv1 Hv2 Htail).
Qed.

(** The layout of a valid array with distinct ids, reference by
    reference. *)
Lemma arrange_pointwise (fuel : nat) (h : heap) (arr : list loc)
    (connections : list IConnection) :
  validRefs h arr -> uniqueIds h arr -> (length arr < fuel)%nat ->
  exists layers,
    computeLayers fuel (deref h arr) connections = Some layers
    /\ NoDup (concat layers)
    /\ arrangeElements fuel h arr connections
       = Some (assignPositions arr h layers, arr)
    /\ forall l el, l ∈ arr -> h !! l = Some el ->
         exists (layerIndex idx : nat) (layer : list Z),
           layers !! layerIndex = Some layer
           /\ layer !! idx = Some (el_id el)
           /\ assignPositions arr h layers !! l
              = Some (setPosition el
                        (inject_Z (100 + Z.of_nat layerIndex * 200))
                        (inject_Z (100 + Z.of_nat idx * 100))).
Proof.
  intros Hv Hu Hfuel.
  destruct (computeLayers_total (deref h arr) connections Hu)
    as (visited & bfsLayers & layers & Hrun & _ & _ & Hnd & Hcover).
  rewrite <- (length_deref h arr Hv) in Hfuel.
  destruct (Hrun fuel Hfuel) as [_ Hcomp].
  exists layers. split; [exact Hcomp|]. split; [exact Hnd|]. split.
  - unfold arrangeElements. destruct arr as [|l0 arr]; [|by rewrite Hcomp].
    do 2 f_equal. symmetry. apply list_eq. intros l.
    apply assignPositions_frame, not_elem_of_nil.
  - intros l el Hin Hl.
    assert (el_id el ∈ concat layers) as Hmem.
    { apply Hcover. apply list_elem_of_In, in_map_iff. exists el.
      split; [done|]. apply list_elem_of_In. by apply (elem_of_deref h _ l). }
    apply list_elem_of_In, in_concat in Hmem as (layer & Hlayer & Hid).
    apply list_elem_of_In, list_elem_of_lookup_1 in Hlayer as [li Hli].
    apply list_elem_of_In, list_elem_of_lookup_1 in Hid as [idx Hidx].
    exists li, idx, layer. split; [exact Hli|]. split; [exact Hidx|].
    destruct (assignPositions_lookup arr layers Hnd 0 h Hv Hu l el Hin Hl)
      as (el' & Hl' & _ & _ & Hat).
    unfold assignPositions. rewrite Hl'. f_equal.
    apply (Hat li idx layer Hli Hidx).
Qed.

(** X16: the layout depends on the netlist only, not on where the
    elements are: two stores that hold the same elements up to their
    coordinates (for instance before and after any dragging) are laid
    out identically. *)
Theorem arrangeElements_ignores_positions (fuel : nat) (h1 h2 : heap)
    (elements : list loc) (connections : list IConnection) :
  validRefs h1 elements -> validRefs h2 elements ->
  uniqueIds h1 elements ->
  map forgetPosition (deref h1 elements)
  = map forgetPosition (deref h2 elements) ->
  (length elements < fuel)%nat ->
  exists h1' h2',
    arrangeElements fuel h1 elements connections = Some (h1', elements)
    /\ arrangeElements fuel h2 elements connections = Some (h2', elements)
    /\ deref h1' elements = deref h2' elements.
Proof.
  intros Hv1 Hv2 Hu1 Hsame Hfuel.
  assert (uniqueIds h2 elements) as Hu2.
  { unfold uniqueIds in *.
    assert (map el_id (deref h2 elements)
            = map el_id (map forgetPosition (deref h2 elements))) as ->
      by by rewrite map_map.
    rewrite <- Hsame, map_map. exact Hu1. }
  destruct (arrange_pointwise fuel h1 elements connections Hv1 Hu1 Hfuel)
    as (layers1 & Hc1 & Hnd1 & Harr1 & Hat1).
  destruct (arrange_pointwise fuel h2 elements connections Hv2 Hu2 Hfuel)
    as (layers2 & Hc2 & Hnd2 & Harr2 & Hat2).
  assert (layers2 = layers1) as ->.
  { rewrite <- computeLayers_forget, Hsame, computeLayers_forget in Hc1.
    congruence. }
  eexists _, _. split; [exact Harr1|]. split; [exact Harr2|].
  apply deref_ext. intros l Hin.
  destruct (proj1 (Forall_forall _ _) Hv1 l Hin) as [e1 He1].
  destruct (deref_forget_lookup h1 h2 elements Hv1 Hv2 Hsame l e1 Hin He1)
    as (e2 & He2 & Hforget).
  destruct (Hat1 l e1 Hin He1) as (li & idx & layer & Hli & Hidx & Hl1).
  destruct (assignPositions_lookup elements layers1 Hnd2 0 h2 Hv2 Hu2
              l e2 Hin He2) as (e2' & Hl2 & _ & _ & Hat).
  fold (assignPositions elements h2 layers1) in Hl2. rewrite Hl1, Hl2.
  assert (el_id e2 = el_id e1) as Hid
    by (change (el_id (forgetPosition e2) = el_id (forgetPosition e1));
        by rewrite Hforget).
  rewrite (Hat li idx layer Hli) by (by rewrite Hid).
  f_equal. unfold setPosition.
  injection Hforget as -> -> -> -> ->. reflexivity.
Qed.

Lemma forget_deref_pointwise (h h' : heap) (arr : list loc) :
  validRefs h arr ->
  (forall l el, l ∈ arr -> h !! l = Some el ->
     exists el', h' !! l = Some el'
                 /\ forgetPosition el' = forgetPosition el) ->
  map forgetPosition (deref h' arr) = map forgetPosition (deref h arr).
Proof.
  unfold validRefs. induction arr as [|l arr IH]; intros Hv Hsame; [done|].
  apply Forall_cons in Hv as [[el Hl] Hv].
  destruct (Hsame l el) as (el' & Hl' & Hforget); [by left | done |].
  rewrite !deref_cons, Hl, Hl'. cbn [map]. rewrite Hforget. f_equal.
  apply IH; [exact Hv|]. intros l0 el0 Hin. apply Hsame. by right.
Qed.

(** X17: arranging an arranged netlist changes nothing: the second run
    returns the store of the first, object for object. *)
Theorem arrangeElements_idempotent (fuel : nat) (h : heap)
    (elements : list loc) (connections : list IConnection) :
  validRefs h elements -> uniqueIds h elements ->
  (length elements < fuel)%nat ->
  exists h',
    arrangeElements fuel h elements connections = Some (h', elements)
    /\ arrangeElements fuel h' elements connections = Some (h', elements).
Proof.
  intros Hv Hu Hfuel.
  destruct (arrange_pointwise fuel h elements connections Hv Hu Hfuel)
    as (layers & Hc & Hnd & Harr & Hat).
  set (h' := assignPositions elements h layers) in *.
  exists h'. split; [exact Harr|].
  assert (forall l el, l ∈ elements -> h !! l = Some el ->
            exists el', h' !! l = Some el' /\ el_id el' = el_id el) as Hids.
  { intros l el Hin Hl.
    destruct (Hat l el Hin Hl) as (li & idx & layer & _ & _ & ->).
    by eexists. }
  destruct (ids_preserved h h' elements Hv Hu Hids) as [Hv' Hu'].
  destruct (arrange_pointwise fuel h' elements connections Hv' Hu' Hfuel)
    as (layers' & Hc' & Hnd' & Harr' & _).
  assert (map forgetPosition (deref h' elements)
          = map forgetPosition (deref h elements)) as Hsame.
  { apply forget_deref_pointwise; [exact Hv|]. intros l el Hin Hl.
    destruct (Hat l el Hin Hl) as (li & idx & layer & _ & _ & ->).
    by eexists. }
  assert (layers' = layers) as ->.
  { rewrite <- computeLayers_forget, Hsame, computeLayers_forget in Hc'.
    congruence. }
  rewrite Harr'. do 2 f_equal.
  destruct (assignPositions_frame elements h' layers) as [Hlen Hout].
  apply list_eq. intros l.
  destruct (decide (l ∈ elements)) as [Hin|Hnin]; [|by apply Hout].
  destruct (proj1 (Forall_forall _ _) Hv l Hin) as [el Hl].
  destruct (Hat l el Hin Hl) as (li & idx & layer & Hli & Hidx & Hl').
  destruct (assignPositions_lookup elements layers Hnd 0 h' Hv' Hu'
              l _ Hin Hl') as (el'' & Hl'' & _ & _ & Hat'').
  fold (assignPositions elements h' layers) in Hl''. rewrite Hl'', Hl'.
  f_equal. by rewrite (Hat'' li idx layer Hli Hidx).
Qed.

Lemma arrangeElements_ignores_positions_witness :
  exists h1' h2',
    arrangeElements 5 Demo.rawHeap Demo.rawElements Demo.netConnections
    = Some (h1', Demo.rawElements)
    /\ arrangeElements 5
         (dragUpdate 3 40 700 Demo.rawHeap) Demo.rawElements
         Demo.netConnections
       = Some (h2', Demo.rawElements)
    /\ deref h1' Demo.rawElements = deref h2' Demo.rawElements.
Proof.
  apply arrangeElements_ignores_positions.
  - repeat constructor; eexists; reflexivity.
  - repeat constructor; eexists; reflexivity.
  - unfold uniqueIds. apply (bool_decide_unpack (NoDup _)).
    vm_compute. exact I.
  - reflexivity.
  - simpl. lia.
Defined.

Lemma arrangeElements_idempotent_witness :
  exists h',
    arrangeElements 4 Demo.loopHeap Demo.loopElements Demo.loopConnections
    = Some (h', Demo.loopElements)
    /\ arrangeElements 4 h' Demo.loopElements Demo.loopConnections
       = Some (h', Demo.loopElements).
Proof.
  apply arrangeElements_idempotent.
  - repeat constructor; eexists; reflexivity.
  - unfold uniqueIds. apply (bool_decide_unpack (NoDup _)).
    vm_compute. exact I.
  - simpl. lia.
Defined.

(** ** Length of a route *)

Lemma Qabs_diag (x : Q) : (Qabs (x - x) == 0)%Q.
Proof.
  assert (x - x == 0)%Q as -> by ring. reflexivity.
Qed.

Lemma Qabs_halves (a : Q) : (Qabs (a / 2) + Qabs (a / 2) == Qabs a)%Q.
Proof.
  destruct (Qlt_le_dec a 0) as [Hneg|Hpos].
  - rewrite (Qabs_neg a) by lra. rewrite (Qabs_neg (a / 2)).
    + field.
    + apply Qle_shift_div_r; lra.
  - rewrite (Qabs_pos a) by exact Hpos. rewrite (Qabs_pos (a / 2)).
    + field.
    + apply Qle_shift_div_l; lra.
Qed.

(** X18: the length of a routed path, which every emitted signal stores
    as its total length, is the horizontal plus the vertical distance
    between the two ports; it is never negative. *)
Theorem route_length_manhattan (sourceElement destElement : IElement)
    (connection : IConnection) (now : Q) :
  let a := getPortPosition sourceElement POutput (conn_name connection) in
  let b := getPortPosition destElement PInput (conn_name connection) in
  let signal := newSignal sourceElement destElement connection now in
  totalLength signal
  = pathLength (calculateOrthogonalPath sourceElement destElement connection)
  /\ (totalLength signal
      == Qabs (px b - px a) + Qabs (py b - py a))%Q
  /\ (0 <= totalLength signal)%Q.
Proof.
  intros a b signal.
  assert (totalLength signal
          == Qabs (px b - px a) + Qabs (py b - py a))%Q as Hlen.
  { subst signal. unfold newSignal. cbn [totalLength].
    unfold calculateOrthogonalPath.
    rewrite !portNameOr_connection. fold a. fold b.
    destruct a as [sx sy], b as [ex ey].
    cbn [pathLength px py]. unfold segmentLength. cbn [px py].
    rewrite !Qabs_diag.
    assert (sx + (ex - sx) / 2 - sx == (ex - sx) / 2)%Q as -> by field.
    assert (ex - (sx + (ex - sx) / 2) == (ex - sx) / 2)%Q as -> by field.
    rewrite <- (Qabs_halves (ex - sx)). ring. }
  split; [reflexivity|]. split; [exact Hlen|].
  rewrite Hlen.
  pose proof (Qabs_nonneg (px b - px a)).
  pose proof (Qabs_nonneg (py b - py a)). lra.
Qed.

(** ** Layout planner: order of the layers *)

Lemma driversFirst_snoc (els : list IElement) (order : list Z) (i : Z) :
  driversFirst els order ->
  (i ∈ sourceLayers els \/ forall d, d ∈ driversOf els i -> d ∈ order) ->
  driversFirst els (order ++ [i]).
Proof.
  intros Hold Hnew k j Hk.
  destruct (decide (k < length order)%nat) as [Hlt|Hge].
  - rewrite lookup_app_l in Hk by done.
    rewrite take_app_le by lia. by apply Hold.
  - assert (k = length order) as ->.
    { apply lookup_lt_Some in Hk. rewrite length_app in Hk. simpl in Hk. lia. }
    rewrite lookup_app_r, Nat.sub_diag in Hk by lia.
    injection Hk as <-. by rewrite take_app_length.
Qed.

Lemma visitDest_order (els : list IElement) (placed : list Z)
    (acc : list Z * gset Z) (destId : Z) :
  acc.2 = list_to_set (placed ++ acc.1) ->
  driversFirst els (placed ++ acc.1) ->
  (visitDest els acc destId).2
  = list_to_set (placed ++ (visitDest els acc destId).1)
  /\ driversFirst els (placed ++ (visitDest els acc destId).1).
Proof.
  destruct acc as [nextLayer visited]. simpl. intros Hvis Hord.
  unfold visitDest.
  destruct (decide (destId ∈ visited)); [done|].
  destruct (findById els destId) as [el|] eqn:Hfind; [|done].
  destruct (el_inputs el) as [ins|] eqn:Hins; [|done].
  destruct (forallb _ (inputElements els ins)) eqn:Hall; [|done].
  simpl. split.
  - rewrite app_assoc, list_to_set_app_L, <- Hvis. set_solver.
  - rewrite app_assoc. apply driversFirst_snoc; [exact Hord|].
    right. intros d Hd. unfold driversOf in Hd. rewrite Hfind, Hins in Hd.
    rewrite forallb_forall in Hall.
    apply list_elem_of_In, Hall, bool_decide_eq_true in Hd.
    rewrite Hvis in Hd. by apply elem_of_list_to_set in Hd.
Qed.

Lemma expandLayer_order (els : list IElement) (g : gmap Z (list Z))
    (placed : list Z) (visited : gset Z) (currentLayer : list Z) :
  visited = list_to_set placed ->
  driversFirst els placed ->
  (expandLayer els g visited currentLayer).2
  = list_to_set (placed ++ (expandLayer els g visited currentLayer).1)
  /\ driversFirst els (placed ++ (expandLayer els g visited currentLayer).1).
Proof.
  intros Hvis Hord. unfold expandLayer.
  apply (fold_left_preserves
           (fun acc => acc.2 = list_to_set (placed ++ acc.1)
                       /\ driversFirst els (placed ++ acc.1))).
  - intros acc srcId Hacc.
    apply (fold_left_preserves
             (fun acc => acc.2 = list_to_set (placed ++ acc.1)
                         /\ driversFirst els (placed ++ acc.1)));
      [|exact Hacc].
    intros acc' destId [H1 H2]. by apply visitDest_order.
  - simpl. by rewrite app_nil_r.
Qed.

Lemma bfsLoop_order (fuel : nat) (els : list IElement) (g : gmap Z (list Z))
    (visited : gset Z) (layers : list (list Z)) (currentLayer : list Z)
    (r : gset Z * list (list Z)) :
  visited = list_to_set (concat layers) ->
  driversFirst els (concat layers) ->
  bfsLoop fuel els g visited layers currentLayer = Some r ->
  driversFirst els (concat r.2).
Proof.
  revert visited layers currentLayer.
  induction fuel as [|fuel IH]; intros visited layers cur Hvis Hord Hrun.
  - destruct cur; [|done]. by injection Hrun as <-.
  - destruct cur as [|c cur]; [by injection Hrun as <-|].
    cbn [bfsLoop] in Hrun.
    pose proof (expandLayer_order els g (concat layers) visited (c :: cur)
                  Hvis Hord) as [Hvis' Hord'].
    destruct (expandLayer els g visited (c :: cur)) as [next visited'].
    simpl in Hvis', Hord'.
    assert (concat (match next with
                    | [] => layers
                    | _ :: _ => layers ++ [next]
                    end) = concat layers ++ next) as Hcat.
    { destruct next; [by rewrite app_nil_r|].
      rewrite concat_app. simpl. by rewrite app_nil_r. }
    eapply IH; [| |exact Hrun]; rewrite Hcat; assumption.
Qed.

(** X19: in the order in which the breadth-first expansion places the
    elements (layer after layer, each layer from top to bottom), every
    element that is not a source element comes after all the elements
    that drive its inputs, possibly after one in its own layer. *)
Theorem expansion_places_drivers_first (fuel : nat) (els : list IElement)
    (connections : list IConnection) (visited : gset Z)
    (bfsLayers : list (list Z)) :
  bfsLoop fuel els (buildGraph els connections)
    (list_to_set (sourceLayers els)) [sourceLayers els] (sourceLayers els)
  = Some (visited, bfsLayers) ->
  driversFirst els (concat bfsLayers).
Proof.
  intros Hrun.
  assert (list_to_set (sourceLayers els)
          = (list_to_set (concat [sourceLayers els]) : gset Z)) as Hvis
    by (simpl; by rewrite app_nil_r).
  assert (driversFirst els (concat [sourceLayers els])) as Hord.
  { simpl. rewrite app_nil_r. intros k i Hk. left.
    by apply list_elem_of_lookup_2 in Hk. }
  exact (bfsLoop_order fuel els _ _ _ _ _ Hvis Hord Hrun).
Qed.

(** In this netlist gate 3 lands in the layer of gate 2, which drives
    it: gate 2 is marked visited while the layer is being built. *)
Lemma expansion_places_drivers_first_witness :
  computeLayers 4 Cases.chainElements Cases.chainConnections
  = Some [[1]; [2; 3]]
  /\ driversOf Cases.chainElements 3 = [1; 2]
  /\ driversFirst Cases.chainElements [1; 2; 3].
Proof.
  split; [reflexivity|]. split; [reflexivity|].
  apply (expansion_places_drivers_first 4 Cases.chainElements
           Cases.chainConnections (list_to_set [1; 2; 3]) [[1]; [2; 3]]).
  vm_compute. reflexivity.
Defined.

(** ** The tab bar *)

Section TabsBarFacts.

Context {Tab : Type}.
Variable tab_id : Tab -> string.

Lemma removeTab_tabs (id : string) (st : TabsBar.State Tab) :
  TabsBar.activeTabs Tab (TabsBar.removeTab Tab tab_id id st)
  = List.filter (fun tab => negb (String.eqb (tab_id tab) id))
      (TabsBar.activeTabs Tab st).
Proof.
  unfold TabsBar.removeTab.
  destruct (String.eqb id (TabsBar.selectedTab Tab st) && _); [|done].
  by destruct (List.filter _ _).
Qed.

(** X20: closing a tab removes every tab with that id and keeps the
    others in order.  If the bar and its parent agreed on the selected
    tab and that tab was open, they still agree afterwards, and the
    selected tab is still open as long as a tab is left; when no tab is
    left, the selection stays, in the bar and in the parent, on the id of
    the closed tab. *)
Theorem removeTab_keeps_selection_open (id : string)
    (st : TabsBar.State Tab) :
  TabsBar.selectedTab Tab st = TabsBar.activeTabId Tab st ->
  TabsBar.selectionOpen Tab tab_id st ->
  let st' := TabsBar.removeTab Tab tab_id id st in
  TabsBar.activeTabs Tab st'
  = List.filter (fun tab => negb (String.eqb (tab_id tab) id))
      (TabsBar.activeTabs Tab st)
  /\ Forall (fun tab => tab_id tab <> id) (TabsBar.activeTabs Tab st')
  /\ TabsBar.selectedTab Tab st' = TabsBar.activeTabId Tab st'
  /\ match TabsBar.activeTabs Tab st' with
     | [] => TabsBar.selectedTab Tab st' = id
             /\ TabsBar.activeTabId Tab st' = id
     | _ :: _ => TabsBar.selectionOpen Tab tab_id st'
     end.
Proof.
  intros Hsync Hopen st'.
  pose proof (removeTab_tabs id st) as Htabs. fold st' in Htabs.
  split; [exact Htabs|]. split.
  { rewrite Htabs. apply Forall_forall. intros tab Hin.
    apply list_elem_of_In, filter_In in Hin as [_ Hne].
    apply Bool.negb_true_iff in Hne. by apply String.eqb_neq. }
  unfold TabsBar.selectionOpen in *. subst st'.
  unfold TabsBar.removeTab in *.
  set (newTabs := List.filter _ (TabsBar.activeTabs Tab st)) in *.
  destruct (String.eqb_spec id (TabsBar.selectedTab Tab st)) as [Heq|Hne].
  - destruct newTabs as [|first rest]; simpl; [split; [|split]; congruence|].
    split; [done|]. by left.
  - simpl. split; [exact Hsync|].
    assert (TabsBar.selectedTab Tab st ∈ map tab_id newTabs) as Hstill.
    { apply list_elem_of_In, in_map_iff in Hopen as (tab & Hid & Hin).
      apply list_elem_of_In, in_map_iff. exists tab. split; [exact Hid|].
      apply filter_In. split; [exact Hin|].
      apply Bool.negb_true_iff, String.eqb_neq. congruence. }
    destruct newTabs; [by apply elem_of_nil in Hstill | exact Hstill].
Qed.

(** X21: closing the same tab twice is closing it once, and closing a
    tab that is not the selected one changes neither the selection of
    the bar nor the active tab of the parent. *)
Theorem removeTab_idempotent (id : string) (st : TabsBar.State Tab) :
  TabsBar.removeTab Tab tab_id id (TabsBar.removeTab Tab tab_id id st)
  = TabsBar.removeTab Tab tab_id id st
  /\ (if String.eqb id (TabsBar.selectedTab Tab st) then True
      else TabsBar.selectedTab Tab (TabsBar.removeTab Tab tab_id id st)
           = TabsBar.selectedTab Tab st
           /\ TabsBar.activeTabId Tab (TabsBar.removeTab Tab tab_id id st)
              = TabsBar.activeTabId Tab st).
Proof.
  assert (forall l : list Tab,
            List.filter (fun tab => negb (String.eqb (tab_id tab) id))
              (List.filter (fun tab => negb (String.eqb (tab_id tab) id)) l)
            = List.filter (fun tab => negb (String.eqb (tab_id tab) id)) l)
    as Hff.
  { intros l. induction l as [|t l IH]; simpl; [done|].
    destruct (negb (String.eqb (tab_id t) id)) eqn:Ht; simpl;
      [by rewrite Ht, IH | exact IH]. }
  assert (forall st0 : TabsBar.State Tab,
            List.filter (fun tab => negb (String.eqb (tab_id tab) id))
              (TabsBar.activeTabs Tab st0) = TabsBar.activeTabs Tab st0 ->
            String.eqb id (TabsBar.selectedTab Tab st0)
            && (0 <? length (TabsBar.activeTabs Tab st0))%nat = false ->
            TabsBar.removeTab Tab tab_id id st0 = st0) as Hfix.
  { intros [tabs sel act] Hkeep Hcond. unfold TabsBar.removeTab.
    cbn [TabsBar.activeTabs TabsBar.selectedTab TabsBar.activeTabId] in *.
    rewrite Hkeep, Hcond. done. }
  split.
  - apply Hfix.
    + rewrite removeTab_tabs. apply Hff.
    + rewrite removeTab_tabs. unfold TabsBar.removeTab.
      set (newTabs := List.filter _ (TabsBar.activeTabs Tab st)).
      assert (Forall (fun tab => negb (String.eqb (tab_id tab) id) = true)
                newTabs) as Hall.
      { apply Forall_forall. intros tab Hin.
        by apply list_elem_of_In, filter_In in Hin as [_ Hne]. }
      destruct (String.eqb id (TabsBar.selectedTab Tab st)) eqn:Hsel.
      * destruct newTabs as [|first rest]; simpl.
        -- apply Bool.andb_false_r.
        -- apply Forall_cons in Hall as [Hfirst _].
           apply Bool.negb_true_iff in Hfirst.
           rewrite String.eqb_sym in Hfirst. by rewrite Hfirst.
      * simpl. by rewrite Hsel.
  - destruct (String.eqb id (TabsBar.selectedTab Tab st)) eqn:Hsel; [done|].
    unfold TabsBar.removeTab. rewrite Hsel. done.
Qed.

End TabsBarFacts.

Lemma removeTab_keeps_selection_open_witness :
  let st := TabsBar.handleTabClick _ "t2" (TabsBar.initial _ fst Cases.tabs "") in
  TabsBar.selectedTab _ (TabsBar.removeTab _ fst "t2" st) = "t1"
  /\ TabsBar.activeTabId _ (TabsBar.removeTab _ fst "t2" st) = "t1"
  /\ map fst (TabsBar.activeTabs _ (TabsBar.removeTab _ fst "t2" st))
     = ["t1"; "t3"].
Proof.
  intros st.
  destruct (removeTab_keeps_selection_open fst "t2" st)
    as (_ & _ & Hsync & _).
  - reflexivity.
  - unfold TabsBar.selectionOpen. vm_compute. right. left.
  - rewrite <- Hsync. repeat split; reflexivity.
Defined.

(** ** Routes follow the elements *)

Lemma getPortPosition_moveBy (dx dy : Q) (el : IElement)
    (portType : PortType) (portName : string) :
  (px (getPortPosition (moveBy dx dy el) portType portName)
   == px (getPortPosition el portType portName) + dx)%Q
  /\ (py (getPortPosition (moveBy dx dy el) portType portName)
      == py (getPortPosition el portType portName) + dy)%Q.
Proof.
  unfold getPortPosition.
  change (isFlipFlop (moveBy dx dy el)) with (isFlipFlop el).
  change (orZero (el_x (moveBy dx dy el))) with (orZero (el_x el) + dx)%Q.
  change (orZero (el_y (moveBy dx dy el))) with (orZero (el_y el) + dy)%Q.
  destruct (isFlipFlop el), portType; cbn [px py];
    repeat match goal with
           | |- context [if ?b then _ else _] => destruct b; cbn [px py]
           end;
    split; field.
Qed.

(** X22: moving an element moves each of its ports by the same vector,
    so a wire between two elements that are moved together is the same
    route moved by that vector: its four waypoints are translated and its
    length is unchanged. *)
Theorem route_follows_elements (dx dy : Q)
    (sourceElement destElement : IElement) (connection : IConnection) :
  let path := calculateOrthogonalPath sourceElement destElement connection in
  let path' :=
    calculateOrthogonalPath (moveBy dx dy sourceElement)
      (moveBy dx dy destElement) connection in
  Forall2 (fun p p' => (px p' == px p + dx)%Q /\ (py p' == py p + dy)%Q)
    path path'
  /\ (pathLength path' == pathLength path)%Q.
Proof.
  intros path path'. subst path path'. unfold calculateOrthogonalPath.
  change (el_outputs (moveBy dx dy sourceElement))
    with (el_outputs sourceElement).
  change (el_inputs (moveBy dx dy destElement)) with (el_inputs destElement).
  set (sn := portNameOr _ _). set (dn := portNameOr _ _).
  destruct (getPortPosition_moveBy dx dy sourceElement POutput sn)
    as [Hsx Hsy].
  destruct (getPortPosition_moveBy dx dy destElement PInput dn)
    as [Hex Hey].
  destruct (getPortPosition (moveBy dx dy sourceElement) POutput sn)
    as [sx' sy'].
  destruct (getPortPosition (moveBy dx dy destElement) PInput dn)
    as [ex' ey'].
  destruct (getPortPosition sourceElement POutput sn) as [sx sy].
  destruct (getPortPosition destElement PInput dn) as [ex ey].
  cbn [px py] in *. split.
  - repeat constructor; cbn [px py]; rewrite ?Hsx, ?Hsy, ?Hex, ?Hey;
      field.
  - cbn [pathLength]. unfold segmentLength. cbn [px py].
    rewrite Hsx, Hsy, Hex, Hey.
    assert (sx + dx + (ex + dx - (sx + dx)) / 2 - (sx + dx)
            == sx + (ex - sx) / 2 - sx)%Q as -> by field.
    assert (sy + dy - (sy + dy) == sy - sy)%Q as -> by field.
    assert (sx + dx + (ex + dx - (sx + dx)) / 2
            - (sx + dx + (ex + dx - (sx + dx)) / 2)
            == sx + (ex - sx) / 2 - (sx + (ex - sx) / 2))%Q as -> by field.
    assert (ey + dy - (sy + dy) == ey - sy)%Q as -> by field.
    assert (ex + dx - (sx + dx + (ex + dx - (sx + dx)) / 2)
            == ex - (sx + (ex - sx) / 2))%Q as -> by field.
    assert (ey + dy - (ey + dy) == ey - ey)%Q as -> by field.
    reflexivity.
Qed.

(** ** Signal markers *)

Lemma segmentLength_nonneg (p q : Point) : (0 <= segmentLength p q)%Q.
Proof.
  unfold segmentLength.
  pose proof (Qabs_nonneg (px q - px p)).
  pose proof (Qabs_nonneg (py q - py p)). lra.
Qed.

Lemma pathLength_nonneg (pts : list Point) : (0 <= pathLength pts)%Q.
Proof.
  induction pts as [|p [|q rest] IH]; cbn [pathLength]; try lra.
  pose proof (segmentLength_nonneg p q). cbn [pathLength] in IH. lra.
Qed.

(** The loop stops on a segment that contains the target distance. *)
Lemma locateSegment_spec (pts : list Point) :
  forall (i : nat) (cur target : Q),
    (2 <= length pts)%nat ->
    (cur <= target)%Q ->
    (target <= cur + pathLength pts)%Q ->
    exists (k : nat) (c : Q) (p1 p2 : Point),
      locateSegment pts i cur target = ((i + k)%nat, c)
      /\ pts !! k = Some p1 /\ pts !! S k = Some p2
      /\ (c <= target)%Q /\ (target <= c + segmentLength p1 p2)%Q
      /\ ((cur < target)%Q -> (c < target)%Q).
Proof.
  induction pts as [|p pts IH]; intros i cur target Hlen Hlo Hhi;
    [simpl in Hlen; lia|].
  destruct pts as [|q rest]; [simpl in Hlen; lia|].
  cbn [locateSegment pathLength] in *.
  destruct (Qle_bool target (cur + segmentLength p q)) eqn:Htest.
  - apply Qle_bool_iff in Htest. exists 0%nat, cur, p, q.
    rewrite Nat.add_0_r. repeat split; try done.
  - assert (cur + segmentLength p q < target)%Q as Hpast.
    { apply Qnot_le_lt. intros Hle. apply Qle_bool_iff in Hle. congruence. }
    destruct rest as [|r rest].
    { cbn [pathLength] in Hhi. lra. }
    destruct (IH (S i) (cur + segmentLength p q)%Q target)
      as (k & c & p1 & p2 & Hrun & Hp1 & Hp2 & Hc & Hseg & Hstrict).
    + simpl. lia.
    + lra.
    + lra.
    + exists (S k), c, p1, p2. rewrite Hrun.
      replace (i + S k)%nat with (S i + k)%nat by lia.
      repeat split; try done. intros _. apply Hstrict, Hpast.
Qed.

(** X23: while a signal travels on its route, its marker is drawn on one
    of the three segments of the route.  A signal that has left its
    source on a wire of non-zero length always has a marker.  A signal
    still at position 0 is drawn on the source port, except when the two
    ports have the same horizontal coordinate: then the first segment has
    no length and nothing is drawn, and only then. *)
Theorem marker_on_route (sourceElement destElement : IElement)
    (connection : IConnection) (now p : Q) :
  (0 <= p)%Q -> (p < 1)%Q ->
  let a := getPortPosition sourceElement POutput (conn_name connection) in
  let b := getPortPosition destElement PInput (conn_name connection) in
  let route := calculateOrthogonalPath sourceElement destElement connection in
  let signal :=
    withPosition (newSignal sourceElement destElement connection now) p in
  (forall m : Point,
      markerPosition signal = Some m ->
      exists (k : nat) (p1 p2 : Point),
        route !! k = Some p1 /\ route !! S k = Some p2 /\ onSegment p1 p2 m)
  /\ ((0 < p)%Q -> (0 < pathLength route)%Q ->
      exists m : Point, markerPosition signal = Some m)
  /\ ((p == 0)%Q ->
      ((px a == px b)%Q -> markerPosition signal = None)
      /\ (~ (px a == px b)%Q ->
          exists m : Point,
            markerPosition signal = Some m
            /\ (px m == px a)%Q /\ (py m == py a)%Q)).
Proof.
  intros Hp0 Hp1 a b route signal.
  assert (Qltb p 1 = true) as Hlt.
  { unfold Qltb. apply Bool.negb_true_iff.
    destruct (Qle_bool 1 p) eqn:Hle; [|done].
    apply Qle_bool_iff in Hle. lra. }
  assert (length route = 4%nat) as Hfour by reflexivity.
  pose proof (pathLength_nonneg route) as Htotal.
  assert (0 <= pathLength route * p)%Q as Hlo by nra.
  assert (pathLength route * p <= 0 + pathLength route)%Q as Hhi by nra.
  destruct (locateSegment_spec route 0 0 (pathLength route * p)%Q)
    as (k & c & p1 & p2 & Hrun & Hk1 & Hk2 & Hc & Hseg & Hstrict);
    [lia | exact Hlo | exact Hhi |].
  pose proof (segmentLength_nonneg p1 p2) as Hlen.
  assert (markerPosition signal
          = if Qeq_bool (segmentLength p1 p2) 0 then None
            else Some (mkPoint
                         (px p1 + (px p2 - px p1)
                                  * ((pathLength route * p - c)
                                     / segmentLength p1 p2))%Q
                         (py p1 + (py p2 - py p1)
                                  * ((pathLength route * p - c)
                                     / segmentLength p1 p2))%Q)) as Hmark.
  { unfold markerPosition, signal, withPosition, newSignal.
    cbn [position points totalLength]. fold route.
    rewrite Hlt, Hfour. cbn [Nat.leb andb]. rewrite Hrun.
    cbn [fst snd Nat.add]. by rewrite Hk1, Hk2. }
  split; [|split].
  - intros m Hm. rewrite Hmark in Hm.
    destruct (Qeq_bool (segmentLength p1 p2) 0) eqn:Hzero; [done|].
    apply Qeq_bool_neq in Hzero. injection Hm as <-.
    exists k, p1, p2. split; [exact Hk1|]. split; [exact Hk2|].
    exists ((pathLength route * p - c) / segmentLength p1 p2)%Q.
    assert (0 < segmentLength p1 p2)%Q as Hpos.
    { destruct (Qlt_le_dec 0 (segmentLength p1 p2)) as [|Hle]; [done|].
      exfalso. apply Hzero. lra. }
    split; [apply Qle_shift_div_l; [exact Hpos | lra]|].
    split; [apply Qle_shift_div_r; [exact Hpos | lra]|].
    cbn [px py]. split; reflexivity.
  - intros Hgo Hwire. rewrite Hmark.
    assert (0 < pathLength route * p)%Q as Htarget by nra.
    specialize (Hstrict Htarget).
    destruct (Qeq_bool (segmentLength p1 p2) 0) eqn:Hzero.
    + apply Qeq_bool_iff in Hzero. lra.
    + by eexists.
  - intros Hstart.
    assert (pathLength route * p == 0)%Q as Htarget by (rewrite Hstart; ring).
    remember (pathLength route * p)%Q as target eqn:Htg.
    assert (k = 0%nat /\ c = 0%Q) as [-> ->].
    { unfold route, calculateOrthogonalPath in Hrun.
      cbn [locateSegment] in Hrun.
      match type of Hrun with
      | (if Qle_bool ?t ?u then _ else _) = _ =>
          assert (Qle_bool t u = true) as Htest
      end.
      { apply Qle_bool_iff.
        match goal with
        | |- (_ <= 0 + segmentLength ?u ?v)%Q =>
            pose proof (segmentLength_nonneg u v)
        end.
        lra. }
      rewrite Htest in Hrun. by injection Hrun as <- <-. }
    rewrite Hmark.
    unfold route, calculateOrthogonalPath in Hk1, Hk2.
    rewrite !portNameOr_connection in Hk1, Hk2. fold a b in Hk1, Hk2.
    injection Hk1 as <-. injection Hk2 as <-.
    unfold segmentLength. cbn [px py].
    set (len := (Qabs (px a + (px b - px a) / 2 - px a)
                 + Qabs (py a - py a))%Q).
    assert (len == Qabs ((px b - px a) / 2))%Q as Hlen'.
    { unfold len.
      assert (px a + (px b - px a) / 2 - px a == (px b - px a) / 2)%Q
        as -> by field.
      assert (py a - py a == 0)%Q as -> by ring.
      change (Qabs 0) with 0%Q. ring. }
    assert (px b - px a == 2 * ((px b - px a) / 2))%Q as Htwice by field.
    destruct (Qeq_bool len 0) eqn:Hzero.
    + apply Qeq_bool_iff in Hzero. rewrite Hlen' in Hzero.
      split; [done|]. intros Hne. exfalso. apply Hne.
      destruct (Qlt_le_dec ((px b - px a) / 2) 0) as [Hneg|Hnn].
      * rewrite Qabs_neg in Hzero by lra. lra.
      * rewrite Qabs_pos in Hzero by exact Hnn. lra.
    + apply Qeq_bool_neq in Hzero. split.
      * intros Hsame. exfalso. apply Hzero. rewrite Hlen'.
        assert ((px b - px a) / 2 == 0)%Q as -> by lra. reflexivity.
      * intros _. eexists. split; [reflexivity|]. cbn [px py].
        assert ((target - 0) / len == 0)%Q as ->.
        { rewrite Htarget. field. exact Hzero. }
        split; ring.
Qed.

Lemma marker_on_route_witness :
  exists m : Point,
    markerPosition
      (withPosition
         (newSignal (mkElement 1 (Some "a") "module_input"
                       (Some 100%Q) (Some 100%Q)
                       (Some []) (Some [mkPort "a"]))
            (mkElement 2 (Some "g") "and" (Some 300%Q) (Some 200%Q)
               (Some [mkPort "a"]) (Some [mkPort "y"]))
            (mkConnection "a") 0%Q)
         (1 # 2)%Q)
    = Some m.
Proof.
  refine (proj1 (proj2 (marker_on_route _ _ _ 0%Q (1 # 2)%Q _ _)) _ _);
    vm_compute; congruence.
Defined.
